(** * Simulador de cruce peatonal: the simulation kernel and the two controllers

    A shallow embedding of [simulacion/llegadas.py], [simulacion/semaforo_fijo.py],
    [simulacion/semaforo_adaptativo.py] and of the drivers [simular_semaforo_fijo]
    and [simular_semaforo_adaptativo], together with the part of the SimPy
    kernel they run on (event heap, [Timeout], [Process], [Store]).

    Conventions.
    - Times and durations are exact rationals ([Q]); the Python floats are
      read as the numbers they denote and arithmetic is exact. What is
      proved of logged numbers is therefore stated in terms that do not
      depend on how a sum is rounded (orders, signs, values copied from the
      configuration), or says that it is for exact sums. The module [Doble]
      is the same run with every arithmetic operation rounded to double
      precision; it shows where an exact identity fails.
    - Every Python generator is a resumable state machine: its frame is an
      inductive with one constructor per [yield] of the source, holding the
      local variables that are live there.
    - The dictionaries appended to the lists of [registros] are records.

    The second part embeds what reads the logs: [calcular_metricas_basicas],
    [calcular_metricas_adaptativas], [validar_proceso_poisson] and the
    methods of [AnalizadorMetricas] in [analisis/metricas.py]. A DataFrame is
    the list of its rows, a NumPy array a list of rationals, and [np.sqrt]
    is a parameter ([Numpy]). *)

From Stdlib Require Import List Bool Arith ZArith QArith Qround Qabs Lqa Lia Permutation.
From Stdlib Require String.
Import ListNotations.
Open Scope Q_scope.

(** ** Data model *)

(** [Vehiculo] and [Peaton] of llegadas.py: two namedtuples with the same
    fields [id] and [tiempo_llegada]. *)
Record Agente : Type := mkAgente { ag_id : nat; tiempo_llegada : Q }.
Definition Vehiculo := Agente.
Definition Peaton := Agente.

Inductive Control : Type := Fijo | Adaptativo.

(** The keyword parameters of [simular_semaforo_fijo] and
    [simular_semaforo_adaptativo], and [AMARILLO] of config.py. *)
Record Config : Type := mkConfig {
  control : Control;
  tiempo_sim : Q;
  lambda_v : Q;
  lambda_p : Q;
  g_v_fijo : Q;
  g_min : Q;
  g_max : Q;
  g_p_fijo : Q;
  s_v : Q;
  s_p : Q;
  t_v : Z;
  t_p : Z;
  b_extension : Q;
  w_max : Q;
  amarillo : Q;
  warmup_time : Q;
  semilla : Z;
  verbose : bool
}.

(** The strings used as phase names, decision kinds and motives. *)
Inductive Fase : Type :=
| VERDE_VEHICULAR
| VERDE_VEHICULAR_INICIAL
| VERDE_VEHICULAR_EXTENSION
| AMARILLO_VEHICULAR
| VERDE_PEATONAL
| AMARILLO_PEATONAL.

Inductive TipoDecision : Type := EXTENSION | FIN_EXTENSION | SALTAR_FASE_PEATONAL.

Inductive Motivo : Type :=
| PRIORIDAD_PEATONAL
| COLA_VEHICULAR_BAJA
| MAXIMO_ALCANZADO
| ALTA_DEMANDA_VEHICULAR
| COLA_PEATONAL_ALTA
| ESPERA_EXCESIVA
| HAY_PEATONES
| SIN_PEATONES.

Definition Fase_eqb (a b : Fase) : bool :=
  match a, b with
  | VERDE_VEHICULAR, VERDE_VEHICULAR
  | VERDE_VEHICULAR_INICIAL, VERDE_VEHICULAR_INICIAL
  | VERDE_VEHICULAR_EXTENSION, VERDE_VEHICULAR_EXTENSION
  | AMARILLO_VEHICULAR, AMARILLO_VEHICULAR
  | VERDE_PEATONAL, VERDE_PEATONAL
  | AMARILLO_PEATONAL, AMARILLO_PEATONAL => true
  | _, _ => false
  end.

Definition Motivo_eqb (a b : Motivo) : bool :=
  match a, b with
  | PRIORIDAD_PEATONAL, PRIORIDAD_PEATONAL
  | COLA_VEHICULAR_BAJA, COLA_VEHICULAR_BAJA
  | MAXIMO_ALCANZADO, MAXIMO_ALCANZADO
  | ALTA_DEMANDA_VEHICULAR, ALTA_DEMANDA_VEHICULAR
  | COLA_PEATONAL_ALTA, COLA_PEATONAL_ALTA
  | ESPERA_EXCESIVA, ESPERA_EXCESIVA
  | HAY_PEATONES, HAY_PEATONES
  | SIN_PEATONES, SIN_PEATONES => true
  | _, _ => false
  end.

Definition Tipo_eqb (a b : TipoDecision) : bool :=
  match a, b with
  | EXTENSION, EXTENSION
  | FIN_EXTENSION, FIN_EXTENSION
  | SALTAR_FASE_PEATONAL, SALTAR_FASE_PEATONAL => true
  | _, _ => false
  end.

(** *** Records appended to [registros] *)

(** Entries of ['llegadas_vehiculos'] and ['llegadas_peatones'] (the
    pedestrian entry also carries the constant ['tiempo_espera_actual': 0]). *)
Record RegLlegada : Type := mkLlegada {
  ll_id : nat;
  ll_tiempo : Q;
  ll_cola_longitud : nat
}.

(** Entries of ['servicios_vehiculos'] and ['servicios_peatones']. *)
Record RegServicio : Type := mkServicio {
  sv_id : nat;
  sv_tiempo_llegada : Q;
  sv_tiempo_inicio_servicio : Q;
  sv_tiempo_fin_servicio : Q;
  sv_tiempo_espera : Q;
  sv_tiempo_servicio : Q;
  sv_ciclo : nat
}.

(** The optional [info_adicional] merged into a phase-change entry. *)
Inductive InfoAdicional : Type :=
| SinInfo
| InfoExtension (extension : nat) (tiempo_total : Q)
| InfoMotivo (motivo : Motivo).

(** Entries of ['eventos_semaforo']. *)
Record RegEvento : Type := mkEvento {
  ev_tiempo : Q;
  ev_fase : Fase;
  ev_duracion : Q;
  ev_ciclo : nat;
  ev_cola_v : nat;
  ev_cola_p : nat;
  ev_info : InfoAdicional
}.

(** Entries of ['estado_colas']. *)
Record RegEstado : Type := mkEstado {
  es_tiempo : Q;
  es_cola_v : nat;
  es_cola_p : nat;
  es_fase : Fase
}.

(** The dictionary stored under ['valor'] of a decision. *)
Inductive ValorDecision : Type :=
| ValEspera (espera_max_p w_max' : Q)
| ValCola (cola_v : nat) (t_v' : Z)
| ValMaximo (tiempo_total g_max' : Q)
| ValExtension (extension : nat) (tiempo_total : Q) (cola_v : nat)
| ValColaP (cola_p : nat).

(** Entries of ['decisiones_adaptativas']. *)
Record RegDecision : Type := mkDecision {
  de_tiempo : Q;
  de_ciclo : nat;
  de_tipo : TipoDecision;
  de_motivo : Motivo;
  de_valor : ValorDecision;
  de_cola_v : nat;
  de_cola_p : nat
}.

(** The dictionary [registros]; a Python list grows at its end. *)
Record Registros : Type := mkRegistros {
  llegadas_vehiculos : list RegLlegada;
  llegadas_peatones : list RegLlegada;
  eventos_semaforo : list RegEvento;
  servicios_vehiculos : list RegServicio;
  servicios_peatones : list RegServicio;
  estado_colas : list RegEstado;
  decisiones_adaptativas : list RegDecision
}.

Definition registros_vacios : Registros := mkRegistros [] [] [] [] [] [] [].

(** ** The SimPy kernel *)

(** The logical processes of a run. [PAtender] is the service sub-process
    ([atender_vehiculos] or [atender_peatones]); [PFaseVerde] is
    [fase_verde_vehicular_adaptativa]. *)
Inductive Pid : Type := PGenV | PGenP | PControlador | PFaseVerde | PAtender | PMonitor.

(** Values carried by a processed event into the generator it resumes. *)
Inductive Valor : Type :=
| VNone
| VAgente (a : Agente)
| VNat (n : nat)
| VQ (q : Q).

(** What processing an event does: run [Process._resume] of a process
    ([Iniciar] is SimPy's [Initialize] event), nothing (a [StorePut] event, on
    which no process waits), or [StopSimulation.callback]. *)
Inductive Accion : Type :=
| Iniciar (p : Pid)
| Reanudar (p : Pid) (v : Valor)
| Nada
| Detener.

(** An entry [(time, priority, eid, event)] of [Environment._queue]. *)
Record Evento : Type := mkEv {
  e_t : Q;
  e_prio : nat;
  e_eid : nat;
  e_acc : Accion
}.

Definition URGENT : nat := 0%nat.
Definition NORMAL : nat := 1%nat.

Inductive Clase : Type := Vehicular | Peatonal.

(** Frame of a service generator ([atender_vehiculos], [atender_peatones]),
    one constructor per suspension point. *)
Inductive MarcoAtender : Type :=
| At_creado (c : Clase) (duracion : Q)
| At_sondeo (c : Clase) (tiempo_fin : Q) (atendidos : nat)
| At_get (c : Clase) (tiempo_fin : Q) (atendidos : nat)
| At_devuelto (c : Clase) (tiempo_fin : Q) (atendidos : nat)
| At_servicio (c : Clase) (tiempo_fin : Q) (atendidos : nat)
              (agente : Agente) (tiempo_espera tiempo_servicio : Q).

(** Frame of [fase_verde_vehicular_adaptativa]. *)
Inductive MarcoFase : Type :=
| Fv_creado
| Fv_inicial (tiempo_verde_total : Q)
| Fv_extension (tiempo_verde_total : Q) (extensiones : nat).

(** Frame of [SemaforoFijo.controlador]. *)
Inductive MarcoFijo : Type :=
| Cf_verde_v
| Cf_amarillo_v
| Cf_verde_p
| Cf_amarillo_p.

(** Frame of [SemaforoAdaptativo.controlador], with the locals assigned so
    far in the current pass of its loop. *)
Inductive MarcoAdaptativo : Type :=
| Ca_verde_v
| Ca_amarillo_v (tiempo_verde_vehicular : Q)
| Ca_verde_p (tiempo_verde_vehicular : Q) (motivo : Motivo)
| Ca_amarillo_p (tiempo_verde_vehicular : Q) (motivo : Motivo).

Inductive MarcoControlador : Type :=
| C_creado
| C_fijo (m : MarcoFijo)
| C_adaptativo (m : MarcoAdaptativo).

Inductive Excepcion : Type :=
| ValueError
| ZeroDivisionError
| RuntimeError.

(** The whole state of a run: the environment, the [random] module, the two
    stores, the objects' attributes, [registros], and the generator frames. *)
Record Sim : Type := mkSim {
  ahora : Q;
  sig_eid : nat;
  agenda : list Evento;
  sorteos : nat;
  cola_vehiculos : list Agente;
  cola_peatones : list Agente;
  vehiculo_id : nat;
  peaton_id : nat;
  fase_actual : Fase;
  ciclo_numero : nat;
  registros : Registros;
  m_controlador : MarcoControlador;
  m_fase : option MarcoFase;
  m_atender : option MarcoAtender
}.

Inductive Res : Type :=
| Bien (s : Sim)
| Mal (e : Excepcion).

Definition ligar (r : Res) (k : Sim -> Res) : Res :=
  match r with
  | Bien s => k s
  | Mal e => Mal e
  end.

Notation "r >>= k" := (ligar r k) (at level 50, left associativity).

(** *** Field updates *)

Definition con_ahora (t : Q) (s : Sim) : Sim :=
  match s with
  | mkSim _ x1 x2 x3 x4 x5 x6 x7 x8 x9 x10 x11 x12 x13 =>
      mkSim t x1 x2 x3 x4 x5 x6 x7 x8 x9 x10 x11 x12 x13
  end.

Definition con_sig_eid (n : nat) (s : Sim) : Sim :=
  match s with
  | mkSim x0 _ x2 x3 x4 x5 x6 x7 x8 x9 x10 x11 x12 x13 =>
      mkSim x0 n x2 x3 x4 x5 x6 x7 x8 x9 x10 x11 x12 x13
  end.

Definition con_agenda (a : list Evento) (s : Sim) : Sim :=
  match s with
  | mkSim x0 x1 _ x3 x4 x5 x6 x7 x8 x9 x10 x11 x12 x13 =>
      mkSim x0 x1 a x3 x4 x5 x6 x7 x8 x9 x10 x11 x12 x13
  end.

Definition con_sorteos (n : nat) (s : Sim) : Sim :=
  match s with
  | mkSim x0 x1 x2 _ x4 x5 x6 x7 x8 x9 x10 x11 x12 x13 =>
      mkSim x0 x1 x2 n x4 x5 x6 x7 x8 x9 x10 x11 x12 x13
  end.

Definition con_cola_vehiculos (c : list Agente) (s : Sim) : Sim :=
  match s with
  | mkSim x0 x1 x2 x3 _ x5 x6 x7 x8 x9 x10 x11 x12 x13 =>
      mkSim x0 x1 x2 x3 c x5 x6 x7 x8 x9 x10 x11 x12 x13
  end.

Definition con_cola_peatones (c : list Agente) (s : Sim) : Sim :=
  match s with
  | mkSim x0 x1 x2 x3 x4 _ x6 x7 x8 x9 x10 x11 x12 x13 =>
      mkSim x0 x1 x2 x3 x4 c x6 x7 x8 x9 x10 x11 x12 x13
  end.

Definition con_vehiculo_id (n : nat) (s : Sim) : Sim :=
  match s with
  | mkSim x0 x1 x2 x3 x4 x5 _ x7 x8 x9 x10 x11 x12 x13 =>
      mkSim x0 x1 x2 x3 x4 x5 n x7 x8 x9 x10 x11 x12 x13
  end.

Definition con_peaton_id (n : nat) (s : Sim) : Sim :=
  match s with
  | mkSim x0 x1 x2 x3 x4 x5 x6 _ x8 x9 x10 x11 x12 x13 =>
      mkSim x0 x1 x2 x3 x4 x5 x6 n x8 x9 x10 x11 x12 x13
  end.

Definition con_fase_actual (f : Fase) (s : Sim) : Sim :=
  match s with
  | mkSim x0 x1 x2 x3 x4 x5 x6 x7 _ x9 x10 x11 x12 x13 =>
      mkSim x0 x1 x2 x3 x4 x5 x6 x7 f x9 x10 x11 x12 x13
  end.

Definition con_ciclo_numero (n : nat) (s : Sim) : Sim :=
  match s with
  | mkSim x0 x1 x2 x3 x4 x5 x6 x7 x8 _ x10 x11 x12 x13 =>
      mkSim x0 x1 x2 x3 x4 x5 x6 x7 x8 n x10 x11 x12 x13
  end.

Definition con_registros (g : Registros) (s : Sim) : Sim :=
  match s with
  | mkSim x0 x1 x2 x3 x4 x5 x6 x7 x8 x9 _ x11 x12 x13 =>
      mkSim x0 x1 x2 x3 x4 x5 x6 x7 x8 x9 g x11 x12 x13
  end.

Definition con_controlador (m : MarcoControlador) (s : Sim) : Sim :=
  match s with
  | mkSim x0 x1 x2 x3 x4 x5 x6 x7 x8 x9 x10 _ x12 x13 =>
      mkSim x0 x1 x2 x3 x4 x5 x6 x7 x8 x9 x10 m x12 x13
  end.

Definition con_fase (m : option MarcoFase) (s : Sim) : Sim :=
  match s with
  | mkSim x0 x1 x2 x3 x4 x5 x6 x7 x8 x9 x10 x11 _ x13 =>
      mkSim x0 x1 x2 x3 x4 x5 x6 x7 x8 x9 x10 x11 m x13
  end.

Definition con_atender (m : option MarcoAtender) (s : Sim) : Sim :=
  match s with
  | mkSim x0 x1 x2 x3 x4 x5 x6 x7 x8 x9 x10 x11 x12 _ =>
      mkSim x0 x1 x2 x3 x4 x5 x6 x7 x8 x9 x10 x11 x12 m
  end.

(** *** The event heap *)

(** The order of the tuples [(time, priority, eid)] on the heap. *)
Definition clave_lt (x y : Evento) : bool :=
  if Qlt_le_dec (e_t x) (e_t y) then true
  else if Qlt_le_dec (e_t y) (e_t x) then false
  else if (e_prio x <? e_prio y)%nat then true
  else if (e_prio y <? e_prio x)%nat then false
  else (e_eid x <? e_eid y)%nat.

(** [extraer m l] takes the least entry out of [m :: l]. *)
Fixpoint extraer (m : Evento) (l : list Evento) : Evento * list Evento :=
  match l with
  | [] => (m, [])
  | x :: r =>
      if clave_lt x m
      then let (m', r') := extraer x r in (m', m :: r')
      else let (m', r') := extraer m r in (m', x :: r')
  end.

Definition heappop (l : list Evento) : option (Evento * list Evento) :=
  match l with
  | [] => None
  | m :: r => Some (extraer m r)
  end.

Definition heappush (e : Evento) (l : list Evento) : list Evento := e :: l.

Arguments heappush e l /.

(** [Environment.schedule(event, priority, delay)]. *)
Definition schedule (acc : Accion) (prio : nat) (delay : Q) (s : Sim) : Sim :=
  con_sig_eid (S (sig_eid s))
    (con_agenda (heappush (mkEv (ahora s + delay) prio (sig_eid s) acc) (agenda s)) s).

(** [yield env.timeout(delay)] executed by process [p]. *)
Definition env_timeout (p : Pid) (delay : Q) (s : Sim) : Res :=
  if Qlt_le_dec delay 0 then Mal ValueError
  else Bien (schedule (Reanudar p VNone) NORMAL delay s).

(** A generator returns: its [Process] event is scheduled and resumes the
    process [padre] that yielded on it. *)
Definition retornar (padre : Pid) (v : Valor) (s : Sim) : Sim :=
  schedule (Reanudar padre v) NORMAL 0 s.

(** ** The [random] module *)

(** [mt_random seed k] is the value of the [k]-th call of [random.random()]
    after [random.seed(seed)]; [menos_log1m u] is [-log(1.0 - u)]. Both belong
    to the Python runtime and stay abstract. *)
Class Azar : Type := mkAzar {
  mt_random : Z -> nat -> Q;
  menos_log1m : Q -> Q
}.

(** The generator never yields a negative [-log(1.0 - u)] ([u] lies in
    [[0, 1)]). *)
Definition azar_no_negativo (az : Azar) : Prop :=
  forall u, 0 <= menos_log1m u.

(** Python's [min(a, b)] and [max] of a non-empty list. *)
Definition py_min (a b : Q) : Q := if Qlt_le_dec b a then b else a.

Definition py_max (x : Q) (l : list Q) : Q :=
  fold_left (fun m y => if Qlt_le_dec m y then y else m) l x.

Definition Qgeb (x y : Q) : bool := if Qlt_le_dec x y then false else true.

Definition cola_de (c : Clase) (s : Sim) : list Agente :=
  match c with
  | Vehicular => cola_vehiculos s
  | Peatonal => cola_peatones s
  end.

Definition con_cola (c : Clase) (l : list Agente) (s : Sim) : Sim :=
  match c with
  | Vehicular => con_cola_vehiculos l s
  | Peatonal => con_cola_peatones l s
  end.

(** [Store.put(item)]: the item joins the tail of [items] at once and the
    put event is scheduled; no process ever waits on it. *)
Definition store_put (c : Clase) (a : Agente) (s : Sim) : Sim :=
  schedule Nada NORMAL 0 (con_cola c (cola_de c s ++ [a]) s).

(** [Store.get()] on a non-empty store: the head of [items] is removed at once
    and handed to process [p] through the get event. *)
Definition store_get (p : Pid) (c : Clase) (a : Agente) (resto : list Agente) (s : Sim) : Sim :=
  schedule (Reanudar p (VAgente a)) NORMAL 0 (con_cola c resto s).

(** [env.process(generator)]: the [Initialize] event of the new process. *)
Definition env_process (p : Pid) (s : Sim) : Sim :=
  schedule (Iniciar p) URGENT 0 s.

(** *** Appending to the lists of [registros] *)

Definition anota_llegada_v (r : RegLlegada) (g : Registros) : Registros :=
  mkRegistros (llegadas_vehiculos g ++ [r]) (llegadas_peatones g)
    (eventos_semaforo g) (servicios_vehiculos g) (servicios_peatones g)
    (estado_colas g) (decisiones_adaptativas g).

Definition anota_llegada_p (r : RegLlegada) (g : Registros) : Registros :=
  mkRegistros (llegadas_vehiculos g) (llegadas_peatones g ++ [r])
    (eventos_semaforo g) (servicios_vehiculos g) (servicios_peatones g)
    (estado_colas g) (decisiones_adaptativas g).

Definition anota_evento (r : RegEvento) (g : Registros) : Registros :=
  mkRegistros (llegadas_vehiculos g) (llegadas_peatones g)
    (eventos_semaforo g ++ [r]) (servicios_vehiculos g) (servicios_peatones g)
    (estado_colas g) (decisiones_adaptativas g).

Definition anota_servicio_v (r : RegServicio) (g : Registros) : Registros :=
  mkRegistros (llegadas_vehiculos g) (llegadas_peatones g)
    (eventos_semaforo g) (servicios_vehiculos g ++ [r]) (servicios_peatones g)
    (estado_colas g) (decisiones_adaptativas g).

Definition anota_servicio_p (r : RegServicio) (g : Registros) : Registros :=
  mkRegistros (llegadas_vehiculos g) (llegadas_peatones g)
    (eventos_semaforo g) (servicios_vehiculos g) (servicios_peatones g ++ [r])
    (estado_colas g) (decisiones_adaptativas g).

Definition anota_estado (r : RegEstado) (g : Registros) : Registros :=
  mkRegistros (llegadas_vehiculos g) (llegadas_peatones g)
    (eventos_semaforo g) (servicios_vehiculos g) (servicios_peatones g)
    (estado_colas g ++ [r]) (decisiones_adaptativas g).

Definition anota_decision (r : RegDecision) (g : Registros) : Registros :=
  mkRegistros (llegadas_vehiculos g) (llegadas_peatones g)
    (eventos_semaforo g) (servicios_vehiculos g) (servicios_peatones g)
    (estado_colas g) (decisiones_adaptativas g ++ [r]).

Definition anota_servicio (c : Clase) (r : RegServicio) (g : Registros) : Registros :=
  match c with
  | Vehicular => anota_servicio_v r g
  | Peatonal => anota_servicio_p r g
  end.

Definition servicios_de (c : Clase) (g : Registros) : list RegServicio :=
  match c with
  | Vehicular => servicios_vehiculos g
  | Peatonal => servicios_peatones g
  end.

(** [if self.env.now >= self.warmup_time: registros[...].append(...)]: the
    guard of every append. *)
Definition tras_warmup (warmup_time : Q) (s : Sim) (f : Registros -> Registros) : Sim :=
  con_registros (if Qgeb (ahora s) warmup_time then f (registros s) else registros s) s.

Section Procesos.

Context {az : Azar}.
Variable cfg : Config.

(** [random.expovariate(lambd)], i.e. [-log(1.0 - random()) / lambd]; the
    drawn value is passed to the continuation. *)
Definition expovariate (lambd : Q) (k : Q -> Sim -> Res) (s : Sim) : Res :=
  if Qeq_dec lambd 0 then Mal ZeroDivisionError
  else k (menos_log1m (mt_random (semilla cfg) (sorteos s)) / lambd)
         (con_sorteos (S (sorteos s)) s).

(** *** llegadas.py: [GeneradorLlegadas] *)

(** [generar_vehiculos] from the top of its loop to the [yield]. *)
Definition generar_vehiculos_espera (s : Sim) : Res :=
  expovariate (lambda_v cfg) (fun tiempo_entre_llegadas => env_timeout PGenV tiempo_entre_llegadas) s.

(** [generar_vehiculos] resumed after its [yield]. *)
Definition generar_vehiculos (s : Sim) : Res :=
  let s := con_vehiculo_id (S (vehiculo_id s)) s in
  let vehiculo := mkAgente (vehiculo_id s) (ahora s) in
  let s := store_put Vehicular vehiculo s in
  let s := tras_warmup (warmup_time cfg) s
             (anota_llegada_v (mkLlegada (ag_id vehiculo) (ahora s) (length (cola_vehiculos s)))) in
  generar_vehiculos_espera s.

Definition generar_peatones_espera (s : Sim) : Res :=
  expovariate (lambda_p cfg) (fun tiempo_entre_llegadas => env_timeout PGenP tiempo_entre_llegadas) s.

Definition generar_peatones (s : Sim) : Res :=
  let s := con_peaton_id (S (peaton_id s)) s in
  let peaton := mkAgente (peaton_id s) (ahora s) in
  let s := store_put Peatonal peaton s in
  let s := tras_warmup (warmup_time cfg) s
             (anota_llegada_p (mkLlegada (ag_id peaton) (ahora s) (length (cola_peatones s)))) in
  generar_peatones_espera s.

(** The [monitor] process of the drivers: it only prints. *)
Definition monitor (s : Sim) : Res := env_timeout PMonitor 300 s.

(** *** Methods shared by [SemaforoFijo] and [SemaforoAdaptativo] *)

(** [registrar_evento(fase, duracion, info_adicional)]; the method of
    [SemaforoFijo] is the case [SinInfo]. *)
Definition registrar_evento (fase : Fase) (duracion : Q) (info : InfoAdicional) (s : Sim) : Sim :=
  tras_warmup (warmup_time cfg) s
    (anota_evento (mkEvento (ahora s) fase duracion (ciclo_numero s)
                     (length (cola_vehiculos s)) (length (cola_peatones s)) info)).

Definition registrar_estado_cola (s : Sim) : Sim :=
  tras_warmup (warmup_time cfg) s
    (anota_estado (mkEstado (ahora s) (length (cola_vehiculos s))
                     (length (cola_peatones s)) (fase_actual s))).

Definition registrar_decision (tipo : TipoDecision) (motivo : Motivo) (valor : ValorDecision)
                              (s : Sim) : Sim :=
  tras_warmup (warmup_time cfg) s
    (anota_decision (mkDecision (ahora s) (ciclo_numero s) tipo motivo valor
                       (length (cola_vehiculos s)) (length (cola_peatones s)))).

Definition tasa_servicio (c : Clase) : Q :=
  match c with
  | Vehicular => s_v cfg
  | Peatonal => s_p cfg
  end.

(** The process waiting for the service sub-process: the extension logic
    while its generator is alive, the controller otherwise. *)
Definition padre_atender (s : Sim) : Pid :=
  match m_fase s with
  | Some _ => PFaseVerde
  | None => PControlador
  end.

(** [atender_vehiculos] / [atender_peatones] (the four methods have the same
    text up to the queue, the rate and the list of [registros]): from the
    test of the [while] to the next [yield], or to the [return]. *)
Definition atender_bucle (c : Clase) (tiempo_fin : Q) (atendidos : nat) (s : Sim) : Res :=
  if Qlt_le_dec (ahora s) tiempo_fin then
    match cola_de c s with
    | [] =>
        env_timeout PAtender (py_min 1 (tiempo_fin - ahora s))
          (con_atender (Some (At_sondeo c tiempo_fin atendidos)) s)
    | a :: resto =>
        Bien (store_get PAtender c a resto
               (con_atender (Some (At_get c tiempo_fin atendidos)) s))
    end
  else Bien (retornar (padre_atender s) (VNat atendidos) (con_atender None s)).

(** The service generator resumed with value [v] in frame [m]. *)
Definition atender (m : MarcoAtender) (v : Valor) (s : Sim) : Res :=
  match m, v with
  | At_creado c duracion, VNone =>
      let tiempo_inicio := ahora s in
      let tiempo_fin := tiempo_inicio + duracion in
      atender_bucle c tiempo_fin 0 s
  | At_sondeo c tiempo_fin atendidos, VNone =>
      atender_bucle c tiempo_fin atendidos s
  | At_get c tiempo_fin atendidos, VAgente agente =>
      let tiempo_espera := ahora s - tiempo_llegada agente in
      expovariate (tasa_servicio c) (fun tiempo_servicio s =>
        let tiempo_restante := tiempo_fin - ahora s in
        if Qlt_le_dec tiempo_restante tiempo_servicio then
          env_timeout PAtender tiempo_restante
            (con_atender (Some (At_devuelto c tiempo_fin atendidos))
               (store_put c agente s))
        else
          env_timeout PAtender tiempo_servicio
            (con_atender (Some (At_servicio c tiempo_fin atendidos agente
                                  tiempo_espera tiempo_servicio)) s)) s
  | At_devuelto c tiempo_fin atendidos, VNone =>
      Bien (retornar (padre_atender s) (VNat atendidos) (con_atender None s))
  | At_servicio c tiempo_fin atendidos agente tiempo_espera tiempo_servicio, VNone =>
      let atendidos := S atendidos in
      let s := tras_warmup (warmup_time cfg) s
                 (anota_servicio c
                    (mkServicio (ag_id agente) (tiempo_llegada agente)
                       (ahora s - tiempo_servicio) (ahora s)
                       tiempo_espera tiempo_servicio (ciclo_numero s))) in
      atender_bucle c tiempo_fin atendidos s
  | _, _ => Mal RuntimeError
  end.

(** [yield self.env.process(self.atender_...(duracion))]. *)
Definition lanzar_atender (c : Clase) (duracion : Q) (s : Sim) : Sim :=
  env_process PAtender (con_atender (Some (At_creado c duracion)) s).

End Procesos.

(** ** semaforo_fijo.py: [SemaforoFijo] *)
Module SemaforoFijo.
Section Metodos.

Context {az : Azar}.
Variable cfg : Config.

Definition atender_vehiculos (duracion : Q) : Sim -> Sim := lanzar_atender Vehicular duracion.
Definition atender_peatones (duracion : Q) : Sim -> Sim := lanzar_atender Peatonal duracion.

(** [controlador] from the top of [while True] to its first [yield]. *)
Definition controlador_ciclo (s : Sim) : Res :=
  let s := con_ciclo_numero (S (ciclo_numero s)) s in
  let s := con_fase_actual VERDE_VEHICULAR s in
  let s := registrar_evento cfg VERDE_VEHICULAR (g_v_fijo cfg) SinInfo s in
  let s := registrar_estado_cola cfg s in
  Bien (atender_vehiculos (g_v_fijo cfg) (con_controlador (C_fijo Cf_verde_v) s)).

(** [controlador] resumed with value [v] in frame [m]. *)
Definition controlador (m : MarcoControlador) (v : Valor) (s : Sim) : Res :=
  match m, v with
  | C_creado, VNone => controlador_ciclo s
  | C_fijo Cf_verde_v, VNat _ =>
      let s := con_fase_actual AMARILLO_VEHICULAR s in
      let s := registrar_evento cfg AMARILLO_VEHICULAR (amarillo cfg) SinInfo s in
      env_timeout PControlador (amarillo cfg) (con_controlador (C_fijo Cf_amarillo_v) s)
  | C_fijo Cf_amarillo_v, VNone =>
      let s := con_fase_actual VERDE_PEATONAL s in
      let s := registrar_evento cfg VERDE_PEATONAL (g_p_fijo cfg) SinInfo s in
      let s := registrar_estado_cola cfg s in
      Bien (atender_peatones (g_p_fijo cfg) (con_controlador (C_fijo Cf_verde_p) s))
  | C_fijo Cf_verde_p, VNat _ =>
      let s := con_fase_actual AMARILLO_PEATONAL s in
      let s := registrar_evento cfg AMARILLO_PEATONAL (amarillo cfg) SinInfo s in
      env_timeout PControlador (amarillo cfg) (con_controlador (C_fijo Cf_amarillo_p) s)
  | C_fijo Cf_amarillo_p, VNone =>
      let s := registrar_estado_cola cfg s in
      controlador_ciclo s
  | _, _ => Mal RuntimeError
  end.

End Metodos.
End SemaforoFijo.

(** ** semaforo_adaptativo.py: [SemaforoAdaptativo] *)
Module SemaforoAdaptativo.
Section Metodos.

Context {az : Azar}.
Variable cfg : Config.

Definition atender_vehiculos (duracion : Q) : Sim -> Sim := lanzar_atender Vehicular duracion.
Definition atender_peatones (duracion : Q) : Sim -> Sim := lanzar_atender Peatonal duracion.

Definition obtener_espera_maxima_peatonal (s : Sim) : Q :=
  match cola_peatones s with
  | [] => 0
  | p :: resto =>
      py_max (ahora s - tiempo_llegada p)
             (map (fun p => ahora s - tiempo_llegada p) resto)
  end.

(** [return tiempo_verde_total]. *)
Definition fase_retorna (tiempo_verde_total : Q) (s : Sim) : Res :=
  Bien (retornar PControlador (VQ tiempo_verde_total) (con_fase None s)).

(** [fase_verde_vehicular_adaptativa] from the test of its [while] to the
    next [yield], or to the [return]. *)
Definition fase_bucle (tiempo_verde_total : Q) (extensiones : nat) (s : Sim) : Res :=
  if Qlt_le_dec tiempo_verde_total (g_max cfg) then
    let cola_actual_v := length (cola_vehiculos s) in
    let espera_max_p := obtener_espera_maxima_peatonal s in
    if Qlt_le_dec (w_max cfg) espera_max_p then
      fase_retorna tiempo_verde_total
        (registrar_decision cfg FIN_EXTENSION PRIORIDAD_PEATONAL
           (ValEspera espera_max_p (w_max cfg)) s)
    else if (Z.of_nat cola_actual_v <? t_v cfg)%Z then
      fase_retorna tiempo_verde_total
        (registrar_decision cfg FIN_EXTENSION COLA_VEHICULAR_BAJA
           (ValCola cola_actual_v (t_v cfg)) s)
    else if Qlt_le_dec (g_max cfg) (tiempo_verde_total + b_extension cfg) then
      fase_retorna tiempo_verde_total
        (registrar_decision cfg FIN_EXTENSION MAXIMO_ALCANZADO
           (ValMaximo tiempo_verde_total (g_max cfg)) s)
    else
      let extensiones := S extensiones in
      let tiempo_verde_total := tiempo_verde_total + b_extension cfg in
      let s := registrar_decision cfg EXTENSION ALTA_DEMANDA_VEHICULAR
                 (ValExtension extensiones tiempo_verde_total cola_actual_v) s in
      let s := registrar_evento cfg VERDE_VEHICULAR_EXTENSION (b_extension cfg)
                 (InfoExtension extensiones tiempo_verde_total) s in
      Bien (atender_vehiculos (b_extension cfg)
              (con_fase (Some (Fv_extension tiempo_verde_total extensiones)) s))
  else fase_retorna tiempo_verde_total s.

(** [fase_verde_vehicular_adaptativa] resumed with value [v] in frame [m]. *)
Definition fase_verde_vehicular_adaptativa (m : MarcoFase) (v : Valor) (s : Sim) : Res :=
  match m, v with
  | Fv_creado, VNone =>
      let tiempo_verde_total := g_min cfg in
      let s := registrar_evento cfg VERDE_VEHICULAR_INICIAL (g_min cfg)
                 (InfoExtension 0 (g_min cfg)) s in
      Bien (atender_vehiculos (g_min cfg)
              (con_fase (Some (Fv_inicial tiempo_verde_total)) s))
  | Fv_inicial tiempo_verde_total, VNat _ =>
      let extensiones := 0%nat in
      fase_bucle tiempo_verde_total extensiones s
  | Fv_extension tiempo_verde_total extensiones, VNat _ =>
      fase_bucle tiempo_verde_total extensiones s
  | _, _ => Mal RuntimeError
  end.

Definition debe_activar_fase_peatonal (s : Sim) : bool * Motivo :=
  let cola_p := length (cola_peatones s) in
  let espera_max_p := obtener_espera_maxima_peatonal s in
  if (t_p cfg <=? Z.of_nat cola_p)%Z then (true, COLA_PEATONAL_ALTA)
  else if Qlt_le_dec (w_max cfg) espera_max_p then (true, ESPERA_EXCESIVA)
  else if (0 <? cola_p)%nat then (true, HAY_PEATONES)
  else (false, SIN_PEATONES).

(** [controlador] from the top of [while True] to its first [yield]. *)
Definition controlador_ciclo (s : Sim) : Res :=
  let s := con_ciclo_numero (S (ciclo_numero s)) s in
  let s := con_fase_actual VERDE_VEHICULAR s in
  let s := registrar_estado_cola cfg s in
  Bien (env_process PFaseVerde
          (con_fase (Some Fv_creado) (con_controlador (C_adaptativo Ca_verde_v) s))).

(** [controlador] resumed with value [v] in frame [m]. *)
Definition controlador (m : MarcoControlador) (v : Valor) (s : Sim) : Res :=
  match m, v with
  | C_creado, VNone => controlador_ciclo s
  | C_adaptativo Ca_verde_v, VQ tiempo_verde_vehicular =>
      let s := con_fase_actual AMARILLO_VEHICULAR s in
      let s := registrar_evento cfg AMARILLO_VEHICULAR (amarillo cfg) SinInfo s in
      env_timeout PControlador (amarillo cfg)
        (con_controlador (C_adaptativo (Ca_amarillo_v tiempo_verde_vehicular)) s)
  | C_adaptativo (Ca_amarillo_v tiempo_verde_vehicular), VNone =>
      let (activar_peatonal, motivo) := debe_activar_fase_peatonal s in
      if activar_peatonal then
        let s := con_fase_actual VERDE_PEATONAL s in
        let s := registrar_evento cfg VERDE_PEATONAL (g_p_fijo cfg) (InfoMotivo motivo) s in
        let s := registrar_estado_cola cfg s in
        Bien (atender_peatones (g_p_fijo cfg)
                (con_controlador (C_adaptativo (Ca_verde_p tiempo_verde_vehicular motivo)) s))
      else
        let s := registrar_decision cfg SALTAR_FASE_PEATONAL motivo
                   (ValColaP (length (cola_peatones s))) s in
        let s := registrar_estado_cola cfg s in
        controlador_ciclo s
  | C_adaptativo (Ca_verde_p tiempo_verde_vehicular motivo), VNat _ =>
      let s := con_fase_actual AMARILLO_PEATONAL s in
      let s := registrar_evento cfg AMARILLO_PEATONAL (amarillo cfg) SinInfo s in
      env_timeout PControlador (amarillo cfg)
        (con_controlador (C_adaptativo (Ca_amarillo_p tiempo_verde_vehicular motivo)) s)
  | C_adaptativo (Ca_amarillo_p _ _), VNone =>
      let s := registrar_estado_cola cfg s in
      controlador_ciclo s
  | _, _ => Mal RuntimeError
  end.

End Metodos.
End SemaforoAdaptativo.

(** ** The run: [Environment.step], [Environment.run] and the drivers *)

Section Corrida.

Context {az : Azar}.
Variable cfg : Config.

(** An [Initialize] event is processed: the generator of [p] starts. *)
Definition iniciar_proceso (p : Pid) (s : Sim) : Res :=
  match p with
  | PGenV => generar_vehiculos_espera cfg s
  | PGenP => generar_peatones_espera cfg s
  | PMonitor => monitor s
  | PControlador =>
      match control cfg with
      | Fijo => SemaforoFijo.controlador cfg (m_controlador s) VNone s
      | Adaptativo => SemaforoAdaptativo.controlador cfg (m_controlador s) VNone s
      end
  | PFaseVerde =>
      match m_fase s with
      | Some m => SemaforoAdaptativo.fase_verde_vehicular_adaptativa cfg m VNone s
      | None => Mal RuntimeError
      end
  | PAtender =>
      match m_atender s with
      | Some m => atender cfg m VNone s
      | None => Mal RuntimeError
      end
  end.

(** [Process._resume]: the generator of [p] receives [v] and runs to its
    next [yield] or to its end. *)
Definition reanudar_proceso (p : Pid) (v : Valor) (s : Sim) : Res :=
  match p with
  | PGenV => generar_vehiculos cfg s
  | PGenP => generar_peatones cfg s
  | PMonitor => monitor s
  | PControlador =>
      match control cfg with
      | Fijo => SemaforoFijo.controlador cfg (m_controlador s) v s
      | Adaptativo => SemaforoAdaptativo.controlador cfg (m_controlador s) v s
      end
  | PFaseVerde =>
      match m_fase s with
      | Some m => SemaforoAdaptativo.fase_verde_vehicular_adaptativa cfg m v s
      | None => Mal RuntimeError
      end
  | PAtender =>
      match m_atender s with
      | Some m => atender cfg m v s
      | None => Mal RuntimeError
      end
  end.

Inductive Paso : Type :=
| Sigue (s : Sim)
| Parada (s : Sim)          (* StopSimulation *)
| Lanza (e : Excepcion).    (* an exception leaves [env.run] *)

(** [Environment.step]: the least entry leaves the heap, the clock moves to
    its time and its callbacks run. An exception raised in a generator fails
    its process; no generator of the simulation catches anything, so SimPy
    passes it through the processes that wait on it and re-raises it from
    [env.run] once the failed process events have been processed, at the
    same clock time. The drivers then return nothing, and the model ends the
    run at the raise. *)
Definition step (s : Sim) : Paso :=
  match heappop (agenda s) with
  | None => Lanza RuntimeError
  | Some (e, resto) =>
      let s := con_agenda resto (con_ahora (e_t e) s) in
      match e_acc e with
      | Detener => Parada s
      | Nada => Sigue s
      | Iniciar p =>
          match iniciar_proceso p s with
          | Bien s' => Sigue s'
          | Mal x => Lanza x
          end
      | Reanudar p v =>
          match reanudar_proceso p v s with
          | Bien s' => Sigue s'
          | Mal x => Lanza x
          end
      end
  end.

(** The drivers up to [env.run]: a fresh environment, [random.seed], the two
    stores, [GeneradorLlegadas(...)] and [iniciar()], the controller and its
    [iniciar()], and the monitor when [verbose]. *)
Definition estado_inicial : Sim :=
  let s := mkSim 0 0 [] 0 [] [] 0 0 VERDE_VEHICULAR 0 registros_vacios C_creado None None in
  let s := env_process PGenV s in
  let s := env_process PGenP s in
  let s := env_process PControlador s in
  if verbose cfg then env_process PMonitor s else s.

(** The first part of [env.run(until=tiempo_sim)]. *)
Definition env_run_inicio (until : Q) (s : Sim) : Res :=
  if Qlt_le_dec (ahora s) until
  then Bien (schedule Detener URGENT (until - ahora s) s)
  else Mal ValueError.

(** How a run ends, for a bound [n] on the number of events processed. *)
Inductive Final : Type :=
| Completa (s : Sim)
| Falla (e : Excepcion)
| Pendiente (s : Sim).

Fixpoint env_run_bucle (n : nat) (s : Sim) : Final :=
  match n with
  | O => Pendiente s
  | S n =>
      match step s with
      | Sigue s' => env_run_bucle n s'
      | Parada s' => Completa s'
      | Lanza e => Falla e
      end
  end.

(** [simular_semaforo_fijo] / [simular_semaforo_adaptativo], by [control cfg]. *)
Definition simular (n : nat) : Final :=
  match env_run_inicio (tiempo_sim cfg) estado_inicial with
  | Bien s => env_run_bucle n s
  | Mal e => Falla e
  end.

(** [k] events processed without stop or exception. *)
Fixpoint pasos (k : nat) (s : Sim) : option Sim :=
  match k with
  | O => Some s
  | S k =>
      match step s with
      | Sigue s' => pasos k s'
      | _ => None
      end
  end.

End Corrida.

(** *** The constructors *)

(** The three [__init__] methods assign their arguments to attributes and
    set the counters and the first phase; the run above reads the constant
    attributes from [Config] and keeps the others in [Sim]. A constructor
    that raises would return [inl]. *)

Module GeneradorLlegadas.

(** The attributes of a [GeneradorLlegadas]; the environment, the stores and
    [registros] are those of [Sim]. *)
Record t : Type := mk {
  lambda_v : Q;
  lambda_p : Q;
  warmup_time : Q;
  vehiculo_id : nat;
  peaton_id : nat
}.

(** [GeneradorLlegadas.__init__]. *)
Definition init (lambda_v lambda_p warmup_time : Q) : Excepcion + t :=
  inr (mk lambda_v lambda_p warmup_time 0 0).

End GeneradorLlegadas.

Module ObjetoFijo.

(** The attributes of a [SemaforoFijo]. *)
Record t : Type := mk {
  g_v_fijo : Q;
  g_p_fijo : Q;
  s_v : Q;
  s_p : Q;
  amarillo : Q;
  warmup_time : Q;
  fase_actual : Fase;
  ciclo_numero : nat
}.

(** [SemaforoFijo.__init__]. *)
Definition init (g_v_fijo g_p_fijo s_v s_p amarillo warmup_time : Q) : Excepcion + t :=
  inr (mk g_v_fijo g_p_fijo s_v s_p amarillo warmup_time VERDE_VEHICULAR 0).

End ObjetoFijo.

Module ObjetoAdaptativo.

(** The attributes of a [SemaforoAdaptativo]. *)
Record t : Type := mk {
  g_min : Q;
  g_max : Q;
  g_p_fijo : Q;
  s_v : Q;
  s_p : Q;
  t_v : Z;
  t_p : Z;
  b_extension : Q;
  w_max : Q;
  amarillo : Q;
  warmup_time : Q;
  fase_actual : Fase;
  ciclo_numero : nat
}.

(** [SemaforoAdaptativo.__init__]. *)
Definition init (g_min g_max g_p_fijo s_v s_p : Q) (t_v t_p : Z)
                (b_extension w_max amarillo warmup_time : Q) : Excepcion + t :=
  inr (mk g_min g_max g_p_fijo s_v s_p t_v t_p b_extension w_max amarillo warmup_time
          VERDE_VEHICULAR 0).

End ObjetoAdaptativo.

Inductive Semaforo : Type :=
| SFijo (o : ObjetoFijo.t)
| SAdaptativo (o : ObjetoAdaptativo.t).

(** The drivers up to the construction of the two objects. *)
Definition construir (cfg : Config) : Excepcion + (GeneradorLlegadas.t * Semaforo) :=
  match GeneradorLlegadas.init (lambda_v cfg) (lambda_p cfg) (warmup_time cfg) with
  | inl e => inl e
  | inr generador =>
      match control cfg with
      | Fijo =>
          match ObjetoFijo.init (g_v_fijo cfg) (g_p_fijo cfg) (s_v cfg) (s_p cfg)
                  (amarillo cfg) (warmup_time cfg) with
          | inl e => inl e
          | inr semaforo => inr (generador, SFijo semaforo)
          end
      | Adaptativo =>
          match ObjetoAdaptativo.init (g_min cfg) (g_max cfg) (g_p_fijo cfg) (s_v cfg)
                  (s_p cfg) (t_v cfg) (t_p cfg) (b_extension cfg) (w_max cfg)
                  (amarillo cfg) (warmup_time cfg) with
          | inl e => inl e
          | inr semaforo => inr (generador, SAdaptativo semaforo)
          end
      end
  end.

(** *** Concrete runs *)

(** An example generator: [-log(1 - u)] read as [u] and a fixed list of draws
    repeated for ever. *)
Definition azar_de (l : list Q) : Azar :=
  mkAzar (fun _ k => nth (k mod length l) l 1) (fun u => u).

(** The draws [-log(1 - u)] are 1, 2, 1, 2, ... *)
Definition azar_ejemplo : Azar := azar_de [1; 2].

(** The state of the run of [cfg] after [k] events. *)
Definition estado_tras {az : Azar} (cfg : Config) (k : nat) : Sim :=
  match env_run_inicio (tiempo_sim cfg) (estado_inicial cfg) with
  | Bien s => match pasos cfg k s with Some s' => s' | None => s end
  | Mal _ => estado_inicial cfg
  end.

(** A fixed controller with a green of 10 s, an arrival every 3 or 6 s and
    services of 2 or 4 s; no pedestrian arrives before the horizon. *)
Definition cfg_reencola : Config :=
  mkConfig Fijo 60 (1#3) (1#100) 10 20 60 5 (1#2) 1 5 3 5 90 1 0 42 false.

(** Scenario B: [g_min = 20], [g_max = 60], [b = 5], [t_v = 5], with an
    arrival every 1 or 2 s and services of 8 or 16 s. *)
Definition cfg_escenario_b : Config :=
  mkConfig Adaptativo 200 1 (1#100) 30 20 60 15 (1#8) 1 5 3 5 90 3 0 42 false.

(** An adaptive controller whose first pedestrian arrives after its first
    pedestrian-phase decision, with [t_p = 3] and with [t_p = 0]. *)
Definition cfg_sin_peatones : Config :=
  mkConfig Adaptativo 200 (1#2) (1#100) 30 20 60 15 (1#2) 1 5 3 5 90 3 0 42 false.

Definition cfg_umbral_cero : Config :=
  mkConfig Adaptativo 200 (1#2) (1#100) 30 20 60 15 (1#2) 1 5 0 5 90 3 0 42 false.


(** ** Reachable states, the controller thread and its environment *)

(** The states a run goes through: those of [env.run] before each [step]. *)
Inductive alcanzable {az : Azar} (cfg : Config) : Sim -> Prop :=
| alc_inicio : forall s,
    env_run_inicio (tiempo_sim cfg) (estado_inicial cfg) = Bien s ->
    alcanzable cfg s
| alc_paso : forall s s',
    alcanzable cfg s -> step cfg s = Sigue s' -> alcanzable cfg s'.

(** The events of the controller and of its sub-processes: at any time the
    controller waits on a timeout or on a sub-process, so these three
    generators form one thread of control. *)
Definition es_hilo (e : Evento) : bool :=
  match e_acc e with
  | Iniciar PControlador | Iniciar PFaseVerde | Iniciar PAtender
  | Reanudar PControlador _ | Reanudar PFaseVerde _ | Reanudar PAtender _ => true
  | _ => false
  end.

(** No pending event lies in the past. *)
Definition agenda_futura (s : Sim) : Prop :=
  forall x, In x (agenda s) -> ahora s <= e_t x.

(** What a step of another process (an arrival generator, the monitor, a
    put event) may change: the clock advances, agents stamped with the
    current time join the tails of the queues, arrivals are logged. *)
Record entorno (s s' : Sim) : Prop := mkEntorno {
  ent_controlador : m_controlador s' = m_controlador s;
  ent_fase : m_fase s' = m_fase s;
  ent_atender : m_atender s' = m_atender s;
  ent_fase_actual : fase_actual s' = fase_actual s;
  ent_ciclo : ciclo_numero s' = ciclo_numero s;
  ent_hilo : filter es_hilo (agenda s') = filter es_hilo (agenda s);
  ent_ahora : ahora s <= ahora s';
  ent_cola_v : exists n, cola_vehiculos s' = cola_vehiculos s ++ n /\
                         Forall (fun a => tiempo_llegada a = ahora s') n;
  ent_cola_p : exists n, cola_peatones s' = cola_peatones s ++ n /\
                         Forall (fun a => tiempo_llegada a = ahora s') n;
  ent_eventos : eventos_semaforo (registros s') = eventos_semaforo (registros s);
  ent_serv_v : servicios_vehiculos (registros s') = servicios_vehiculos (registros s);
  ent_serv_p : servicios_peatones (registros s') = servicios_peatones (registros s);
  ent_estado : estado_colas (registros s') = estado_colas (registros s);
  ent_decisiones : decisiones_adaptativas (registros s') = decisiones_adaptativas (registros s)
}.

Section Hilo.

Context {az : Azar}.
Variable cfg : Config.

(** The callback of an event of the thread. *)
Definition reanuda_hilo (e : Evento) (s : Sim) : Res :=
  match e_acc e with
  | Iniciar p => iniciar_proceso cfg p s
  | Reanudar p v => reanudar_proceso cfg p v s
  | _ => Mal RuntimeError
  end.

(** A step that processes the pending event of the thread. *)
Definition paso_hilo (s s' : Sim) : Prop :=
  exists e r, heappop (agenda s) = Some (e, r) /\
              filter es_hilo (agenda s) = [e] /\
              es_hilo e = true /\
              filter es_hilo r = [] /\
              ahora s <= e_t e /\
              (forall x, In x r -> e_t e <= e_t x) /\
              reanuda_hilo e (con_agenda r (con_ahora (e_t e) s)) = Bien s'.

End Hilo.

(** *** The shape of the thread *)

Definition clase_de (m : MarcoAtender) : Clase :=
  match m with
  | At_creado c _ | At_sondeo c _ _ | At_get c _ _ | At_devuelto c _ _
  | At_servicio c _ _ _ _ _ => c
  end.

(** [tiempo_fin] of a service generator whose body has started. *)
Definition fin_de (m : MarcoAtender) : option Q :=
  match m with
  | At_creado _ _ => None
  | At_sondeo _ tiempo_fin _ | At_get _ tiempo_fin _ | At_devuelto _ tiempo_fin _
  | At_servicio _ tiempo_fin _ _ _ _ => Some tiempo_fin
  end.

(** The pending event of the thread while the service generator is alive. *)
Definition forma_atender (m : MarcoAtender) (now : Q) (x : Evento) : Prop :=
  match m with
  | At_creado _ _ => e_acc x = Iniciar PAtender /\ e_t x == now
  | At_sondeo _ tiempo_fin _ => e_acc x = Reanudar PAtender VNone /\ e_t x <= tiempo_fin
  | At_get _ tiempo_fin _ =>
      (exists a, e_acc x = Reanudar PAtender (VAgente a)) /\ e_t x <= tiempo_fin
  | At_devuelto _ tiempo_fin _ => e_acc x = Reanudar PAtender VNone /\ e_t x == tiempo_fin
  | At_servicio _ tiempo_fin _ _ _ _ =>
      e_acc x = Reanudar PAtender VNone /\ e_t x <= tiempo_fin
  end.

(** Who runs the service generator, and on which queue. *)
Definition lugar_atender (s : Sim) (c : Clase) : Prop :=
  match m_fase s, m_controlador s with
  | Some (Fv_inicial _), C_adaptativo Ca_verde_v
  | Some (Fv_extension _ _), C_adaptativo Ca_verde_v
  | None, C_fijo Cf_verde_v => c = Vehicular
  | None, C_fijo Cf_verde_p
  | None, C_adaptativo (Ca_verde_p _ _) => c = Peatonal
  | _, _ => False
  end.

Definition forma_fase (m : MarcoFase) (x : Evento) : Prop :=
  match m with
  | Fv_creado => e_acc x = Iniciar PFaseVerde
  | _ => exists n, e_acc x = Reanudar PFaseVerde (VNat n)
  end.

Definition forma_controlador (m : MarcoControlador) (x : Evento) : Prop :=
  match m with
  | C_creado => e_acc x = Iniciar PControlador
  | C_fijo Cf_verde_v | C_fijo Cf_verde_p | C_adaptativo (Ca_verde_p _ _) =>
      exists n, e_acc x = Reanudar PControlador (VNat n)
  | C_adaptativo Ca_verde_v => exists q, e_acc x = Reanudar PControlador (VQ q)
  | _ => e_acc x = Reanudar PControlador VNone
  end.

Definition modo_ok (cfg : Config) (m : MarcoControlador) : Prop :=
  match m with
  | C_creado => True
  | C_fijo _ => control cfg = Fijo
  | C_adaptativo _ => control cfg = Adaptativo
  end.

Definition forma_hilo (s : Sim) (x : Evento) : Prop :=
  match m_atender s with
  | Some m => forma_atender m (ahora s) x /\ lugar_atender s (clase_de m)
  | None =>
      match m_fase s with
      | Some m => forma_fase m x /\ m_controlador s = C_adaptativo Ca_verde_v
      | None => forma_controlador (m_controlador s) x
      end
  end.

(** The invariant of the thread: one pending event, of the innermost live
    generator, never in the past and never beyond the end of the service. *)
Definition inv_hilo (cfg : Config) (s : Sim) : Prop :=
  agenda_futura s /\ modo_ok cfg (m_controlador s) /\
  exists x, filter es_hilo (agenda s) = [x] /\ forma_hilo s x.

(** *** One call of the service generator *)

Section Servicio.

Context {az : Azar}.
Variable cfg : Config.

(** [k] steps of the run, each taken while the service generator is alive:
    from its creation, the states the run goes through until the generator
    has returned. *)
Fixpoint servicio_en_curso (k : nat) (s : Sim) : option Sim :=
  match k with
  | O => Some s
  | S k =>
      match m_atender s with
      | None => None
      | Some _ =>
          match step cfg s with
          | Sigue s' => servicio_en_curso k s'
          | _ => None
          end
      end
  end.

End Servicio.

(** The service generator called at [t0] for [d] seconds: the end time it
    holds, and the clock once it has returned. *)
Definition reloj_servicio (t0 d : Q) (s : Sim) : Prop :=
  match m_atender s with
  | Some (At_creado _ d') => d' = d /\ ahora s == t0
  | Some m => match fin_de m with Some tf => tf == t0 + d | None => False end
  | None => ahora s == t0 + d
  end.

(** *** The schedule of the fixed controller *)

(** The length of a cycle of the fixed controller and the start of cycle [c]. *)
Definition duracion_ciclo (cfg : Config) : Q :=
  g_v_fijo cfg + amarillo cfg + g_p_fijo cfg + amarillo cfg.

Definition inicio_ciclo (cfg : Config) (c : nat) : Q :=
  (inject_Z (Z.of_nat c) - 1) * duracion_ciclo cfg.

(** Offset of the start of a phase within its cycle. *)
Definition desfase (cfg : Config) (f : Fase) : Q :=
  match f with
  | AMARILLO_VEHICULAR => g_v_fijo cfg
  | VERDE_PEATONAL => g_v_fijo cfg + amarillo cfg
  | AMARILLO_PEATONAL => g_v_fijo cfg + amarillo cfg + g_p_fijo cfg
  | _ => 0
  end.

(** Where the pending event of the thread stands in each frame of the fixed
    controller, and when each logged phase began. *)
Definition horario_fijo (cfg : Config) (s : Sim) : Prop :=
  (forall x, filter es_hilo (agenda s) = [x] ->
     let ini := inicio_ciclo cfg (ciclo_numero s) in
     match m_controlador s with
     | C_creado => ciclo_numero s = 0%nat /\ e_t x == 0
     | C_fijo Cf_verde_v =>
         match m_atender s with
         | Some (At_creado _ d) => d = g_v_fijo cfg /\ e_t x == ini
         | Some m => match fin_de m with
                     | Some tf => tf == ini + g_v_fijo cfg
                     | None => False
                     end
         | None => e_t x == ini + g_v_fijo cfg
         end
     | C_fijo Cf_amarillo_v => e_t x == ini + g_v_fijo cfg + amarillo cfg
     | C_fijo Cf_verde_p =>
         match m_atender s with
         | Some (At_creado _ d) =>
             d = g_p_fijo cfg /\ e_t x == ini + g_v_fijo cfg + amarillo cfg
         | Some m => match fin_de m with
                     | Some tf => tf == ini + g_v_fijo cfg + amarillo cfg + g_p_fijo cfg
                     | None => False
                     end
         | None => e_t x == ini + g_v_fijo cfg + amarillo cfg + g_p_fijo cfg
         end
     | C_fijo Cf_amarillo_p => e_t x == ini + duracion_ciclo cfg
     | C_adaptativo _ => True
     end) /\
  (forall r, In r (eventos_semaforo (registros s)) ->
     ev_tiempo r == inicio_ciclo cfg (ev_ciclo r) + desfase cfg (ev_fase r)).

(** *** The cumulative green of the adaptive controller *)

Definition en_rango (cfg : Config) (t : Q) : Prop :=
  g_min cfg <= t /\ t <= g_max cfg.

(** [tiempo_verde_total] after [n] extensions. *)
Definition verde_tras (cfg : Config) (n : nat) : Q :=
  g_min cfg + inject_Z (Z.of_nat n) * b_extension cfg.

(** The cumulative green of the adaptive vehicle phase, wherever it lives:
    in the frame of [fase_verde_vehicular_adaptativa], in the event that
    carries its return value, in the controller that received it. *)
Definition verde_acotado (cfg : Config) (s : Sim) : Prop :=
  match m_fase s with
  | Some (Fv_inicial tv) => tv == g_min cfg
  | Some (Fv_extension tv n) => tv == verde_tras cfg n /\ tv <= g_max cfg
  | _ => True
  end /\
  (forall x tv, filter es_hilo (agenda s) = [x] ->
     e_acc x = Reanudar PControlador (VQ tv) -> en_rango cfg tv) /\
  match m_controlador s with
  | C_adaptativo (Ca_amarillo_v tv)
  | C_adaptativo (Ca_verde_p tv _)
  | C_adaptativo (Ca_amarillo_p tv _) => en_rango cfg tv
  | _ => True
  end.

(** No logged decision has the motive MAXIMO_ALCANZADO. *)
Definition sin_maximo (s : Sim) : Prop :=
  forall r, In r (decisiones_adaptativas (registros s)) -> de_motivo r <> MAXIMO_ALCANZADO.

(** *** The pedestrian override and the pedestrian-phase decision *)

(** The decisions of kind EXTENSION logged for cycle [c]. *)
Definition extensiones_de (c : nat) (l : list RegDecision) : list RegDecision :=
  filter (fun r => Tipo_eqb (de_tipo r) EXTENSION && (de_ciclo r =? c)%nat) l.

(** Some queued pedestrian has waited for more than [w_max]. *)
Definition espera_excedida (cfg : Config) (s : Sim) : Prop :=
  exists p, In p (cola_peatones s) /\ w_max cfg < ahora s - tiempo_llegada p.

(** The green phase of cycle [c] extends no more: its frame [mf] stays as it
    is until the generator returns, and no EXTENSION is logged for [c]. *)
Definition sin_mas_extension (cfg : Config) (c : nat) (mf : option MarcoFase)
                             (ext : list RegDecision) (s : Sim) : Prop :=
  extensiones_de c (decisiones_adaptativas (registros s)) = ext /\
  (c <= ciclo_numero s)%nat /\
  (ciclo_numero s = c ->
     (m_fase s = mf /\ espera_excedida cfg s) \/ m_fase s = None).

(** The phase log and the cycle counter: no entry is ahead of the counter,
    and a pedestrian phase of the current cycle is logged only once the
    controller is in it. *)
Definition es_fase_peatonal (f : Fase) : Prop :=
  f = VERDE_PEATONAL \/ f = AMARILLO_PEATONAL.

Definition en_fase_peatonal (m : MarcoControlador) : Prop :=
  match m with
  | C_fijo Cf_verde_p | C_fijo Cf_amarillo_p
  | C_adaptativo (Ca_verde_p _ _) | C_adaptativo (Ca_amarillo_p _ _) => True
  | _ => False
  end.

Definition bitacora_fases (s : Sim) : Prop :=
  forall r, In r (eventos_semaforo (registros s)) ->
    (ev_ciclo r <= ciclo_numero s)%nat /\
    (ev_ciclo r = ciclo_numero s -> es_fase_peatonal (ev_fase r) ->
     en_fase_peatonal (m_controlador s)).

(** The controller is about to take its pedestrian-phase decision: it waits
    in the vehicle amber and its timeout is the next event. *)
Definition en_decision_peatonal (s : Sim) : Prop :=
  (exists tv, m_controlador s = C_adaptativo (Ca_amarillo_v tv)) /\
  exists e r, heappop (agenda s) = Some (e, r) /\
              e_acc e = Reanudar PControlador VNone.

Definition sin_fase_peatonal (c : nat) (s : Sim) : Prop :=
  (c < ciclo_numero s)%nat /\
  forall r, In r (eventos_semaforo (registros s)) ->
    ev_ciclo r = c -> ~ es_fase_peatonal (ev_fase r).

(** *** First come, first served *)

(** A list of times in non-decreasing order. *)
Fixpoint creciente (l : list Q) : Prop :=
  match l with
  | [] => True
  | x :: r => (forall y, In y r -> x <= y) /\ creciente r
  end.

(** The arrival time of the agent handed over by a get event. *)
Definition llegada_en (x : Evento) : list Q :=
  match e_acc x with
  | Reanudar _ (VAgente a) => [tiempo_llegada a]
  | _ => []
  end.

(** The arrival time of the agent being served, if any. *)
Definition en_curso (s : Sim) (x : Evento) : list Q :=
  match m_atender s with
  | Some (At_get _ _ _) => llegada_en x
  | Some (At_servicio _ _ _ a _ _) => [tiempo_llegada a]
  | _ => []
  end.

(** During one call of the service generator on queue [c], started with
    [base] already logged: the entries logged since are in order of service
    start, and the arrival times of the agents served, being served and
    queued are in order and not in the future. *)
Definition fcfs_en_curso (c : Clase) (base : list RegServicio) (s : Sim) : Prop :=
  exists nuevos,
    servicios_de c (registros s) = base ++ nuevos /\
    creciente (map sv_tiempo_inicio_servicio nuevos) /\
    (forall m, m_atender s = Some m -> clase_de m = c) /\
    forall x, filter es_hilo (agenda s) = [x] ->
      match m_atender s with
      | Some (At_servicio _ _ _ _ _ ts) =>
          0 <= ts /\
          forall r, In r nuevos -> sv_tiempo_inicio_servicio r <= e_t x - ts
      | _ => forall r, In r nuevos -> sv_tiempo_inicio_servicio r <= ahora s
      end /\
      match m_atender s with
      | Some (At_devuelto _ _ _) | None => creciente (map sv_tiempo_llegada nuevos)
      | _ =>
          let linea := map sv_tiempo_llegada nuevos ++ en_curso s x ++
                       map tiempo_llegada (cola_de c s) in
          creciente linea /\ forall t, In t linea -> t <= ahora s
      end.

(** Queued agents, and the agent the service generator holds, have arrived. *)
Definition llegadas_pasadas (s : Sim) : Prop :=
  (forall a, In a (cola_vehiculos s) -> tiempo_llegada a <= ahora s) /\
  (forall a, In a (cola_peatones s) -> tiempo_llegada a <= ahora s) /\
  forall x, filter es_hilo (agenda s) = [x] ->
    match m_atender s with
    | Some (At_get _ _ _) =>
        forall p a, e_acc x = Reanudar p (VAgente a) -> tiempo_llegada a <= ahora s
    | Some (At_servicio _ _ _ a _ _) => tiempo_llegada a <= ahora s
    | _ => True
    end.

(** *** The claims about whole runs, as they are stated *)

(** Strict first come, first served in a list of service records: of two
    records of the same phase, the one whose service started first did not
    arrive later. *)
Definition fcfs_estricto (l : list RegServicio) : Prop :=
  forall r1 r2, In r1 l -> In r2 l -> sv_ciclo r1 = sv_ciclo r2 ->
    sv_tiempo_inicio_servicio r1 < sv_tiempo_inicio_servicio r2 ->
    sv_tiempo_llegada r1 <= sv_tiempo_llegada r2.

(** In every completed run the service records of each queue are strictly
    first come, first served within each cycle. *)
Definition fcfs_en_toda_fase {az : Azar} : Prop :=
  forall cfg n s, simular cfg n = Completa s ->
    fcfs_estricto (servicios_vehiculos (registros s)) /\
    fcfs_estricto (servicios_peatones (registros s)).

(** Every logged phase start has a queue snapshot taken at the same time. *)
Definition instantanea_por_fase (g : Registros) : Prop :=
  forall r, In r (eventos_semaforo g) ->
    exists e, In e (estado_colas g) /\ es_tiempo e == ev_tiempo r.

(** In every completed run of the fixed controller each logged phase start
    (logged from the warm-up on) comes with a snapshot. *)
Definition fases_con_instantanea {az : Azar} : Prop :=
  forall cfg n s, control cfg = Fijo -> simular cfg n = Completa s ->
    instantanea_por_fase (registros s).

(** The pedestrian phase is skipped whenever the pedestrian queue is empty
    at the decision. *)
Definition salta_sin_peatones {az : Azar} (cfg : Config) : Prop :=
  forall s, alcanzable cfg s -> en_decision_peatonal s -> cola_peatones s = [] ->
    exists s', step cfg s = Sigue s' /\
               eventos_semaforo (registros s') = eventos_semaforo (registros s).

(** The values [controlador] of [SemaforoFijo] is resumed with, by frame. *)
Definition entrada_fijo (m : MarcoControlador) (v : Valor) : Prop :=
  match m, v with
  | C_creado, VNone => True
  | C_fijo Cf_verde_v, VNat _ => True
  | C_fijo Cf_amarillo_v, VNone => True
  | C_fijo Cf_verde_p, VNat _ => True
  | C_fijo Cf_amarillo_p, VNone => True
  | _, _ => False
  end.

(** The duration the fixed controller logs with a phase. *)
Definition duracion_fase (cfg : Config) (f : Fase) : Q :=
  match f with
  | VERDE_VEHICULAR => g_v_fijo cfg
  | VERDE_PEATONAL => g_p_fijo cfg
  | _ => amarillo cfg
  end.

(** The snapshot [registrar_estado_cola] takes in [s] with phase [f]. *)
Definition instantanea (s : Sim) (f : Fase) : RegEstado :=
  mkEstado (ahora s) (length (cola_vehiculos s)) (length (cola_peatones s)) f.

(** A configuration the specification calls invalid. *)
Definition config_invalida (cfg : Config) : Prop :=
  lambda_v cfg <= 0 \/ lambda_p cfg <= 0 \/ s_v cfg <= 0 \/ s_p cfg <= 0 \/
  g_max cfg < g_min cfg \/
  g_v_fijo cfg < 0 \/ g_p_fijo cfg < 0 \/ g_min cfg < 0 \/ amarillo cfg < 0 \/
  tiempo_sim cfg <= warmup_time cfg.

(** Validation at construction: an invalid configuration makes a
    constructor raise. *)
Definition valida_al_construir : Prop :=
  forall cfg, config_invalida cfg -> exists e, construir cfg = inl e.

(** The attributes the constructors store are the values of the configuration. *)
Definition guarda_config (cfg : Config) (g : GeneradorLlegadas.t) (sem : Semaforo) : Prop :=
  g = GeneradorLlegadas.mk (lambda_v cfg) (lambda_p cfg) (warmup_time cfg) 0 0 /\
  match control cfg with
  | Fijo =>
      sem = SFijo (ObjetoFijo.mk (g_v_fijo cfg) (g_p_fijo cfg) (s_v cfg) (s_p cfg)
                     (amarillo cfg) (warmup_time cfg) VERDE_VEHICULAR 0)
  | Adaptativo =>
      sem = SAdaptativo (ObjetoAdaptativo.mk (g_min cfg) (g_max cfg) (g_p_fijo cfg)
                           (s_v cfg) (s_p cfg) (t_v cfg) (t_p cfg) (b_extension cfg)
                           (w_max cfg) (amarillo cfg) (warmup_time cfg) VERDE_VEHICULAR 0)
  end.

(** A vehicle arrival rate of 0, [g_min = 60 > g_max = 20], an amber of -3
    and a horizon of 200 below the warm-up of 300. *)
Definition cfg_invalida : Config :=
  mkConfig Adaptativo 200 0 (1#4) 30 60 20 15 (1#2) 1 5 3 5 90 (-3) 300 42 false.

(** *** A measure of the events left while a service generator runs *)

(** Every pending event weighs at least the number of events it can still
    cause up to the end [tf] of the service: an arrival timeout, with gaps of
    at least [gap] between arrivals, four for each arrival still to come
    (its put event, the agent it queues and itself); the event of the service
    generator, two for each second left and two for each queued agent. *)

(** The sum of a list of weights. *)
Fixpoint suma (l : list Q) : Q :=
  match l with
  | [] => 0
  | x :: r => x + suma r
  end.

(** Two for each queued agent: its get event and its service timeout. *)
Fixpoint carga (l : list Agente) : Q :=
  match l with
  | [] => 0
  | _ :: r => 2 + carga r
  end.

Section Potencial.

Variables tf gap : Q.

(** The polling timeouts still to come from time [t]: at most one a second,
    and the one that ends at [tf]. *)
Definition tramo (t : Q) : Q :=
  if Qlt_le_dec t tf then 2 * (tf - t) + 2 else 1.

(** An arrival timeout due at [t]; every later one is at least [gap] later. *)
Definition peso_llegada (t : Q) : Q :=
  if Qlt_le_dec tf t then 0 else 4 * ((tf - t) / gap + 1).

(** A timeout of the monitor due at [t]; the next one is 300 s later. *)
Definition peso_monitor (t : Q) : Q :=
  if Qlt_le_dec tf t then 0 else (tf - t) * (1 # 300) + 1.

(** The pending event of the service generator, due at [t], by frame; the
    agent it holds counts as queued. *)
Definition peso_hilo (m : option MarcoAtender) (cv cp : list Agente) (t : Q) : Q :=
  match m with
  | Some (At_creado _ _) | Some (At_sondeo _ _ _) | Some (At_servicio _ _ _ _ _ _) =>
      tramo t + carga cv + carga cp + 2
  | Some (At_get _ _ _) => tramo t + carga cv + carga cp + 3
  | Some (At_devuelto _ _ _) => carga cv + carga cp
  | None => 0
  end.

Definition peso_accion (s : Sim) (a : Accion) (t : Q) : Q :=
  match a with
  | Nada | Detener => 1
  | Iniciar PGenV | Iniciar PGenP | Reanudar PGenV _ | Reanudar PGenP _ => peso_llegada t
  | Iniciar PMonitor | Reanudar PMonitor _ => peso_monitor t
  | _ => peso_hilo (m_atender s) (cola_vehiculos s) (cola_peatones s) t
  end.

Definition peso (s : Sim) (x : Evento) : Q := peso_accion s (e_acc x) (e_t x).

(** The measure: it is never negative and every step taken while the service
    generator is alive lowers it by one at least. *)
Definition potencial (s : Sim) : Q := suma (map (peso s) (agenda s)).

End Potencial.

(** The inter-arrival times given by the [n] draws that follow the first
    [desde] draws of the stream are bounded below by [gap > 0]. *)
Definition llegadas_espaciadas {az : Azar} (cfg : Config) (gap : Q) (desde n : nat) : Prop :=
  0 < gap /\
  forall k, (desde <= k < desde + n)%nat ->
    gap <= menos_log1m (mt_random (semilla cfg) k) / lambda_v cfg /\
    gap <= menos_log1m (mt_random (semilla cfg) k) / lambda_p cfg.

(** A number of events within which a service generator that ends at [tf]
    has returned, when the arrivals are at least [gap] apart. *)
Definition eventos_hasta_retorno (tf gap : Q) (s : Sim) : nat :=
  S (Z.to_nat (Qfloor (potencial tf gap s))).

(** ** Predicates on the states and the logs of a run *)

Section Entorno.

Context {az : Azar}.
Variable cfg : Config.

(** A step that processes an event of another process: an arrival
    generator, the monitor or a put event. *)
Definition paso_entorno (s s' : Sim) : Prop :=
  exists e r, heappop (agenda s) = Some (e, r) /\
              es_hilo e = false /\
              filter es_hilo r = filter es_hilo (agenda s) /\
              ahora s <= e_t e /\
              (forall x, In x r -> e_t e <= e_t x) /\
              step cfg s = Sigue s'.

End Entorno.

(** A service record is consistent, for sums and differences taken exactly:
    its times add up, nothing in it is negative, and it was logged at its
    end, from the warm-up on. *)
Definition servicio_coherente (cfg : Config) (now : Q) (ciclo : nat) (r : RegServicio) : Prop :=
  sv_tiempo_fin_servicio r - sv_tiempo_inicio_servicio r == sv_tiempo_servicio r /\
  sv_tiempo_espera r == sv_tiempo_inicio_servicio r - sv_tiempo_llegada r /\
  0 <= sv_tiempo_espera r /\ 0 <= sv_tiempo_servicio r /\
  warmup_time cfg <= sv_tiempo_fin_servicio r /\
  sv_tiempo_fin_servicio r <= now /\
  (1 <= sv_ciclo r <= ciclo)%nat.

(** Every logged service is consistent, and so is the one in progress. *)
Definition servicios_coherentes (cfg : Config) (s : Sim) : Prop :=
  (forall r, In r (servicios_vehiculos (registros s)) \/
             In r (servicios_peatones (registros s)) ->
     servicio_coherente cfg (ahora s) (ciclo_numero s) r) /\
  (m_controlador s <> C_creado -> (1 <= ciclo_numero s)%nat) /\
  forall x, filter es_hilo (agenda s) = [x] ->
    match m_atender s with
    | Some (At_servicio _ _ _ a espera ts) =>
        espera == e_t x - ts - tiempo_llegada a /\ 0 <= espera /\ 0 <= ts
    | _ => True
    end.

(** *** The light while a service routine runs *)

(** The value of [fase_actual] in each frame of the controller. *)
Definition fase_del_marco (m : MarcoControlador) : Fase :=
  match m with
  | C_creado | C_fijo Cf_verde_v | C_adaptativo Ca_verde_v => VERDE_VEHICULAR
  | C_fijo Cf_amarillo_v | C_adaptativo (Ca_amarillo_v _) => AMARILLO_VEHICULAR
  | C_fijo Cf_verde_p | C_adaptativo (Ca_verde_p _ _) => VERDE_PEATONAL
  | C_fijo Cf_amarillo_p | C_adaptativo (Ca_amarillo_p _ _) => AMARILLO_PEATONAL
  end.

Definition luz_del_marco (s : Sim) : Prop :=
  fase_actual s = fase_del_marco (m_controlador s).

(** The green of a class. *)
Definition verde_de (c : Clase) : Fase :=
  match c with
  | Vehicular => VERDE_VEHICULAR
  | Peatonal => VERDE_PEATONAL
  end.

(** *** The horizon *)

(** The stop event of [env.run(until=tiempo_sim)] waits at the horizon, and
    every entry that was on the heap before it lies before the horizon. *)
Definition antes_del_fin (cfg : Config) (s : Sim) : Prop :=
  0 <= ahora s /\ ahora s < tiempo_sim cfg /\
  (forall x, In x (agenda s) -> e_acc x = Detener -> e_t x == tiempo_sim cfg) /\
  exists d, In d (agenda s) /\ e_acc d = Detener /\ e_prio d = URGENT /\
            (e_eid d < sig_eid s)%nat /\
            forall x, In x (agenda s) -> e_acc x <> Detener ->
              e_t x < tiempo_sim cfg \/ (e_eid d < e_eid x)%nat.

(** *** Where the agents are *)

Definition Clase_eqb (a b : Clase) : bool :=
  match a, b with
  | Vehicular, Vehicular | Peatonal, Peatonal => true
  | _, _ => false
  end.

(** The agent carried by a get event. *)
Definition agente_de (x : Evento) : list Agente :=
  match e_acc x with
  | Reanudar _ (VAgente a) => [a]
  | _ => []
  end.

(** The agent of class [c] that has left its queue and has no service record
    yet: it travels in the get event, or it is being served. *)
Definition en_mano (c : Clase) (s : Sim) : list Agente :=
  match m_atender s with
  | Some (At_get c' _ _) =>
      if Clase_eqb c' c then flat_map agente_de (filter es_hilo (agenda s)) else []
  | Some (At_servicio c' _ _ a _ _) => if Clase_eqb c' c then [a] else []
  | _ => []
  end.

(** [vehiculo_id] or [peaton_id] of [GeneradorLlegadas]. *)
Definition contador (c : Clase) (s : Sim) : nat :=
  match c with
  | Vehicular => vehiculo_id s
  | Peatonal => peaton_id s
  end.

(** The identifiers of the agents of class [c] that are queued, in hand, or
    logged as served. *)
Definition censo (c : Clase) (s : Sim) : list nat :=
  map ag_id (cola_de c s) ++ map ag_id (en_mano c s) ++
  map sv_id (servicios_de c (registros s)).

Definition veces (i : nat) (l : list nat) : nat := count_occ Nat.eq_dec l i.

(** Every identifier is counted at most once, only identifiers handed out
    are counted, and without warm-up each of them is counted. *)
Definition censo_ok (cfg : Config) (s : Sim) : Prop :=
  forall c i,
    (veces i (censo c s) <= 1)%nat /\
    (1 <= veces i (censo c s) -> 1 <= i <= contador c s)%nat /\
    (warmup_time cfg <= 0 -> (1 <= i <= contador c s)%nat -> veces i (censo c s) = 1%nat).

(** *** The logs in time *)

(** The time stamps of a log: in order, none before the warm-up, none in the
    future. *)
Definition en_orden (cfg : Config) (now : Q) (l : list Q) : Prop :=
  creciente l /\ forall t, In t l -> warmup_time cfg <= t /\ t <= now.

(** The logs written by the controller and its service routines. *)
Definition bitacoras_en_orden (cfg : Config) (s : Sim) : Prop :=
  en_orden cfg (ahora s) (map ev_tiempo (eventos_semaforo (registros s))) /\
  en_orden cfg (ahora s) (map sv_tiempo_fin_servicio (servicios_vehiculos (registros s))) /\
  en_orden cfg (ahora s) (map sv_tiempo_fin_servicio (servicios_peatones (registros s))) /\
  en_orden cfg (ahora s) (map es_tiempo (estado_colas (registros s))) /\
  en_orden cfg (ahora s) (map de_tiempo (decisiones_adaptativas (registros s))).

Definition llegadas_de (c : Clase) (g : Registros) : list RegLlegada :=
  match c with
  | Vehicular => llegadas_vehiculos g
  | Peatonal => llegadas_peatones g
  end.

(** The arrival log of class [c]: in time order, holding the latest
    arrivals without a gap, each with the queue it joined. *)
Definition llegadas_ok (cfg : Config) (s : Sim) : Prop :=
  forall c,
    let l := llegadas_de c (registros s) in
    en_orden cfg (ahora s) (map ll_tiempo l) /\
    (length l <= contador c s)%nat /\
    map ll_id l = seq (S (contador c s - length l)) (length l) /\
    forall r, In r l -> (1 <= ll_cola_longitud r)%nat.

(** *** What the phase log and the decision log say *)

(** A phase-change entry as the controller of [cfg] writes it: the phase,
    its duration and the additional information belong together. The total
    of an extension is [verde_tras] for sums taken exactly. *)
Definition fase_justificada (cfg : Config) (r : RegEvento) : Prop :=
  (1 <= ev_ciclo r)%nat /\
  match control cfg, ev_fase r, ev_info r with
  | Fijo, VERDE_VEHICULAR, SinInfo => ev_duracion r = g_v_fijo cfg
  | Fijo, VERDE_PEATONAL, SinInfo => ev_duracion r = g_p_fijo cfg
  | Fijo, AMARILLO_VEHICULAR, SinInfo
  | Fijo, AMARILLO_PEATONAL, SinInfo => ev_duracion r = amarillo cfg
  | Adaptativo, VERDE_VEHICULAR_INICIAL, InfoExtension n total =>
      ev_duracion r = g_min cfg /\ n = 0%nat /\ total = g_min cfg
  | Adaptativo, VERDE_VEHICULAR_EXTENSION, InfoExtension n total =>
      ev_duracion r = b_extension cfg /\ (1 <= n)%nat /\
      total == verde_tras cfg n /\ total <= g_max cfg /\
      (t_v cfg <= Z.of_nat (ev_cola_v r))%Z
  | Adaptativo, AMARILLO_VEHICULAR, SinInfo
  | Adaptativo, AMARILLO_PEATONAL, SinInfo => ev_duracion r = amarillo cfg
  | Adaptativo, VERDE_PEATONAL, InfoMotivo m =>
      ev_duracion r = g_p_fijo cfg /\
      match m with
      | COLA_PEATONAL_ALTA => (t_p cfg <= Z.of_nat (ev_cola_p r))%Z
      | ESPERA_EXCESIVA => (Z.of_nat (ev_cola_p r) < t_p cfg)%Z
      | HAY_PEATONES => (0 < Z.of_nat (ev_cola_p r) < t_p cfg)%Z
      | _ => False
      end
  | _, _, _ => False
  end.

(** A decision entry as the adaptive controller writes it: the kind, the
    motive and the values that made the test succeed. *)
Definition decision_justificada (cfg : Config) (r : RegDecision) : Prop :=
  control cfg = Adaptativo /\ (1 <= de_ciclo r)%nat /\
  match de_tipo r, de_motivo r, de_valor r with
  | EXTENSION, ALTA_DEMANDA_VEHICULAR, ValExtension n total cv =>
      (1 <= n)%nat /\ total == verde_tras cfg n /\ total <= g_max cfg /\
      cv = de_cola_v r /\ (t_v cfg <= Z.of_nat cv)%Z
  | FIN_EXTENSION, PRIORIDAD_PEATONAL, ValEspera e w =>
      w = w_max cfg /\ w < e
  | FIN_EXTENSION, COLA_VEHICULAR_BAJA, ValCola cv tv =>
      cv = de_cola_v r /\ tv = t_v cfg /\ (Z.of_nat cv < tv)%Z
  | FIN_EXTENSION, MAXIMO_ALCANZADO, ValMaximo total gm =>
      gm = g_max cfg /\ total < gm /\ gm < total + b_extension cfg /\
      (t_v cfg <= Z.of_nat (de_cola_v r))%Z
  | SALTAR_FASE_PEATONAL, SIN_PEATONES, ValColaP n =>
      n = 0%nat /\ de_cola_p r = 0%nat
  | _, _, _ => False
  end.

(** Both logs, with what the frame of the extension logic holds. *)
Definition bitacora_justificada (cfg : Config) (s : Sim) : Prop :=
  (forall r, In r (eventos_semaforo (registros s)) -> fase_justificada cfg r) /\
  (forall r, In r (decisiones_adaptativas (registros s)) -> decision_justificada cfg r) /\
  (m_controlador s <> C_creado -> (1 <= ciclo_numero s)%nat) /\
  match m_fase s with
  | Some (Fv_inicial tv) => tv = g_min cfg
  | Some (Fv_extension tv n) => (1 <= n)%nat /\ tv == verde_tras cfg n /\ tv <= g_max cfg
  | _ => True
  end.

(** *** The logs when the run stops *)

(** The thread is about to log a phase change at the present time: the
    extension logic has just been created, or it has just returned. *)
Definition registro_inminente (s : Sim) : Prop :=
  (m_fase s = Some Fv_creado \/
   (m_fase s = None /\ m_atender s = None /\ m_controlador s = C_adaptativo Ca_verde_v)) /\
  forall x, filter es_hilo (agenda s) = [x] -> e_t x <= ahora s.

(** The phase log knows the current cycle, and is not empty when the
    decision log is not, unless the entry is about to be written. *)
Definition bitacora_al_dia (s : Sim) : Prop :=
  (eventos_semaforo (registros s) <> [] ->
     (exists r, In r (eventos_semaforo (registros s)) /\ ev_ciclo r = ciclo_numero s) \/
     (m_fase s = Some Fv_creado /\
      forall x, filter es_hilo (agenda s) = [x] -> e_t x <= ahora s)) /\
  (decisiones_adaptativas (registros s) <> [] ->
     eventos_semaforo (registros s) <> [] \/ registro_inminente s).

(** ** The metrics *)

(** ** The metrics computed from [registros] *)

(** *** Python and NumPy on lists of numbers *)

(** The names of the phases, as the strings the code compares. *)
Module Nombres.
Import String.

Definition nombre_fase (f : Fase) : string :=
  match f with
  | VERDE_VEHICULAR => "VERDE_VEHICULAR"
  | VERDE_VEHICULAR_INICIAL => "VERDE_VEHICULAR_INICIAL"
  | VERDE_VEHICULAR_EXTENSION => "VERDE_VEHICULAR_EXTENSION"
  | AMARILLO_VEHICULAR => "AMARILLO_VEHICULAR"
  | VERDE_PEATONAL => "VERDE_PEATONAL"
  | AMARILLO_PEATONAL => "AMARILLO_PEATONAL"
  end%string.

(** [sub in s], and [Series.str.contains(sub)] for a pattern without
    special characters. *)
Fixpoint contiene (sub s : string) : bool :=
  prefix sub s ||
  match s with
  | EmptyString => false
  | String _ r => contiene sub r
  end.

(** ['VEHICULAR' in fase and fase != 'AMARILLO_VEHICULAR']. *)
Definition es_verde_vehicular (f : Fase) : bool :=
  contiene "VEHICULAR"%string (nombre_fase f) &&
  negb (String.eqb (nombre_fase f) "AMARILLO_VEHICULAR"%string).

(** [df['fase'].str.contains('VERDE_VEHICULAR', na=False)]. *)
Definition contiene_verde_vehicular (f : Fase) : bool :=
  contiene "VERDE_VEHICULAR"%string (nombre_fase f).

(** The value of [tipo] for vehicles. *)
Definition vehiculos : string := "vehiculos"%string.

End Nombres.

(** [sum(l)]: a fold from the left, from 0. *)
Definition py_sum (l : list Q) : Q := fold_left Qplus l 0.

(** [len(l)] as a number. *)
Definition largo {A : Type} (l : list A) : Q := inject_Z (Z.of_nat (length l)).

(** [np.mean(l)], for a list that is not empty. *)
Definition np_mean (l : list Q) : Q := py_sum l / largo l.

(** The square root of NumPy stays abstract. *)
Class Numpy : Type := mkNumpy { np_sqrt : Q -> Q }.

(** [np.std(l)]: the square root of the mean of the squared deviations. *)
Definition np_std {np : Numpy} (l : list Q) : Q :=
  np_sqrt (np_mean (map (fun x => (x - np_mean l) * (x - np_mean l)) l)).

(** [np.min] of a list that is not empty ([py_max] is [np.max]). *)
Definition py_min_lista (x : Q) (l : list Q) : Q :=
  fold_left (fun m y => if Qlt_le_dec y m then y else m) l x.

(** [sorted(l)]: a stable sort. *)
Fixpoint insertar (x : Q) (l : list Q) : list Q :=
  match l with
  | [] => [x]
  | y :: r => if Qlt_le_dec y x then y :: insertar x r else x :: y :: r
  end.

Definition sorted (l : list Q) : list Q := fold_right insertar [] l.

(** [np.diff(l)]: the differences of neighbours. *)
Fixpoint np_diff_desde (p : Q) (l : list Q) : list Q :=
  match l with
  | [] => []
  | y :: r => (y - p) :: np_diff_desde y r
  end.

Definition np_diff (l : list Q) : list Q :=
  match l with
  | [] => []
  | x :: r => np_diff_desde x r
  end.

(** [np.percentile(a, q)] with the default method (linear): the virtual
    index [(n - 1) * q / 100] in the sorted data, and the interpolation
    between its two neighbours; at or beyond the last index, the last
    element. For [0 <= q <= 100] and data that is not empty. *)
Definition np_percentile (a : list Q) (q : Q) : Q :=
  let arr := sorted a in
  let ultimo := largo arr - 1 in
  let virtual_index := ultimo * (q / 100) in
  let previous_index := Qfloor virtual_index in
  let gamma := virtual_index - inject_Z previous_index in
  if Qlt_le_dec virtual_index ultimo then
    let previous := nth (Z.to_nat previous_index) arr 0 in
    let next := nth (S (Z.to_nat previous_index)) arr 0 in
    previous + (next - previous) * gamma
  else last arr 0.

(** [max] of a list of integers that is not empty. *)
Definition py_max_nat (x : nat) (l : list nat) : nat := fold_left Nat.max l x.

(** *** semaforo_fijo.py: [calcular_metricas_basicas] *)

(** The dictionary under ['vehiculos'] and under ['peatones']. *)
Record MetricasEspera : Type := mkMetricasEspera {
  me_atendidos : nat;
  me_espera_media : Q;
  me_espera_std : Q;
  me_espera_max : Q;
  me_espera_min : Q;
  me_percentil_50 : Q;
  me_percentil_95 : Q
}.

(** The dictionary under ['semaforo']. *)
Record MetricasSemaforo : Type := mkMetricasSemaforo {
  ms_ciclos_completos : nat;
  ms_tiempo_verde_vehicular : Q;
  ms_tiempo_verde_peatonal : Q;
  ms_proporcion_verde_v : Q
}.

(** The dictionary [metricas]; [None] is Python's [None]. *)
Record Metricas : Type := mkMetricas {
  met_vehiculos : option MetricasEspera;
  met_peatones : option MetricasEspera;
  met_semaforo : option MetricasSemaforo
}.

Section Metricas.

Context {np : Numpy}.

(** The block of [calcular_metricas_basicas] for one list of services. *)
Definition metricas_de_espera (servicios : list RegServicio) : option MetricasEspera :=
  match servicios with
  | [] => None
  | s :: resto =>
      let esperas := map sv_tiempo_espera servicios in
      Some (mkMetricasEspera
              (length esperas)
              (np_mean esperas)
              (np_std esperas)
              (py_max (sv_tiempo_espera s) (map sv_tiempo_espera resto))
              (py_min_lista (sv_tiempo_espera s) (map sv_tiempo_espera resto))
              (np_percentile esperas 50)
              (np_percentile esperas 95))
  end.

(** The block for the phase log. *)
Definition metricas_de_semaforo (eventos : list RegEvento) : option MetricasSemaforo :=
  match eventos with
  | [] => None
  | e :: resto =>
      let ciclos_completos := py_max_nat (ev_ciclo e) (map ev_ciclo resto) in
      let tiempo_verde_v :=
        py_sum (map ev_duracion
                  (filter (fun e => Fase_eqb (ev_fase e) VERDE_VEHICULAR) eventos)) in
      let tiempo_verde_p :=
        py_sum (map ev_duracion
                  (filter (fun e => Fase_eqb (ev_fase e) VERDE_PEATONAL) eventos)) in
      Some (mkMetricasSemaforo
              ciclos_completos tiempo_verde_v tiempo_verde_p
              (if Qlt_le_dec 0 (tiempo_verde_v + tiempo_verde_p)
               then tiempo_verde_v / (tiempo_verde_v + tiempo_verde_p)
               else 0))
  end.

Definition calcular_metricas_basicas (registros : Registros) : Metricas :=
  mkMetricas (metricas_de_espera (servicios_vehiculos registros))
             (metricas_de_espera (servicios_peatones registros))
             (metricas_de_semaforo (eventos_semaforo registros)).

(** *** semaforo_adaptativo.py: [calcular_metricas_adaptativas] *)

(** What the function can raise: [KeyError] by
    [registros['decisiones_adaptativas']] on a dictionary without that key,
    [TypeError] by [metricas['semaforo']['ciclos_completos']] when
    [metricas['semaforo']] is [None], and the [ValueError] of [np.min] on no
    values. *)
Inductive ErrorMetricas : Type := KeyError | TypeError | NumpyValueError.

(** The keys ['total_extensiones'], ['extensiones_por_ciclo'] and
    ['motivos_fin'] of [metricas['adaptativo']]; a dictionary keeps its keys
    in order of insertion. *)
Record MetricasExtensiones : Type := mkMetricasExtensiones {
  mx_total_extensiones : nat;
  mx_extensiones_por_ciclo : Q;
  mx_motivos_fin : list (Motivo * nat)
}.

(** The dictionary under ['duracion_verde_vehicular']. *)
Record MetricasDuracion : Type := mkMetricasDuracion {
  md_media : Q;
  md_std : Q;
  md_min : Q;
  md_max : Q
}.

(** [metricas['adaptativo']] when it is a dictionary: the three keys of the
    extensions are there or not, and so is ['duracion_verde_vehicular']. *)
Record MetricasAdaptativo : Type := mkMetricasAdaptativo {
  ma_extensiones : option MetricasExtensiones;
  ma_duracion_verde_vehicular : option MetricasDuracion
}.

(** [d[motivo] = d.get(motivo, 0) + 1]. *)
Fixpoint contar_motivo (motivo : Motivo) (d : list (Motivo * nat)) : list (Motivo * nat) :=
  match d with
  | [] => [(motivo, 1%nat)]
  | (k, v) :: r =>
      if Motivo_eqb k motivo then (k, S v) :: r else (k, v) :: contar_motivo motivo r
  end.

(** [if ciclo not in d: d[ciclo] = 0] and [d[ciclo] += duracion]. *)
Fixpoint acumular_duracion (ciclo : nat) (duracion : Q) (d : list (nat * Q)) : list (nat * Q) :=
  match d with
  | [] => [(ciclo, 0 + duracion)]
  | (k, v) :: r =>
      if (k =? ciclo)%nat then (k, v + duracion) :: r
      else (k, v) :: acumular_duracion ciclo duracion r
  end.

Definition duraciones_por_ciclo (eventos_v : list RegEvento) : list (nat * Q) :=
  fold_left (fun d evento => acumular_duracion (ev_ciclo evento) (ev_duracion evento) d)
            eventos_v [].

(** The function on a dictionary that has the key
    ['decisiones_adaptativas']. *)
Definition calcular_metricas_adaptativas (registros : Registros)
  : ErrorMetricas + (Metricas * option MetricasAdaptativo) :=
  let metricas := calcular_metricas_basicas registros in
  let adaptativo :=
    match decisiones_adaptativas registros with
    | [] => inr None
    | _ :: _ =>
        let decisiones := decisiones_adaptativas registros in
        let extensiones := filter (fun d => Tipo_eqb (de_tipo d) EXTENSION) decisiones in
        let fin_extensiones := filter (fun d => Tipo_eqb (de_tipo d) FIN_EXTENSION) decisiones in
        match met_semaforo metricas with
        | None => inl TypeError
        | Some semaforo =>
            inr (Some (mkMetricasAdaptativo
                   (Some (mkMetricasExtensiones
                            (length extensiones)
                            (largo extensiones /
                             inject_Z (Z.of_nat (Nat.max 1 (ms_ciclos_completos semaforo))))
                            (fold_left (fun d decision => contar_motivo (de_motivo decision) d)
                                       fin_extensiones [])))
                   None))
        end
    end in
  match adaptativo with
  | inl e => inl e
  | inr adaptativo =>
      match eventos_semaforo registros with
      | [] => inr (metricas, adaptativo)
      | _ :: _ =>
          let eventos_v := filter (fun e => Nombres.es_verde_vehicular (ev_fase e))
                                  (eventos_semaforo registros) in
          match eventos_v with
          | [] => inr (metricas, adaptativo)
          | _ :: _ =>
              let duraciones := map snd (duraciones_por_ciclo eventos_v) in
              match duraciones with
              | [] => inl NumpyValueError
              | d :: resto =>
                  let duracion := mkMetricasDuracion (np_mean duraciones) (np_std duraciones)
                                    (py_min_lista d resto) (py_max d resto) in
                  inr (metricas,
                       Some (mkMetricasAdaptativo
                               (match adaptativo with
                                | Some a => ma_extensiones a
                                | None => None
                                end)
                               (Some duracion)))
              end
          end
      end
  end.

(** The dictionary [registros] a driver returns: the logs, and whether the
    key ['decisiones_adaptativas'] exists. The other keys are created by
    [GeneradorLlegadas.__init__] and by the [__init__] of either controller;
    this one is created by [SemaforoAdaptativo.__init__] only. *)
Record Diccionario : Type := mkDiccionario {
  dic_registros : Registros;
  dic_decisiones : bool
}.

(** [calcular_metricas_adaptativas(registros)]: the basic metrics are
    computed first, then [registros['decisiones_adaptativas']] is read. *)
Definition calcular_metricas_adaptativas_dic (registros : Diccionario)
  : ErrorMetricas + (Metricas * option MetricasAdaptativo) :=
  if dic_decisiones registros
  then calcular_metricas_adaptativas (dic_registros registros)
  else inl KeyError.

(** What the driver of the controller of [cfg] returns after a run that
    ends in [s]. *)
Definition diccionario_de (cfg : Config) (s : Sim) : Diccionario :=
  mkDiccionario (registros s)
    (match control cfg with
     | Adaptativo => true
     | Fijo => false
     end).

(** *** llegadas.py: [validar_proceso_poisson] *)

Record EstadisticasPoisson : Type := mkEstadisticasPoisson {
  ep_nombre : String.string;
  ep_n_llegadas : nat;
  ep_lambda_esperada : Q;
  ep_lambda_observada : Q;
  ep_media_inter_arribos : Q;
  ep_media_teorica : Q;
  ep_error_media : Q;
  ep_std_inter_arribos : Q;
  ep_std_teorica : Q;
  ep_coef_variacion : Q
}.

Definition validar_proceso_poisson (tiempos_llegada : list Q) (lambda_esperada : Q)
                                   (nombre : String.string)
  : Excepcion + option EstadisticasPoisson :=
  if (length tiempos_llegada <? 2)%nat then inr None
  else
    let tiempos_llegada_sorted := sorted tiempos_llegada in
    let inter_arribos := np_diff tiempos_llegada_sorted in
    let media_inter_arribos := np_mean inter_arribos in
    let std_inter_arribos := np_std inter_arribos in
    if Qeq_dec lambda_esperada 0 then inl ZeroDivisionError
    else
      let media_teorica := 1 / lambda_esperada in
      let std_teorica := 1 / lambda_esperada in
      let lambda_observada :=
        if Qlt_le_dec 0 media_inter_arribos then 1 / media_inter_arribos else 0 in
      inr (Some (mkEstadisticasPoisson
                   nombre
                   (length tiempos_llegada)
                   lambda_esperada
                   lambda_observada
                   media_inter_arribos
                   media_teorica
                   (Qabs (media_inter_arribos - media_teorica) / media_teorica * 100)
                   std_inter_arribos
                   std_teorica
                   (if Qlt_le_dec 0 media_inter_arribos
                    then std_inter_arribos / media_inter_arribos else 0))).

End Metricas.

(** What the summary of the waits of a list of services must satisfy. *)
Definition resumen_coherente (servicios : list RegServicio) (o : option MetricasEspera) : Prop :=
  match o with
  | None => servicios = []
  | Some m =>
      me_atendidos m = length servicios /\ (1 <= me_atendidos m)%nat /\
      0 <= me_espera_min m /\
      me_espera_min m <= me_percentil_50 m /\
      me_percentil_50 m <= me_percentil_95 m /\
      me_percentil_95 m <= me_espera_max m /\
      me_espera_min m <= me_espera_media m /\
      me_espera_media m <= me_espera_max m
  end.

(** The entries of the phase log with phase [f]. *)
Definition fases_de (f : Fase) (eventos : list RegEvento) : list RegEvento :=
  filter (fun e => Fase_eqb (ev_fase e) f) eventos.

(** *** What the theorems on the logs state *)

(** The statements on logged numbers keep to what holds however the sums
    and differences of times are rounded: orders, signs, and values copied
    from the configuration. *)

(** A service record: nothing in it is negative, the service starts and the
    agent arrives before the service ends, it was logged at its end from
    the warm-up on, and its cycle has begun. *)
Definition servicio_en_orden (cfg : Config) (now : Q) (ciclo : nat) (r : RegServicio) : Prop :=
  0 <= sv_tiempo_espera r /\ 0 <= sv_tiempo_servicio r /\
  sv_tiempo_llegada r <= sv_tiempo_fin_servicio r /\
  sv_tiempo_inicio_servicio r <= sv_tiempo_fin_servicio r /\
  warmup_time cfg <= sv_tiempo_fin_servicio r /\
  sv_tiempo_fin_servicio r <= now /\
  (1 <= sv_ciclo r <= ciclo)%nat.

(** A phase-change entry as the controller of [cfg] writes it. *)
Definition fase_conforme (cfg : Config) (r : RegEvento) : Prop :=
  (1 <= ev_ciclo r)%nat /\
  match control cfg, ev_fase r, ev_info r with
  | Fijo, VERDE_VEHICULAR, SinInfo => ev_duracion r = g_v_fijo cfg
  | Fijo, VERDE_PEATONAL, SinInfo => ev_duracion r = g_p_fijo cfg
  | Fijo, AMARILLO_VEHICULAR, SinInfo
  | Fijo, AMARILLO_PEATONAL, SinInfo => ev_duracion r = amarillo cfg
  | Adaptativo, VERDE_VEHICULAR_INICIAL, InfoExtension n total =>
      ev_duracion r = g_min cfg /\ n = 0%nat /\ total = g_min cfg
  | Adaptativo, VERDE_VEHICULAR_EXTENSION, InfoExtension n total =>
      ev_duracion r = b_extension cfg /\ (1 <= n)%nat /\ total <= g_max cfg /\
      (t_v cfg <= Z.of_nat (ev_cola_v r))%Z
  | Adaptativo, AMARILLO_VEHICULAR, SinInfo
  | Adaptativo, AMARILLO_PEATONAL, SinInfo => ev_duracion r = amarillo cfg
  | Adaptativo, VERDE_PEATONAL, InfoMotivo m =>
      ev_duracion r = g_p_fijo cfg /\
      match m with
      | COLA_PEATONAL_ALTA => (t_p cfg <= Z.of_nat (ev_cola_p r))%Z
      | ESPERA_EXCESIVA => (Z.of_nat (ev_cola_p r) < t_p cfg)%Z
      | HAY_PEATONES => (0 < Z.of_nat (ev_cola_p r) < t_p cfg)%Z
      | _ => False
      end
  | _, _, _ => False
  end.

(** A decision entry as the adaptive controller writes it. *)
Definition decision_conforme (cfg : Config) (r : RegDecision) : Prop :=
  control cfg = Adaptativo /\ (1 <= de_ciclo r)%nat /\
  match de_tipo r, de_motivo r, de_valor r with
  | EXTENSION, ALTA_DEMANDA_VEHICULAR, ValExtension n total cv =>
      (1 <= n)%nat /\ total <= g_max cfg /\
      cv = de_cola_v r /\ (t_v cfg <= Z.of_nat cv)%Z
  | FIN_EXTENSION, PRIORIDAD_PEATONAL, ValEspera e w =>
      w = w_max cfg /\ w < e
  | FIN_EXTENSION, COLA_VEHICULAR_BAJA, ValCola cv tv =>
      cv = de_cola_v r /\ tv = t_v cfg /\ (Z.of_nat cv < tv)%Z
  | FIN_EXTENSION, MAXIMO_ALCANZADO, ValMaximo total gm =>
      gm = g_max cfg /\ total < gm /\ gm < total + b_extension cfg /\
      (t_v cfg <= Z.of_nat (de_cola_v r))%Z
  | SALTAR_FASE_PEATONAL, SIN_PEATONES, ValColaP n =>
      n = 0%nat /\ de_cola_p r = 0%nat
  | _, _, _ => False
  end.

(** The green times [calcular_metricas_basicas] reports: the sum of one
    configured duration for each logged green, by controller. *)
Definition verde_programado (cfg : Config) (eventos : list RegEvento)
                            (o : option MetricasSemaforo) : Prop :=
  match o with
  | None => eventos = []
  | Some m =>
      ms_tiempo_verde_peatonal m =
        py_sum (map (fun _ => g_p_fijo cfg) (fases_de VERDE_PEATONAL eventos)) /\
      match control cfg with
      | Fijo =>
          ms_tiempo_verde_vehicular m =
            py_sum (map (fun _ => g_v_fijo cfg) (fases_de VERDE_VEHICULAR eventos))
      | Adaptativo =>
          fases_de VERDE_VEHICULAR eventos = [] /\
          ms_tiempo_verde_vehicular m = 0 /\ ms_proporcion_verde_v m == 0
      end
  end.

(** [d.get(motivo, 0)]. *)
Fixpoint valor_de (motivo : Motivo) (d : list (Motivo * nat)) : nat :=
  match d with
  | [] => 0%nat
  | (k, v) :: r => if Motivo_eqb k motivo then v else valor_de motivo r
  end.

(** The decisions of kind FIN_EXTENSION with a given motive. *)
Definition fines_con (motivo : Motivo) (decisiones : list RegDecision) : list RegDecision :=
  filter (fun d => Tipo_eqb (de_tipo d) FIN_EXTENSION && Motivo_eqb (de_motivo d) motivo)
         decisiones.

(** What [metricas['adaptativo']] must say about the decision log. *)
Definition extensiones_contadas (decisiones : list RegDecision)
                                (a : option MetricasAdaptativo) : Prop :=
  match a with
  | None => decisiones = []
  | Some a =>
      match ma_extensiones a with
      | None => decisiones = []
      | Some x =>
          decisiones <> [] /\
          mx_total_extensiones x =
            length (filter (fun d => Tipo_eqb (de_tipo d) EXTENSION) decisiones) /\
          NoDup (map fst (mx_motivos_fin x)) /\
          (forall k v, In (k, v) (mx_motivos_fin x) -> (1 <= v)%nat) /\
          forall motivo,
            valor_de motivo (mx_motivos_fin x) = length (fines_con motivo decisiones)
      end
  end.

(** The span of a list of times: latest minus earliest. *)
Definition rango (l : list Q) : Q :=
  match l with
  | [] => 0
  | x :: r => py_max x r - py_min_lista x r
  end.

(** What [validar_proceso_poisson] must return. *)
Definition validacion_correcta (tiempos : list Q) (lambda_esperada : Q)
                               (res : Excepcion + option EstadisticasPoisson) : Prop :=
  match res with
  | inr None => (length tiempos < 2)%nat
  | inl e => e = ZeroDivisionError /\ (2 <= length tiempos)%nat /\ lambda_esperada == 0
  | inr (Some st) =>
      (2 <= length tiempos)%nat /\ ~ lambda_esperada == 0 /\
      ep_n_llegadas st = length tiempos /\
      0 <= ep_media_inter_arribos st /\
      ep_media_inter_arribos st <= rango tiempos /\
      ep_media_teorica st = 1 / lambda_esperada /\
      (if Qlt_le_dec 0 (ep_media_inter_arribos st)
       then ep_lambda_observada st = 1 / ep_media_inter_arribos st
       else ep_lambda_observada st = 0 /\ ep_coef_variacion st = 0)
  end.

(** *** analisis/metricas.py: [AnalizadorMetricas] *)

(** [np.median(l)]: the mean of the middle element, or of the two middle
    elements, of the sorted data. *)
Definition np_median (l : list Q) : Q :=
  let part := sorted l in
  let n := length part in
  let index := (n / 2)%nat in
  if Nat.odd n then np_mean (firstn 1 (skipn index part))
  else np_mean (firstn 2 (skipn (index - 1) part)).

(** The dictionary returned by [calcular_metricas_espera]. *)
Record ResumenEspera : Type := mkResumenEspera {
  re_tipo : String.string;
  re_n_atendidos : nat;
  re_espera_media : Q;
  re_espera_mediana : Q;
  re_espera_std : Q;
  re_espera_min : Q;
  re_espera_max : Q;
  re_percentil_25 : Q;
  re_percentil_50 : Q;
  re_percentil_75 : Q;
  re_percentil_90 : Q;
  re_percentil_95 : Q;
  re_percentil_99 : Q;
  re_coef_variacion : Q;
  re_prop_espera_excesiva : Q;
  re_umbral_excesivo : Q
}.

(** The dictionary returned by [calcular_throughput]. *)
Record Throughput : Type := mkThroughput {
  th_tipo : String.string;
  th_throughput_hora : Q;
  th_throughput_minuto : Q;
  th_n_atendidos : nat
}.

(** The dictionary returned by [calcular_uso_tiempo_verde]. *)
Record UsoVerde : Type := mkUsoVerde {
  uv_tiempo_verde_vehicular : Q;
  uv_tiempo_verde_peatonal : Q;
  uv_tiempo_total_verde : Q;
  uv_proporcion_verde_v : Q;
  uv_proporcion_verde_p : Q;
  uv_ciclos_totales : nat
}.

(** [float('inf')] or a number. *)
Inductive Razon : Type :=
| Finita (q : Q)
| Infinita.

Inductive Sesgo : Type := SesgoVehiculos | SesgoPeatones.

(** The dictionary returned by [calcular_indice_equidad]. *)
Record Equidad : Type := mkEquidad {
  eq_espera_normalizada_v : Q;
  eq_espera_normalizada_p : Q;
  eq_ratio_equidad : Razon;
  eq_sesgo : Sesgo
}.

Module AnalizadorMetricas.
Section Metodos.

Context {np : Numpy}.

Record t : Type := mk {
  registros : Registros;
  tiempo_sim : Q;
  tiempo_warmup : Q;
  tiempo_efectivo : Q
}.

Definition init (registros : Registros) (tiempo_sim tiempo_warmup : Q) : t :=
  mk registros tiempo_sim tiempo_warmup (tiempo_sim - tiempo_warmup).

(** A DataFrame is the list of its rows; the empty one has none. *)
Definition crear_df_servicios_vehiculos (self : t) : list RegServicio :=
  servicios_vehiculos (registros self).

Definition crear_df_servicios_peatones (self : t) : list RegServicio :=
  servicios_peatones (registros self).

Definition crear_df_eventos_semaforo (self : t) : list RegEvento :=
  eventos_semaforo (registros self).

Definition calcular_metricas_espera (self : t) (df_servicios : list RegServicio)
                                    (tipo : String.string) : option ResumenEspera :=
  match df_servicios with
  | [] => None
  | s :: resto =>
      let esperas := map sv_tiempo_espera df_servicios in
      let umbral_excesivo := if String.eqb tipo Nombres.vehiculos then 60 else 90 in
      Some (mkResumenEspera
              tipo
              (length esperas)
              (np_mean esperas)
              (np_median esperas)
              (np_std esperas)
              (py_min_lista (sv_tiempo_espera s) (map sv_tiempo_espera resto))
              (py_max (sv_tiempo_espera s) (map sv_tiempo_espera resto))
              (np_percentile esperas 25)
              (np_percentile esperas 50)
              (np_percentile esperas 75)
              (np_percentile esperas 90)
              (np_percentile esperas 95)
              (np_percentile esperas 99)
              (if Qlt_le_dec 0 (np_mean esperas) then np_std esperas / np_mean esperas else 0)
              (largo (filter (fun x => if Qlt_le_dec umbral_excesivo x then true else false)
                             esperas) / largo esperas)
              umbral_excesivo)
  end.

Definition calcular_throughput (self : t) (df_servicios : list RegServicio)
                               (tipo : String.string) : option Throughput :=
  match df_servicios with
  | [] => None
  | _ :: _ =>
      let n_atendidos := length df_servicios in
      let tiempo_horas := tiempo_efectivo self / 3600 in
      Some (mkThroughput
              tipo
              (if Qlt_le_dec 0 tiempo_horas
               then inject_Z (Z.of_nat n_atendidos) / tiempo_horas else 0)
              (if Qlt_le_dec 0 (tiempo_efectivo self)
               then inject_Z (Z.of_nat n_atendidos) / (tiempo_efectivo self / 60) else 0)
              n_atendidos)
  end.

Definition calcular_uso_tiempo_verde (self : t) (df_eventos : list RegEvento)
  : option UsoVerde :=
  match df_eventos with
  | [] => None
  | e :: resto =>
      let verde_v := filter (fun e => Nombres.contiene_verde_vehicular (ev_fase e)) df_eventos in
      let verde_p := filter (fun e => Fase_eqb (ev_fase e) VERDE_PEATONAL) df_eventos in
      let tiempo_verde_v := py_sum (map ev_duracion verde_v) in
      let tiempo_verde_p := py_sum (map ev_duracion verde_p) in
      let tiempo_total_verde := tiempo_verde_v + tiempo_verde_p in
      Some (mkUsoVerde
              tiempo_verde_v tiempo_verde_p tiempo_total_verde
              (if Qlt_le_dec 0 tiempo_total_verde
               then tiempo_verde_v / tiempo_total_verde else 0)
              (if Qlt_le_dec 0 tiempo_total_verde
               then tiempo_verde_p / tiempo_total_verde else 0)
              (py_max_nat (ev_ciclo e) (map ev_ciclo resto)))
  end.

Definition calcular_indice_equidad (self : t) (metricas_v metricas_p : option ResumenEspera)
  : option Equidad :=
  match metricas_v, metricas_p with
  | Some metricas_v, Some metricas_p =>
      let umbral_v := 60 in
      let umbral_p := 90 in
      let espera_norm_v := re_espera_media metricas_v / umbral_v in
      let espera_norm_p := re_espera_media metricas_p / umbral_p in
      let maximo := if Qlt_le_dec espera_norm_v espera_norm_p
                    then espera_norm_p else espera_norm_v in
      let minimo := py_min espera_norm_v espera_norm_p in
      Some (mkEquidad
              espera_norm_v espera_norm_p
              (if Qlt_le_dec 0 minimo then Finita (maximo / minimo) else Infinita)
              (if Qlt_le_dec espera_norm_p espera_norm_v
               then SesgoVehiculos else SesgoPeatones))
  | _, _ => None
  end.

End Metodos.
End AnalizadorMetricas.

(** The phases of a vehicle green, under either controller. *)
Definition verde_vehicular (f : Fase) : bool :=
  match f with
  | VERDE_VEHICULAR | VERDE_VEHICULAR_INICIAL | VERDE_VEHICULAR_EXTENSION => true
  | _ => false
  end.

(** What [calcular_uso_tiempo_verde] must return. *)
Definition uso_correcto (df : list RegEvento) (o : option UsoVerde) : Prop :=
  match o with
  | None => df = []
  | Some u =>
      uv_tiempo_verde_vehicular u =
        py_sum (map ev_duracion (filter (fun e => verde_vehicular (ev_fase e)) df)) /\
      uv_tiempo_verde_peatonal u = py_sum (map ev_duracion (fases_de VERDE_PEATONAL df)) /\
      uv_tiempo_total_verde u = uv_tiempo_verde_vehicular u + uv_tiempo_verde_peatonal u /\
      (uv_tiempo_total_verde u <= 0 ->
       uv_proporcion_verde_v u = 0 /\ uv_proporcion_verde_p u = 0) /\
      (forall e, In e df -> (ev_ciclo e <= uv_ciclos_totales u)%nat)
  end.

(** What [calcular_indice_equidad] must return. *)
Definition equidad_correcta (metricas_v metricas_p : option ResumenEspera)
                            (o : option Equidad) : Prop :=
  match o with
  | None => metricas_v = None \/ metricas_p = None
  | Some e =>
      match eq_ratio_equidad e with
      | Finita q =>
          1 <= q /\ 0 < eq_espera_normalizada_v e /\ 0 < eq_espera_normalizada_p e /\
          (q == 1 <-> eq_espera_normalizada_v e == eq_espera_normalizada_p e)
      | Infinita => eq_espera_normalizada_v e <= 0 \/ eq_espera_normalizada_p e <= 0
      end /\
      (eq_sesgo e = SesgoVehiculos <->
       eq_espera_normalizada_p e < eq_espera_normalizada_v e)
  end.

(** What [calcular_metricas_espera] must return. *)
Definition resumen_de_espera_correcto (df : list RegServicio)
                                      (o : option ResumenEspera) : Prop :=
  match o with
  | None => df = []
  | Some m =>
      re_n_atendidos m = length df /\
      re_espera_min m <= re_espera_mediana m /\
      re_espera_mediana m <= re_espera_max m /\
      re_espera_min m <= re_percentil_25 m /\
      re_percentil_25 m <= re_percentil_50 m /\
      re_percentil_50 m <= re_percentil_75 m /\
      re_percentil_75 m <= re_percentil_90 m /\
      re_percentil_90 m <= re_percentil_95 m /\
      re_percentil_95 m <= re_percentil_99 m /\
      re_percentil_99 m <= re_espera_max m /\
      re_espera_min m <= re_espera_media m /\
      re_espera_media m <= re_espera_max m /\
      0 <= re_prop_espera_excesiva m /\ re_prop_espera_excesiva m <= 1
  end.

(** *** More concrete runs *)

(** A fixed controller with both queues busy: a vehicle every 3 or 6 s and a
    pedestrian every 4 or 8 s. *)
Definition cfg_mixto : Config :=
  mkConfig Fijo 60 (1#3) (1#4) 10 20 60 5 (1#2) 1 5 3 5 90 1 0 42 false.

(** An adaptive controller with a green between 10 and 20 s, a warm-up of
    12 s and a horizon of 80 s. *)
Definition cfg_adaptativo_corto : Config :=
  mkConfig Adaptativo 80 (1#2) (1#4) 30 10 20 8 (1#2) 1 2 3 5 90 3 12 42 false.

(** The two runs after 100 and after 150 events. *)
Definition estado_mixto : Sim := estado_tras (az := azar_ejemplo) cfg_mixto 100.

Definition estado_adaptativo : Sim :=
  estado_tras (az := azar_ejemplo) cfg_adaptativo_corto 150.

(** An example square root: three steps of Newton's method from 1. *)
Definition numpy_ejemplo : Numpy :=
  mkNumpy (fun x =>
    if Qlt_le_dec 0 x
    then fold_left (fun r _ => Qred ((r + x / r) / 2)) [tt; tt; tt] 1
    else 0).

(** ** The same run in double precision *)

(** The run above computes on exact rationals. Python computes on IEEE 754
    binary64 numbers: every sum, difference and quotient of two floats is
    the double nearest to the exact result. The definitions of [Doble] are
    the definitions above with that rounding written at every arithmetic
    operation of the source and of [Environment.schedule]
    ([self._now + delay]); all the rest (the heap, the stores, the logs, the
    frames) is shared. With [exacto] they are the definitions above
    ([step_exacto]); with [doble] they compute what the interpreter
    computes, as long as no number reaches [2^1024] (infinities are left
    out) and the integers among the parameters stay below [2^53]. *)

(** [2 ^ e] for any integer [e]. *)
Definition pot2 (e : Z) : Q :=
  if (0 <=? e)%Z then inject_Z (2 ^ e) else 1 # Z.to_pos (2 ^ (- e)).

(** [a / d < 2 ^ k], for [a >= 0]. *)
Definition bajo_pot2 (a : Z) (d : positive) (k : Z) : bool :=
  if (0 <=? k)%Z then (a <? Zpos d * 2 ^ k)%Z else (a * 2 ^ (- k) <? Zpos d)%Z.

(** The exponent of the last place of the doubles next to [n / d]: a double
    is [m * 2 ^ e] with a mantissa [m] of at most 53 bits, which lies in
    [[2^52, 2^53)] unless the number is subnormal, and [e >= -1074]. *)
Definition exponente (n : Z) (d : positive) : Z :=
  let a := Z.abs n in
  let k := (Z.log2 a - Z.log2 (Zpos d))%Z in
  let l := if bajo_pot2 a d k then (k - 1)%Z else k in
  Z.max (l - 52) (-1074).

(** The double nearest to [q]; a tie goes to the even mantissa. *)
Definition redondear_doble (q : Q) : Q :=
  let n := Qnum q in
  let d := Qden q in
  if (n =? 0)%Z then 0
  else
    let e := exponente n d in
    let num := if (0 <=? e)%Z then Z.abs n else (Z.abs n * 2 ^ (- e))%Z in
    let den := if (0 <=? e)%Z then (Zpos d * 2 ^ e)%Z else Zpos d in
    let m := (num / den)%Z in
    let r := (num mod den)%Z in
    let m := if (2 * r <? den)%Z then m
             else if (den <? 2 * r)%Z then (m + 1)%Z
             else if Z.even m then m else (m + 1)%Z in
    Qred (inject_Z (Z.sgn n * m) * pot2 e).

(** How the result of an arithmetic operation is stored. *)
Class Redondeo : Type := mkRedondeo { redondear : Q -> Q }.

Definition exacto : Redondeo := mkRedondeo (fun q => q).
Definition doble : Redondeo := mkRedondeo redondear_doble.

Module Doble.
Section Procesos.

Context {az : Azar} {fl : Redondeo}.
Variable cfg : Config.

(** [Environment.schedule(event, priority, delay)]: the entry is pushed with
    the time [self._now + delay]. *)
Definition schedule (acc : Accion) (prio : nat) (delay : Q) (s : Sim) : Sim :=
  con_sig_eid (S (sig_eid s))
    (con_agenda (heappush (mkEv (redondear (ahora s + delay)) prio (sig_eid s) acc)
                   (agenda s)) s).

Definition env_timeout (p : Pid) (delay : Q) (s : Sim) : Res :=
  if Qlt_le_dec delay 0 then Mal ValueError
  else Bien (schedule (Reanudar p VNone) NORMAL delay s).

Definition retornar (padre : Pid) (v : Valor) (s : Sim) : Sim :=
  schedule (Reanudar padre v) NORMAL 0 s.

Definition store_put (c : Clase) (a : Agente) (s : Sim) : Sim :=
  schedule Nada NORMAL 0 (con_cola c (cola_de c s ++ [a]) s).

Definition store_get (p : Pid) (c : Clase) (a : Agente) (resto : list Agente) (s : Sim) : Sim :=
  schedule (Reanudar p (VAgente a)) NORMAL 0 (con_cola c resto s).

Definition env_process (p : Pid) (s : Sim) : Sim :=
  schedule (Iniciar p) URGENT 0 s.

(** [random.expovariate(lambd)]: [-log(1.0 - random()) / lambd]. *)
Definition expovariate (lambd : Q) (k : Q -> Sim -> Res) (s : Sim) : Res :=
  if Qeq_dec lambd 0 then Mal ZeroDivisionError
  else k (redondear (menos_log1m (mt_random (semilla cfg) (sorteos s)) / lambd))
         (con_sorteos (S (sorteos s)) s).

Definition generar_vehiculos_espera (s : Sim) : Res :=
  expovariate (lambda_v cfg) (fun tiempo_entre_llegadas => env_timeout PGenV tiempo_entre_llegadas) s.

Definition generar_vehiculos (s : Sim) : Res :=
  let s := con_vehiculo_id (S (vehiculo_id s)) s in
  let vehiculo := mkAgente (vehiculo_id s) (ahora s) in
  let s := store_put Vehicular vehiculo s in
  let s := tras_warmup (warmup_time cfg) s
             (anota_llegada_v (mkLlegada (ag_id vehiculo) (ahora s) (length (cola_vehiculos s)))) in
  generar_vehiculos_espera s.

Definition generar_peatones_espera (s : Sim) : Res :=
  expovariate (lambda_p cfg) (fun tiempo_entre_llegadas => env_timeout PGenP tiempo_entre_llegadas) s.

Definition generar_peatones (s : Sim) : Res :=
  let s := con_peaton_id (S (peaton_id s)) s in
  let peaton := mkAgente (peaton_id s) (ahora s) in
  let s := store_put Peatonal peaton s in
  let s := tras_warmup (warmup_time cfg) s
             (anota_llegada_p (mkLlegada (ag_id peaton) (ahora s) (length (cola_peatones s)))) in
  generar_peatones_espera s.

Definition monitor (s : Sim) : Res := env_timeout PMonitor 300 s.

(** [atender_vehiculos] / [atender_peatones]: [tiempo_fin - self.env.now]
    is rounded before [min] and before the timeout adds it to the clock. *)
Definition atender_bucle (c : Clase) (tiempo_fin : Q) (atendidos : nat) (s : Sim) : Res :=
  if Qlt_le_dec (ahora s) tiempo_fin then
    match cola_de c s with
    | [] =>
        env_timeout PAtender (py_min 1 (redondear (tiempo_fin - ahora s)))
          (con_atender (Some (At_sondeo c tiempo_fin atendidos)) s)
    | a :: resto =>
        Bien (store_get PAtender c a resto
               (con_atender (Some (At_get c tiempo_fin atendidos)) s))
    end
  else Bien (retornar (padre_atender s) (VNat atendidos) (con_atender None s)).

Definition atender (m : MarcoAtender) (v : Valor) (s : Sim) : Res :=
  match m, v with
  | At_creado c duracion, VNone =>
      let tiempo_inicio := ahora s in
      let tiempo_fin := redondear (tiempo_inicio + duracion) in
      atender_bucle c tiempo_fin 0 s
  | At_sondeo c tiempo_fin atendidos, VNone =>
      atender_bucle c tiempo_fin atendidos s
  | At_get c tiempo_fin atendidos, VAgente agente =>
      let tiempo_espera := redondear (ahora s - tiempo_llegada agente) in
      expovariate (tasa_servicio cfg c) (fun tiempo_servicio s =>
        let tiempo_restante := redondear (tiempo_fin - ahora s) in
        if Qlt_le_dec tiempo_restante tiempo_servicio then
          env_timeout PAtender tiempo_restante
            (con_atender (Some (At_devuelto c tiempo_fin atendidos))
               (store_put c agente s))
        else
          env_timeout PAtender tiempo_servicio
            (con_atender (Some (At_servicio c tiempo_fin atendidos agente
                                  tiempo_espera tiempo_servicio)) s)) s
  | At_devuelto c tiempo_fin atendidos, VNone =>
      Bien (retornar (padre_atender s) (VNat atendidos) (con_atender None s))
  | At_servicio c tiempo_fin atendidos agente tiempo_espera tiempo_servicio, VNone =>
      let atendidos := S atendidos in
      let s := tras_warmup (warmup_time cfg) s
                 (anota_servicio c
                    (mkServicio (ag_id agente) (tiempo_llegada agente)
                       (redondear (ahora s - tiempo_servicio)) (ahora s)
                       tiempo_espera tiempo_servicio (ciclo_numero s))) in
      atender_bucle c tiempo_fin atendidos s
  | _, _ => Mal RuntimeError
  end.

Definition lanzar_atender (c : Clase) (duracion : Q) (s : Sim) : Sim :=
  env_process PAtender (con_atender (Some (At_creado c duracion)) s).

(** [SemaforoFijo.controlador]. *)
Definition fijo_ciclo (s : Sim) : Res :=
  let s := con_ciclo_numero (S (ciclo_numero s)) s in
  let s := con_fase_actual VERDE_VEHICULAR s in
  let s := registrar_evento cfg VERDE_VEHICULAR (g_v_fijo cfg) SinInfo s in
  let s := registrar_estado_cola cfg s in
  Bien (lanzar_atender Vehicular (g_v_fijo cfg) (con_controlador (C_fijo Cf_verde_v) s)).

Definition fijo_controlador (m : MarcoControlador) (v : Valor) (s : Sim) : Res :=
  match m, v with
  | C_creado, VNone => fijo_ciclo s
  | C_fijo Cf_verde_v, VNat _ =>
      let s := con_fase_actual AMARILLO_VEHICULAR s in
      let s := registrar_evento cfg AMARILLO_VEHICULAR (amarillo cfg) SinInfo s in
      env_timeout PControlador (amarillo cfg) (con_controlador (C_fijo Cf_amarillo_v) s)
  | C_fijo Cf_amarillo_v, VNone =>
      let s := con_fase_actual VERDE_PEATONAL s in
      let s := registrar_evento cfg VERDE_PEATONAL (g_p_fijo cfg) SinInfo s in
      let s := registrar_estado_cola cfg s in
      Bien (lanzar_atender Peatonal (g_p_fijo cfg) (con_controlador (C_fijo Cf_verde_p) s))
  | C_fijo Cf_verde_p, VNat _ =>
      let s := con_fase_actual AMARILLO_PEATONAL s in
      let s := registrar_evento cfg AMARILLO_PEATONAL (amarillo cfg) SinInfo s in
      env_timeout PControlador (amarillo cfg) (con_controlador (C_fijo Cf_amarillo_p) s)
  | C_fijo Cf_amarillo_p, VNone =>
      let s := registrar_estado_cola cfg s in
      fijo_ciclo s
  | _, _ => Mal RuntimeError
  end.

(** [SemaforoAdaptativo]: the waits [self.env.now - p.tiempo_llegada] and
    the running total [tiempo_verde_total + self.b_extension] are rounded. *)
Definition obtener_espera_maxima_peatonal (s : Sim) : Q :=
  match cola_peatones s with
  | [] => 0
  | p :: resto =>
      py_max (redondear (ahora s - tiempo_llegada p))
             (map (fun p => redondear (ahora s - tiempo_llegada p)) resto)
  end.

Definition fase_retorna (tiempo_verde_total : Q) (s : Sim) : Res :=
  Bien (retornar PControlador (VQ tiempo_verde_total) (con_fase None s)).

Definition fase_bucle (tiempo_verde_total : Q) (extensiones : nat) (s : Sim) : Res :=
  if Qlt_le_dec tiempo_verde_total (g_max cfg) then
    let cola_actual_v := length (cola_vehiculos s) in
    let espera_max_p := obtener_espera_maxima_peatonal s in
    if Qlt_le_dec (w_max cfg) espera_max_p then
      fase_retorna tiempo_verde_total
        (registrar_decision cfg FIN_EXTENSION PRIORIDAD_PEATONAL
           (ValEspera espera_max_p (w_max cfg)) s)
    else if (Z.of_nat cola_actual_v <? t_v cfg)%Z then
      fase_retorna tiempo_verde_total
        (registrar_decision cfg FIN_EXTENSION COLA_VEHICULAR_BAJA
           (ValCola cola_actual_v (t_v cfg)) s)
    else if Qlt_le_dec (g_max cfg) (redondear (tiempo_verde_total + b_extension cfg)) then
      fase_retorna tiempo_verde_total
        (registrar_decision cfg FIN_EXTENSION MAXIMO_ALCANZADO
           (ValMaximo tiempo_verde_total (g_max cfg)) s)
    else
      let extensiones := S extensiones in
      let tiempo_verde_total := redondear (tiempo_verde_total + b_extension cfg) in
      let s := registrar_decision cfg EXTENSION ALTA_DEMANDA_VEHICULAR
                 (ValExtension extensiones tiempo_verde_total cola_actual_v) s in
      let s := registrar_evento cfg VERDE_VEHICULAR_EXTENSION (b_extension cfg)
                 (InfoExtension extensiones tiempo_verde_total) s in
      Bien (lanzar_atender Vehicular (b_extension cfg)
              (con_fase (Some (Fv_extension tiempo_verde_total extensiones)) s))
  else fase_retorna tiempo_verde_total s.

Definition fase_verde_vehicular_adaptativa (m : MarcoFase) (v : Valor) (s : Sim) : Res :=
  match m, v with
  | Fv_creado, VNone =>
      let tiempo_verde_total := g_min cfg in
      let s := registrar_evento cfg VERDE_VEHICULAR_INICIAL (g_min cfg)
                 (InfoExtension 0 (g_min cfg)) s in
      Bien (lanzar_atender Vehicular (g_min cfg)
              (con_fase (Some (Fv_inicial tiempo_verde_total)) s))
  | Fv_inicial tiempo_verde_total, VNat _ =>
      let extensiones := 0%nat in
      fase_bucle tiempo_verde_total extensiones s
  | Fv_extension tiempo_verde_total extensiones, VNat _ =>
      fase_bucle tiempo_verde_total extensiones s
  | _, _ => Mal RuntimeError
  end.

Definition debe_activar_fase_peatonal (s : Sim) : bool * Motivo :=
  let cola_p := length (cola_peatones s) in
  let espera_max_p := obtener_espera_maxima_peatonal s in
  if (t_p cfg <=? Z.of_nat cola_p)%Z then (true, COLA_PEATONAL_ALTA)
  else if Qlt_le_dec (w_max cfg) espera_max_p then (true, ESPERA_EXCESIVA)
  else if (0 <? cola_p)%nat then (true, HAY_PEATONES)
  else (false, SIN_PEATONES).

Definition adaptativo_ciclo (s : Sim) : Res :=
  let s := con_ciclo_numero (S (ciclo_numero s)) s in
  let s := con_fase_actual VERDE_VEHICULAR s in
  let s := registrar_estado_cola cfg s in
  Bien (env_process PFaseVerde
          (con_fase (Some Fv_creado) (con_controlador (C_adaptativo Ca_verde_v) s))).

Definition adaptativo_controlador (m : MarcoControlador) (v : Valor) (s : Sim) : Res :=
  match m, v with
  | C_creado, VNone => adaptativo_ciclo s
  | C_adaptativo Ca_verde_v, VQ tiempo_verde_vehicular =>
      let s := con_fase_actual AMARILLO_VEHICULAR s in
      let s := registrar_evento cfg AMARILLO_VEHICULAR (amarillo cfg) SinInfo s in
      env_timeout PControlador (amarillo cfg)
        (con_controlador (C_adaptativo (Ca_amarillo_v tiempo_verde_vehicular)) s)
  | C_adaptativo (Ca_amarillo_v tiempo_verde_vehicular), VNone =>
      let (activar_peatonal, motivo) := debe_activar_fase_peatonal s in
      if activar_peatonal then
        let s := con_fase_actual VERDE_PEATONAL s in
        let s := registrar_evento cfg VERDE_PEATONAL (g_p_fijo cfg) (InfoMotivo motivo) s in
        let s := registrar_estado_cola cfg s in
        Bien (lanzar_atender Peatonal (g_p_fijo cfg)
                (con_controlador (C_adaptativo (Ca_verde_p tiempo_verde_vehicular motivo)) s))
      else
        let s := registrar_decision cfg SALTAR_FASE_PEATONAL motivo
                   (ValColaP (length (cola_peatones s))) s in
        let s := registrar_estado_cola cfg s in
        adaptativo_ciclo s
  | C_adaptativo (Ca_verde_p tiempo_verde_vehicular motivo), VNat _ =>
      let s := con_fase_actual AMARILLO_PEATONAL s in
      let s := registrar_evento cfg AMARILLO_PEATONAL (amarillo cfg) SinInfo s in
      env_timeout PControlador (amarillo cfg)
        (con_controlador (C_adaptativo (Ca_amarillo_p tiempo_verde_vehicular motivo)) s)
  | C_adaptativo (Ca_amarillo_p _ _), VNone =>
      let s := registrar_estado_cola cfg s in
      adaptativo_ciclo s
  | _, _ => Mal RuntimeError
  end.

(** The run. *)
Definition iniciar_proceso (p : Pid) (s : Sim) : Res :=
  match p with
  | PGenV => generar_vehiculos_espera s
  | PGenP => generar_peatones_espera s
  | PMonitor => monitor s
  | PControlador =>
      match control cfg with
      | Fijo => fijo_controlador (m_controlador s) VNone s
      | Adaptativo => adaptativo_controlador (m_controlador s) VNone s
      end
  | PFaseVerde =>
      match m_fase s with
      | Some m => fase_verde_vehicular_adaptativa m VNone s
      | None => Mal RuntimeError
      end
  | PAtender =>
      match m_atender s with
      | Some m => atender m VNone s
      | None => Mal RuntimeError
      end
  end.

Definition reanudar_proceso (p : Pid) (v : Valor) (s : Sim) : Res :=
  match p with
  | PGenV => generar_vehiculos s
  | PGenP => generar_peatones s
  | PMonitor => monitor s
  | PControlador =>
      match control cfg with
      | Fijo => fijo_controlador (m_controlador s) v s
      | Adaptativo => adaptativo_controlador (m_controlador s) v s
      end
  | PFaseVerde =>
      match m_fase s with
      | Some m => fase_verde_vehicular_adaptativa m v s
      | None => Mal RuntimeError
      end
  | PAtender =>
      match m_atender s with
      | Some m => atender m v s
      | None => Mal RuntimeError
      end
  end.

Definition step (s : Sim) : Paso :=
  match heappop (agenda s) with
  | None => Lanza RuntimeError
  | Some (e, resto) =>
      let s := con_agenda resto (con_ahora (e_t e) s) in
      match e_acc e with
      | Detener => Parada s
      | Nada => Sigue s
      | Iniciar p =>
          match iniciar_proceso p s with
          | Bien s' => Sigue s'
          | Mal x => Lanza x
          end
      | Reanudar p v =>
          match reanudar_proceso p v s with
          | Bien s' => Sigue s'
          | Mal x => Lanza x
          end
      end
  end.

Definition estado_inicial : Sim :=
  let s := mkSim 0 0 [] 0 [] [] 0 0 VERDE_VEHICULAR 0 registros_vacios C_creado None None in
  let s := env_process PGenV s in
  let s := env_process PGenP s in
  let s := env_process PControlador s in
  if verbose cfg then env_process PMonitor s else s.

(** [env.run(until)]: the stop event is scheduled with the delay
    [at - self.now]. *)
Definition env_run_inicio (until : Q) (s : Sim) : Res :=
  if Qlt_le_dec (ahora s) until
  then Bien (schedule Detener URGENT (redondear (until - ahora s)) s)
  else Mal ValueError.

Fixpoint pasos (k : nat) (s : Sim) : option Sim :=
  match k with
  | O => Some s
  | S k =>
      match step s with
      | Sigue s' => pasos k s'
      | _ => None
      end
  end.

(** The state of the run after [k] events. *)
Definition estado_tras (k : nat) : Sim :=
  match env_run_inicio (tiempo_sim cfg) estado_inicial with
  | Bien s => match pasos k s with Some s' => s' | None => s end
  | Mal _ => estado_inicial
  end.

(** [k] steps taken while the service generator is alive. *)
Fixpoint servicio_en_curso (k : nat) (s : Sim) : option Sim :=
  match k with
  | O => Some s
  | S k =>
      match m_atender s with
      | None => None
      | Some _ =>
          match step s with
          | Sigue s' => servicio_en_curso k s'
          | _ => None
          end
      end
  end.

End Procesos.
End Doble.

(** The constant [q] of the source text as Python reads it. *)
Definition literal (q : Q) : Q := redondear_doble q.

(** *** C2 and C10 as they are stated *)

(** C2 as stated, on the exact run, for any configuration of the fixed
    controller: consecutive vehicle greens are a cycle apart. *)
Definition ciclo_fijo_siempre {az : Azar} : Prop :=
  forall cfg s r1 r2, control cfg = Fijo -> alcanzable cfg s ->
    In r1 (eventos_semaforo (registros s)) ->
    In r2 (eventos_semaforo (registros s)) ->
    ev_fase r1 = VERDE_VEHICULAR -> ev_fase r2 = VERDE_VEHICULAR ->
    ev_ciclo r2 = S (ev_ciclo r1) ->
    ev_tiempo r2 - ev_tiempo r1 == duracion_ciclo cfg.

(** C2 as stated, on the run of [cfg] computed with [fl]: one constant
    separates the vehicle greens of any two consecutive cycles. *)
Definition ciclo_fijo_constante_con {az : Azar} (fl : Redondeo) (cfg : Config) : Prop :=
  exists D, forall k r1 r2,
    In r1 (eventos_semaforo (registros (Doble.estado_tras cfg k))) ->
    In r2 (eventos_semaforo (registros (Doble.estado_tras cfg k))) ->
    ev_fase r1 = VERDE_VEHICULAR -> ev_fase r2 = VERDE_VEHICULAR ->
    ev_ciclo r2 = S (ev_ciclo r1) ->
    ev_tiempo r2 - ev_tiempo r1 == D.

(** C10 as stated, on the run of [cfg] computed with [fl]: a service
    generator created in the state after [k] events with [d >= 0] never sees
    the clock beyond [t0 + d] and returns at [t0 + d], whether the sum is
    taken exactly or as the program computes [tiempo_fin]. *)
Definition reloj_de_servicio_con {az : Azar} (fl : Redondeo) (cfg : Config) : Prop :=
  forall k j c d s,
    m_atender (Doble.estado_tras cfg k) = Some (At_creado c d) -> 0 <= d ->
    Doble.servicio_en_curso cfg j (Doble.estado_tras cfg k) = Some s ->
    (ahora s <= ahora (Doble.estado_tras cfg k) + d \/
     ahora s <= redondear (ahora (Doble.estado_tras cfg k) + d)) /\
    (m_atender s = None ->
     ahora s == ahora (Doble.estado_tras cfg k) + d \/
     ahora s == redondear (ahora (Doble.estado_tras cfg k) + d)).

(** A fixed controller with a vehicle green of -5 s. *)
Definition cfg_verde_negativo : Config :=
  mkConfig Fijo 30 (1#100) (1#100) (-5) 20 60 5 (1#2) 1 5 3 5 90 3 0 42 false.

(** A fixed controller with greens of 0.1 s and 0.2 s and an amber of 3 s;
    nobody arrives before the horizon. *)
Definition cfg_decimas : Config :=
  mkConfig Fijo 20 (literal (1#100)) (literal (1#100)) (literal (1#10)) 20 60 (literal (2#10))
           (1#2) 1 5 3 5 90 3 0 42 false.

(** A fixed controller with a vehicle green of 3.4 s; vehicles arrive at 0.5
    and 0.7, the first is served in 0.2 s from 1.0 on and the second draws a
    service of 100 s at 1.2. *)
Definition azar_apretado : Azar :=
  azar_de [literal (5#10); 1000; literal (2#10); 1000; literal (2#10); 100].

Definition cfg_apretado : Config :=
  mkConfig Fijo 10 1 1 (literal (34#10)) 20 60 5 1 1 5 3 5 90 3 0 42 false.

(** *** Two executions of one run *)

(** What two executions of a driver on the same arguments can differ in: the
    bound on the events processed, the state the [random] module is in when
    the driver is called, and the layout of the heap of pending events,
    which decides nothing as long as popping takes a least entry. *)

(** The [random] module of the interpreter: the seed it was last given and
    the number of draws made since. *)
Record Random : Type := mkRandom {
  semilla_random : Z;
  sorteos_random : nat
}.

(** [random.seed(semilla)]. *)
Definition random_seed (semilla : Z) (r : Random) : Random := mkRandom semilla 0.

(** A heap of pending events is any structure whose pop takes out an entry
    that no other entry is before, in the order of the tuples
    [(time, priority, eid)], and keeps the other entries. *)
Definition es_heappop (pop : list Evento -> option (Evento * list Evento)) : Prop :=
  pop [] = None /\
  forall l, l <> [] ->
    exists e r, pop l = Some (e, r) /\ Permutation l (e :: r) /\
                forall x, In x r -> clave_lt x e = false.

(** The list scanned from its other end is such a heap. *)
Definition heappop_rev (l : list Evento) : option (Evento * list Evento) :=
  heappop (rev l).

Section Ejecuciones.

Context {az : Azar}.
Variable cfg : Config.

(** [Environment.step] once [e] has left the heap, which keeps [resto]. *)
Definition procesar (e : Evento) (resto : list Evento) (s : Sim) : Paso :=
  let s := con_agenda resto (con_ahora (e_t e) s) in
  match e_acc e with
  | Detener => Parada s
  | Nada => Sigue s
  | Iniciar p =>
      match iniciar_proceso cfg p s with
      | Bien s' => Sigue s'
      | Mal x => Lanza x
      end
  | Reanudar p v =>
      match reanudar_proceso cfg p v s with
      | Bien s' => Sigue s'
      | Mal x => Lanza x
      end
  end.

Variable pop : list Evento -> option (Evento * list Evento).

Definition step_con (s : Sim) : Paso :=
  match pop (agenda s) with
  | None => Lanza RuntimeError
  | Some (e, resto) => procesar e resto s
  end.

Fixpoint env_run_bucle_con (n : nat) (s : Sim) : Final :=
  match n with
  | O => Pendiente s
  | S n =>
      match step_con s with
      | Sigue s' => env_run_bucle_con n s'
      | Parada s' => Completa s'
      | Lanza e => Falla e
      end
  end.

(** A driver called when the [random] module is in state [previo]: its
    first statement seeds the module, the run then reads the stream of
    [semilla cfg] from its first draw. *)
Definition simular_con (previo : Random) (n : nat) : Final :=
  let azar := random_seed (semilla cfg) previo in
  match env_run_inicio (tiempo_sim cfg)
          (con_sorteos (sorteos_random azar) (estado_inicial cfg)) with
  | Bien s => env_run_bucle_con n s
  | Mal e => Falla e
  end.

End Ejecuciones.

(** Two states that differ in the layout of the heap only. *)
Definition misma (s s' : Sim) : Prop :=
  Permutation (agenda s) (agenda s') /\ con_agenda [] s = con_agenda [] s'.

(** The entries of the heap have different [eid]s, all handed out already. *)
Definition eids_unicos (l : list Evento) (sig : nat) : Prop :=
  NoDup (map e_eid l) /\ forall x, In x l -> (e_eid x < sig)%nat.

(** * Properties *)

(** Rational arithmetic is left to [lra]; reduction never opens it. *)
#[global] Arguments Qplus : simpl never.
#[global] Arguments Qminus : simpl never.
#[global] Arguments Qmult : simpl never.
#[global] Arguments Qdiv : simpl never.
#[global] Arguments Qopp : simpl never.
#[global] Arguments Qinv : simpl never.
#[global] Arguments Qlt_le_dec : simpl never.
#[global] Arguments Qeq_dec : simpl never.
#[global] Arguments Qgeb : simpl never.
#[global] Arguments py_min : simpl never.
#[global] Arguments inject_Z : simpl never.
#[global] Arguments Z.of_nat : simpl never.

(** ** The heap *)

Lemma extraer_perm : forall l m m' r,
  extraer m l = (m', r) -> Permutation (m :: l) (m' :: r).
Proof.
  induction l as [|x l IH]; intros m m' r H; simpl in H.
  - inversion H; subst. apply Permutation_refl.
  - destruct (clave_lt x m).
    + destruct (extraer x l) as [m1 r1] eqn:E. inversion H; subst.
      apply IH in E.
      eapply Permutation_trans; [apply perm_skip, E|]. apply perm_swap.
    + destruct (extraer m l) as [m1 r1] eqn:E. inversion H; subst.
      apply IH in E.
      eapply Permutation_trans; [apply perm_swap|].
      eapply Permutation_trans; [apply perm_skip, E|]. apply perm_swap.
Qed.

Lemma clave_lt_tiempo : forall x y, clave_lt x y = true -> e_t x <= e_t y.
Proof.
  intros x y. unfold clave_lt.
  destruct (Qlt_le_dec (e_t x) (e_t y)); [intros _; lra|].
  destruct (Qlt_le_dec (e_t y) (e_t x)); [discriminate|]. intros _; lra.
Qed.

Lemma clave_ge_tiempo : forall x y, clave_lt x y = false -> e_t y <= e_t x.
Proof.
  intros x y. unfold clave_lt.
  destruct (Qlt_le_dec (e_t x) (e_t y)); [discriminate|]. intros _; lra.
Qed.

(** The entry taken out is no later than any entry left. *)
Lemma extraer_min : forall l m m' r,
  extraer m l = (m', r) ->
  e_t m' <= e_t m /\ forall x, In x r -> e_t m' <= e_t x.
Proof.
  induction l as [|x l IH]; intros m m' r H; simpl in H.
  - inversion H; subst. split; [lra|]. intros x [].
  - destruct (clave_lt x m) eqn:K.
    + destruct (extraer x l) as [m1 r1] eqn:E. inversion H; subst.
      apply IH in E. destruct E as [E1 E2]. apply clave_lt_tiempo in K.
      split; [lra|]. intros y [Hy|Hy]; [subst; lra|auto].
    + destruct (extraer m l) as [m1 r1] eqn:E. inversion H; subst.
      apply IH in E. destruct E as [E1 E2]. apply clave_ge_tiempo in K.
      split; [lra|]. intros y [Hy|Hy]; [subst; lra|auto].
Qed.

Lemma heappop_perm : forall l e r,
  heappop l = Some (e, r) -> Permutation l (e :: r).
Proof.
  intros [|m l] e r H; simpl in H; [discriminate|].
  inversion H. now apply extraer_perm.
Qed.

Lemma heappop_min : forall l e r,
  heappop l = Some (e, r) -> forall x, In x r -> e_t e <= e_t x.
Proof.
  intros [|m l] e r H; simpl in H; [discriminate|].
  inversion H as [E]. now apply extraer_min in E.
Qed.

Lemma heappop_in : forall l e r,
  heappop l = Some (e, r) -> In e l /\ forall x, In x r -> In x l.
Proof.
  intros l e r H. apply heappop_perm in H. split.
  - eapply Permutation_in; [apply Permutation_sym, H|]. now left.
  - intros x Hx. eapply Permutation_in; [apply Permutation_sym, H|]. now right.
Qed.

Lemma filter_perm : forall (A : Type) (f : A -> bool) (l l' : list A),
  Permutation l l' -> Permutation (filter f l) (filter f l').
Proof.
  intros A f l l' H. induction H; simpl.
  - constructor.
  - destruct (f x); auto.
  - destruct (f x), (f y); auto. apply perm_swap.
  - eapply Permutation_trans; eauto.
Qed.

(** When exactly one entry of the heap satisfies [f], popping either takes
    that entry and leaves none, or takes another and leaves it. *)
Lemma heappop_unico : forall (f : Evento -> bool) l e r x,
  heappop l = Some (e, r) ->
  filter f l = [x] ->
  (f e = true /\ e = x /\ filter f r = []) \/ (f e = false /\ filter f r = [x]).
Proof.
  intros f l e r x H F.
  apply heappop_perm in H. apply (filter_perm _ f) in H.
  rewrite F in H. simpl in H.
  destruct (f e) eqn:Fe.
  - left. apply Permutation_length_1_inv in H.
    inversion H; subst. auto.
  - right. split; auto. now apply Permutation_length_1_inv in H.
Qed.

(** ** Steps of the environment and steps of the thread *)

Ltac partir H :=
  repeat match type of H with
  | context [match ?x with _ => _ end] => destruct x eqn:?; try discriminate H
  | context [if ?x then _ else _] => destruct x eqn:?; try discriminate H
  end.

Ltac partir_cabeza H :=
  repeat (first
    [ match goal with c : Clase |- _ => destruct c end
    | match type of H with
      | (match ?x with _ => _ end) = _ => destruct x eqn:?; try discriminate H
      | (if ?x then _ else _) = _ => destruct x eqn:?; try discriminate H
      end ]; cbn in H).

Ltac desplegar H :=
  unfold reanuda_hilo, iniciar_proceso, reanudar_proceso,
    SemaforoFijo.controlador, SemaforoAdaptativo.controlador,
    SemaforoFijo.controlador_ciclo, SemaforoAdaptativo.controlador_ciclo,
    SemaforoAdaptativo.fase_verde_vehicular_adaptativa,
    SemaforoAdaptativo.fase_bucle, SemaforoAdaptativo.fase_retorna,
    SemaforoFijo.atender_vehiculos, SemaforoFijo.atender_peatones,
    SemaforoAdaptativo.atender_vehiculos, SemaforoAdaptativo.atender_peatones,
    atender, atender_bucle, lanzar_atender, expovariate, env_timeout in H.

Ltac descomponer :=
  repeat match goal with
         | H : _ /\ _ |- _ => destruct H
         | H : exists _, _ |- _ => destruct H
         | H : False |- _ => destruct H
         | H : [_] = [_] |- _ => injection H as H; try subst
         end.

(** All the ways the thread can move: the state is opened, the event and the
    frames are analysed, and the new state replaces [s']. *)
Ltac hilo_casos s Hh :=
  let e := fresh "e" in let r := fresh "r" in
  let Hp := fresh "Hp" in let Hx := fresh "Hx" in
  let He := fresh "He" in let Hr := fresh "Hr" in
  let Ht := fresh "Ht" in let Hm := fresh "Hm" in let Hre := fresh "Hre" in
  let p := fresh "p" in let v := fresh "v" in let Ea := fresh "Ea" in
  destruct Hh as (e & r & Hp & Hx & He & Hr & Ht & Hm & Hre);
  unfold es_hilo in He; unfold reanuda_hilo in Hre;
  destruct (e_acc e) as [p|p v| |] eqn:Ea; try discriminate He;
  destruct p; try discriminate He; clear He;
  destruct s; cbn in *;
  desplegar Hre; cbn in Hre; partir_cabeza Hre;
  injection Hre as <-;
  unfold padre_atender; cbn;
  repeat match goal with
         | m : option MarcoFase |- context [match ?x with _ => _ end] =>
             constr_eq x m; destruct m; cbn
         end.

(** The frames left abstract by the step are opened in invariant [H]. *)
Ltac abrir_marcos H :=
  cbn in H;
  repeat (match type of H with
          | context [match ?x with _ => _ end] => is_var x; destruct x
          end; cbn in H).

Ltac futura :=
  let y := fresh "y" in let Hy := fresh "Hy" in
  intros y; cbn; intros Hy;
  repeat (destruct Hy as [<-|Hy]; [cbn; lra|]); first [contradiction | auto].

Ltac resultado H G :=
  match type of H with
  | match ?r with Bien _ => _ | Mal _ => _ end = Sigue _ =>
      destruct r eqn:G; [|discriminate H]; injection H as <-
  | Sigue _ = Sigue _ => injection H as <-
  end.

Section Pasos.

Context {az : Azar}.
Variable cfg : Config.

(** Every step is a step of the environment or a step of the thread. *)
Lemma paso_casos : forall s s' x,
  agenda_futura s ->
  filter es_hilo (agenda s) = [x] ->
  step cfg s = Sigue s' ->
  (entorno s s' /\ agenda_futura s') \/ paso_hilo cfg s s'.
Proof.
  intros s s' x Hf Hx H. unfold step in H.
  destruct (heappop (agenda s)) as [[e r]|] eqn:Hp; [|discriminate].
  assert (Ht : ahora s <= e_t e) by (apply Hf; now apply heappop_in in Hp).
  assert (Hm := heappop_min _ _ _ Hp).
  destruct (heappop_unico es_hilo _ _ _ _ Hp Hx) as [(Fe & -> & Fr)|(Fe & Fr)].
  - right. exists x, r. repeat split; auto.
    unfold reanuda_hilo. unfold es_hilo in Fe.
    destruct (e_acc x); try discriminate.
    + destruct (iniciar_proceso cfg p _); [congruence|discriminate].
    + destruct (reanudar_proceso cfg p v _); [congruence|discriminate].
  - left.
    unfold es_hilo in Fe. unfold agenda_futura in *.
    destruct s; cbn in *.
    destruct (e_acc e) as [p|p v| |] eqn:Ea; try discriminate;
      [destruct p; try discriminate; cbn in H; resultado H G
      |destruct p; try discriminate; cbn in H; resultado H G
      |injection H as <-];
      try (unfold generar_vehiculos, generar_peatones, generar_vehiculos_espera,
             generar_peatones_espera, monitor, expovariate, env_timeout in G;
           cbn in G; partir G; injection G as <-);
      (split;
       [constructor; cbn; rewrite ?Fr, ?Hx; auto;
        try (destruct (Qgeb _ _); reflexivity);
        try (exists []; rewrite app_nil_r; now auto);
        try (eexists; split; [reflexivity|]; constructor; now auto)
       |intros y; cbn; intros Hy;
        repeat (destruct Hy as [<-|Hy]; [cbn; lra|]); auto]).
Qed.

End Pasos.

Lemma py_min_le_r : forall a b, py_min a b <= b.
Proof. intros a b. unfold py_min. destruct (Qlt_le_dec b a); lra. Qed.

Lemma py_min_le_l : forall a b, py_min a b <= a.
Proof. intros a b. unfold py_min. destruct (Qlt_le_dec b a); lra. Qed.

Lemma py_min_pos : forall a b, 0 < a -> 0 < b -> 0 < py_min a b.
Proof. intros a b. unfold py_min. destruct (Qlt_le_dec b a); lra. Qed.

Lemma filtro_unico_in : forall (f : Evento -> bool) l x,
  filter f l = [x] -> In x l.
Proof.
  intros f l x H.
  assert (I : In x (filter f l)) by (rewrite H; now left).
  now apply filter_In in I.
Qed.

Section InvarianteHilo.

Context {az : Azar}.
Variable cfg : Config.

Lemma inv_hilo_inicio : forall s,
  env_run_inicio (tiempo_sim cfg) (estado_inicial cfg) = Bien s -> inv_hilo cfg s.
Proof.
  intros s H. unfold env_run_inicio, estado_inicial in H.
  destruct (verbose cfg); cbn in H;
    (destruct (Qlt_le_dec 0 (tiempo_sim cfg)); [|discriminate]);
    injection H as <-; unfold inv_hilo, forma_hilo, agenda_futura; cbn;
    (split; [futura|]); (split; [exact I|]);
    eexists; (split; [reflexivity|]); reflexivity.
Qed.

Lemma inv_hilo_entorno : forall s s',
  inv_hilo cfg s -> entorno s s' -> agenda_futura s' -> inv_hilo cfg s'.
Proof.
  intros s s' (Hf & Hm & x & Hx & Hfo) E Hf'.
  split; [assumption|]. split; [now rewrite (ent_controlador _ _ E)|].
  exists x. split; [now rewrite (ent_hilo _ _ E)|].
  assert (Hin : In x (agenda s')).
  { apply (filtro_unico_in es_hilo). now rewrite (ent_hilo _ _ E). }
  assert (Hin0 : In x (agenda s)) by now apply (filtro_unico_in es_hilo).
  apply Hf' in Hin. apply Hf in Hin0. pose proof (ent_ahora _ _ E) as Ha.
  unfold forma_hilo, lugar_atender in *.
  rewrite (ent_atender _ _ E), (ent_fase _ _ E), (ent_controlador _ _ E).
  destruct (m_atender s) as [m|]; [|assumption].
  destruct Hfo as [Hfo Hl]. split; [|assumption].
  destruct m; cbn in *; intuition lra.
Qed.

Lemma inv_hilo_paso : forall s s',
  inv_hilo cfg s -> paso_hilo cfg s s' -> inv_hilo cfg s'.
Proof.
  intros s s' (Hf & Hmo & x & Hxx & Hfo) Hh.
  unfold inv_hilo, forma_hilo, lugar_atender, agenda_futura,
    forma_atender, forma_fase, forma_controlador, modo_ok in *.
  hilo_casos s Hh.
  all: rewrite Hx in Hxx; injection Hxx as <-.
  all: abrir_marcos Hfo.
  all: cbn in *; descomponer; subst; try congruence.
  all: (split; [futura|]).
  all: (split; [cbn; auto|]).
  all: cbn; rewrite ?Hr; eexists; (split; [reflexivity|]); cbn.
  all: try match goal with
           | |- context [py_min ?a ?b] => pose proof (py_min_le_r a b)
           end.
  all: try solve [intuition (eauto; try lra)].
Qed.

Lemma alcanzable_inv_hilo : forall s, alcanzable cfg s -> inv_hilo cfg s.
Proof.
  intros s H. induction H as [s H|s s' H IH Hs].
  - now apply inv_hilo_inicio.
  - destruct IH as (Hf & Hm & x & Hx & Hfo).
    destruct (paso_casos cfg s s' x Hf Hx Hs) as [[E Hf']|Hh].
    + eapply inv_hilo_entorno; eauto. repeat split; eauto.
    + eapply inv_hilo_paso; eauto. repeat split; eauto.
Qed.

(** Proving an invariant of the reachable states: at the start, across a
    step of the environment, across a step of the thread. *)
Lemma alcanzable_invariante : forall P : Sim -> Prop,
  (forall s, env_run_inicio (tiempo_sim cfg) (estado_inicial cfg) = Bien s -> P s) ->
  (forall s s', inv_hilo cfg s -> inv_hilo cfg s' -> P s -> entorno s s' -> P s') ->
  (forall s s', inv_hilo cfg s -> inv_hilo cfg s' -> P s -> paso_hilo cfg s s' -> P s') ->
  forall s, alcanzable cfg s -> P s.
Proof.
  intros P H0 He Hh s H. induction H as [s H|s s' H IH Hs]; [auto|].
  pose proof (alcanzable_inv_hilo s H) as Hi.
  assert (Hi' : inv_hilo cfg s').
  { apply alcanzable_inv_hilo. eapply alc_paso; eauto. }
  destruct Hi as (Hf & Hm & x & Hx & Hfo).
  assert (Hi : inv_hilo cfg s) by (repeat split; eauto).
  destruct (paso_casos cfg s s' x Hf Hx Hs) as [[E Hf']|Hp]; eauto.
Qed.

End InvarianteHilo.

(** ** The clock during a call of the service generator *)

Section RelojServicio.

Context {az : Azar}.
Variable cfg : Config.

Lemma reloj_servicio_cota : forall t0 d s,
  0 <= d -> inv_hilo cfg s -> reloj_servicio t0 d s -> ahora s <= t0 + d.
Proof.
  intros t0 d s Hd (Hf & _ & x & Hx & Hfo) H.
  apply filtro_unico_in in Hx. apply Hf in Hx.
  unfold reloj_servicio, forma_hilo in *.
  destruct (m_atender s) as [m|]; [|lra].
  destruct Hfo as [Hfo _]. destruct m; cbn in *; intuition lra.
Qed.

Lemma reloj_servicio_entorno : forall t0 d s s',
  inv_hilo cfg s -> inv_hilo cfg s' -> entorno s s' -> m_atender s <> None ->
  reloj_servicio t0 d s -> reloj_servicio t0 d s'.
Proof.
  intros t0 d s s' (Hf & _ & x & Hx & Hfo) (Hf' & _ & x' & Hx' & Hfo') E Hn H.
  rewrite (ent_hilo _ _ E), Hx in Hx'. injection Hx' as <-.
  unfold reloj_servicio, forma_hilo in *.
  rewrite (ent_atender _ _ E) in *.
  destruct (m_atender s) as [m|]; [|congruence].
  destruct m; cbn in *; intuition lra.
Qed.

Lemma reloj_servicio_paso : forall t0 d s s',
  0 <= d -> inv_hilo cfg s -> paso_hilo cfg s s' -> m_atender s <> None ->
  reloj_servicio t0 d s -> reloj_servicio t0 d s'.
Proof.
  intros t0 d s s' Hd (Hf & Hmo & x & Hxx & Hfo) Hh Hn H.
  unfold reloj_servicio, inv_hilo, forma_hilo, lugar_atender, agenda_futura,
    forma_atender, forma_fase, forma_controlador, modo_ok in *.
  hilo_casos s Hh.
  all: rewrite Hx in Hxx; injection Hxx as <-.
  all: abrir_marcos Hfo.
  all: cbn in *; descomponer; subst; try congruence.
  all: try lra.
Qed.

Lemma reloj_servicio_curso : forall t0 d, 0 <= d ->
  forall k s1 s, alcanzable cfg s1 -> reloj_servicio t0 d s1 ->
  servicio_en_curso cfg k s1 = Some s ->
  alcanzable cfg s /\ reloj_servicio t0 d s.
Proof.
  intros t0 d Hd. induction k as [|k IH]; intros s1 s Ha R Hk; cbn in Hk.
  - injection Hk as <-. auto.
  - destruct (m_atender s1) as [m|] eqn:Em; [|discriminate].
    destruct (step cfg s1) as [s2| |] eqn:Es; try discriminate.
    assert (Ha2 : alcanzable cfg s2) by (eapply alc_paso; eauto).
    apply (IH s2); auto.
    pose proof (alcanzable_inv_hilo cfg _ Ha) as Hi.
    pose proof (alcanzable_inv_hilo cfg _ Ha2) as Hi2.
    destruct Hi as (Hf & Hm & x & Hx & Hfo).
    assert (Hi : inv_hilo cfg s1) by (repeat split; eauto).
    destruct (paso_casos cfg s1 s2 x Hf Hx Es) as [[E Hf']|Hp].
    + eapply reloj_servicio_entorno; eauto. congruence.
    + eapply reloj_servicio_paso; eauto. congruence.
Qed.

End RelojServicio.

(** ** The schedule of the fixed controller *)

Lemma inicio_ciclo_S : forall cfg c,
  inicio_ciclo cfg (S c) == inicio_ciclo cfg c + duracion_ciclo cfg.
Proof.
  intros cfg c. unfold inicio_ciclo.
  rewrite Nat2Z.inj_succ. unfold Z.succ. rewrite inject_Z_plus.
  change (inject_Z 1) with 1. ring.
Qed.

Lemma inicio_ciclo_1 : forall cfg, inicio_ciclo cfg 1 == 0.
Proof.
  intros cfg. unfold inicio_ciclo. change (inject_Z (Z.of_nat 1)) with 1. ring.
Qed.

(** Membership in a list of [registros] after the guarded appends of a step. *)
Ltac en_registros Hin :=
  repeat match type of Hin with
         | context [if ?c then _ else _] => destruct c
         end;
  cbn in Hin; rewrite ?in_app_iff in Hin; cbn in Hin.

Section HorarioFijo.

Context {az : Azar}.
Variable cfg : Config.

Lemma horario_fijo_inicio : forall s,
  env_run_inicio (tiempo_sim cfg) (estado_inicial cfg) = Bien s -> horario_fijo cfg s.
Proof.
  intros s H. unfold env_run_inicio, estado_inicial in H.
  destruct (verbose cfg); cbn in H;
    (destruct (Qlt_le_dec 0 (tiempo_sim cfg)); [|discriminate]);
    injection H as <-; unfold horario_fijo; cbn;
    (split; [intros x Hx; injection Hx as <-; cbn; split; [reflexivity|lra]
            |intros r []]).
Qed.

Lemma horario_fijo_entorno : forall s s',
  inv_hilo cfg s -> inv_hilo cfg s' -> horario_fijo cfg s -> entorno s s' ->
  horario_fijo cfg s'.
Proof.
  intros s s' _ _ [H1 H2] E. split.
  - intros x Hx. rewrite (ent_hilo _ _ E) in Hx. specialize (H1 x Hx).
    rewrite (ent_controlador _ _ E), (ent_atender _ _ E), (ent_ciclo _ _ E).
    exact H1.
  - rewrite (ent_eventos _ _ E). exact H2.
Qed.

Lemma horario_fijo_paso : forall s s',
  control cfg = Fijo -> 0 <= g_v_fijo cfg -> 0 <= g_p_fijo cfg ->
  inv_hilo cfg s -> inv_hilo cfg s' -> horario_fijo cfg s -> paso_hilo cfg s s' ->
  horario_fijo cfg s'.
Proof.
  intros s s' Hfijo Hgv Hgp (Hf & Hmo & x & Hxx & Hfo) _ [H1 H2] Hh.
  specialize (H1 x Hxx).
  unfold horario_fijo, inv_hilo, forma_hilo, lugar_atender, agenda_futura,
    forma_atender, forma_fase, forma_controlador, modo_ok in *.
  hilo_casos s Hh.
  all: rewrite Hx in Hxx; injection Hxx as <-.
  all: abrir_marcos Hfo.
  all: cbn in *; descomponer; subst; try congruence.
  all: pose proof (inicio_ciclo_1 cfg) as Hi1.
  all: try match goal with
           | |- context [inicio_ciclo cfg (S ?c)] => pose proof (inicio_ciclo_S cfg c)
           end.
  all: unfold duracion_ciclo in *.
  all: (split; [intros x' Hx'; rewrite ?Hr in Hx'; cbn in Hx'; injection Hx' as <-; cbn;
                try lra; try (split; [reflexivity|lra])
               |intros r0 Hin; en_registros Hin; intuition (subst; cbn; auto; lra)]).
Qed.

Lemma alcanzable_horario_fijo : forall s,
  control cfg = Fijo -> 0 <= g_v_fijo cfg -> 0 <= g_p_fijo cfg ->
  alcanzable cfg s -> horario_fijo cfg s.
Proof.
  intros s Hfijo Hgv Hgp Ha. revert s Ha.
  apply (alcanzable_invariante cfg (horario_fijo cfg)).
  - exact horario_fijo_inicio.
  - intros s s' Hi Hi' H E. exact (horario_fijo_entorno s s' Hi Hi' H E).
  - intros s s' Hi Hi' H E. exact (horario_fijo_paso s s' Hfijo Hgv Hgp Hi Hi' H E).
Qed.

End HorarioFijo.

(** ** The cumulative green of the adaptive controller *)

Lemma verde_tras_S : forall cfg n,
  verde_tras cfg (S n) == verde_tras cfg n + b_extension cfg.
Proof.
  intros cfg n. unfold verde_tras.
  rewrite Nat2Z.inj_succ. unfold Z.succ. rewrite inject_Z_plus.
  change (inject_Z 1) with 1. ring.
Qed.

Lemma verde_tras_0 : forall cfg, verde_tras cfg 0 == g_min cfg.
Proof. intros cfg. unfold verde_tras. change (inject_Z (Z.of_nat 0)) with 0. ring. Qed.

Lemma verde_tras_mono : forall cfg n,
  0 <= b_extension cfg -> g_min cfg <= verde_tras cfg n.
Proof.
  intros cfg n Hb. induction n as [|n IH].
  - rewrite verde_tras_0. lra.
  - rewrite verde_tras_S. lra.
Qed.

Section VerdeAdaptativo.
Context {az : Azar}.
Variable cfg : Config.

Lemma verde_acotado_inicio : forall s,
  env_run_inicio (tiempo_sim cfg) (estado_inicial cfg) = Bien s -> verde_acotado cfg s.
Proof.
  intros s H. unfold env_run_inicio, estado_inicial in H.
  destruct (verbose cfg); cbn in H;
    (destruct (Qlt_le_dec 0 (tiempo_sim cfg)); [|discriminate]);
    injection H as <-; unfold verde_acotado; cbn;
    (split; [exact I|split; [|exact I]]; intros x' tv Hx; injection Hx as <-; discriminate).
Qed.

Lemma verde_acotado_entorno : forall s s',
  inv_hilo cfg s -> inv_hilo cfg s' -> verde_acotado cfg s -> entorno s s' ->
  verde_acotado cfg s'.
Proof.
  intros s s' _ _ (H1 & H2 & H3) E. unfold verde_acotado.
  rewrite (ent_fase _ _ E), (ent_controlador _ _ E), (ent_hilo _ _ E). auto.
Qed.

Lemma verde_acotado_paso : forall s s',
  g_min cfg <= g_max cfg -> 0 <= b_extension cfg ->
  inv_hilo cfg s -> inv_hilo cfg s' -> verde_acotado cfg s -> paso_hilo cfg s s' ->
  verde_acotado cfg s'.
Proof.
  intros s s' Hg Hb (Hf & Hmo & x & Hxx & Hfo) _ (H1 & H2 & H3) Hh.
  specialize (H2 x).
  unfold verde_acotado, en_rango, inv_hilo, forma_hilo, lugar_atender, agenda_futura,
    forma_atender, forma_fase, forma_controlador, modo_ok in *.
  hilo_casos s Hh.
  all: rewrite Hx in Hxx; injection Hxx as <-.
  all: abrir_marcos Hfo.
  all: cbn in *; descomponer; subst; try congruence.
  all: try match goal with
           | |- context [verde_tras cfg (S ?c)] => pose proof (verde_tras_S cfg c)
           end.
  all: try match goal with
           | H : ?t == verde_tras cfg ?c |- _ => pose proof (verde_tras_mono cfg c Hb)
           end.
  all: pose proof (verde_tras_0 cfg).
  all: (split; [try exact I; try lra; try (split; lra)|split]).
  all: try (intros x' tv' Hx' Hv'; rewrite ?Hr in Hx'; cbn in Hx'; injection Hx' as <-; cbn in Hv';
        try discriminate; try (injection Hv' as <-); try lra; try (split; lra)).
  all: try exact I.
  all: try (split; lra).
  all: try exact (H2 _ Hx Ea).
Qed.

Lemma alcanzable_verde_acotado : forall s,
  g_min cfg <= g_max cfg -> 0 <= b_extension cfg ->
  alcanzable cfg s -> verde_acotado cfg s.
Proof.
  intros s Hg Hb Ha. revert s Ha.
  apply (alcanzable_invariante cfg (verde_acotado cfg)).
  - exact verde_acotado_inicio.
  - intros s s' Hi Hi' H E. exact (verde_acotado_entorno s s' Hi Hi' H E).
  - intros s s' Hi Hi' H E. exact (verde_acotado_paso s s' Hg Hb Hi Hi' H E).
Qed.

Lemma verde_tras_le : forall n m,
  0 <= b_extension cfg -> (n <= m)%nat -> verde_tras cfg n <= verde_tras cfg m.
Proof.
  intros n m Hb H. induction H as [|m H IH]; [lra|].
  rewrite verde_tras_S. lra.
Qed.

(** Between two multiples of the block there is no room for a partial one. *)
Lemma verde_tras_sin_hueco : forall n k,
  0 < b_extension cfg -> verde_tras cfg n < verde_tras cfg k ->
  verde_tras cfg n + b_extension cfg <= verde_tras cfg k.
Proof.
  intros n k Hb H.
  destruct (le_lt_dec k n) as [Hkn|Hnk].
  - apply (verde_tras_le k n) in Hkn; lra.
  - rewrite <- verde_tras_S. apply verde_tras_le; [lra|lia].
Qed.

Lemma debe_activar_falso : forall s m,
  SemaforoAdaptativo.debe_activar_fase_peatonal cfg s = (false, m) ->
  m = SIN_PEATONES /\ cola_peatones s = [].
Proof.
  intros s m H. unfold SemaforoAdaptativo.debe_activar_fase_peatonal in H.
  destruct (t_p cfg <=? _)%Z; [discriminate|].
  destruct (Qlt_le_dec _ _); [discriminate|].
  destruct (cola_peatones s); cbn in H; [|discriminate].
  injection H as <-. auto.
Qed.

Lemma sin_maximo_paso : forall s s' k,
  g_max cfg == verde_tras cfg k -> 0 < b_extension cfg ->
  inv_hilo cfg s -> verde_acotado cfg s -> sin_maximo s -> paso_hilo cfg s s' ->
  sin_maximo s'.
Proof.
  intros s s' k Hk Hb (Hf & Hmo & x & Hxx & Hfo) (H1 & _ & _) H Hh.
  unfold sin_maximo, verde_acotado, inv_hilo, forma_hilo, lugar_atender, agenda_futura,
    forma_atender, forma_fase, forma_controlador, modo_ok in *.
  hilo_casos s Hh.
  all: rewrite Hx in Hxx; injection Hxx as <-.
  all: abrir_marcos Hfo.
  all: cbn in *; descomponer; subst; try congruence.
  all: intros r0 Hin; en_registros Hin.
  all: try exact (H _ Hin).
  all: try (destruct Hin as [Hin|[<-|[]]]; [exact (H _ Hin)|cbn; try discriminate]).
  all: try (apply debe_activar_falso in Heqp; destruct Heqp as [-> _]; discriminate).
  all: exfalso.
  all: pose proof (verde_tras_0 cfg).
  all: try match goal with
           | H : ?t == verde_tras cfg ?c |- _ => pose proof (verde_tras_sin_hueco c k Hb)
           end.
  all: try pose proof (verde_tras_sin_hueco 0 k Hb).
  all: try lra.
Qed.
End VerdeAdaptativo.

Section SinMaximo.

Context {az : Azar}.
Variable cfg : Config.

(** When [g_max - g_min] is a whole number of blocks, the third test of the
    extension loop never succeeds: the [while] condition fails first. *)
Lemma alcanzable_sin_maximo : forall k s,
  g_max cfg == verde_tras cfg k -> 0 < b_extension cfg ->
  alcanzable cfg s -> sin_maximo s.
Proof.
  intros k s Hk Hb Ha.
  assert (Hg : g_min cfg <= g_max cfg).
  { rewrite Hk. apply verde_tras_mono. lra. }
  assert (G : verde_acotado cfg s /\ sin_maximo s); [|tauto].
  revert s Ha.
  apply (alcanzable_invariante cfg (fun s => verde_acotado cfg s /\ sin_maximo s)).
  - intros s H. split; [now apply verde_acotado_inicio|].
    unfold env_run_inicio, estado_inicial in H.
    destruct (verbose cfg); cbn in H;
      (destruct (Qlt_le_dec 0 (tiempo_sim cfg)); [|discriminate]);
      injection H as <-; intros r [].
  - intros s s' Hi Hi' [H1 H2] E. split.
    + exact (verde_acotado_entorno cfg s s' Hi Hi' H1 E).
    + unfold sin_maximo. rewrite (ent_decisiones _ _ E). exact H2.
  - intros s s' Hi Hi' [H1 H2] E. split.
    + apply (verde_acotado_paso cfg s s'); auto. lra.
    + exact (sin_maximo_paso cfg s s' k Hk Hb Hi H1 H2 E).
Qed.

End SinMaximo.

(** ** Runs from a reachable state *)

Lemma py_max_ge_inicial : forall l x, x <= py_max x l.
Proof.
  induction l as [|y l IH]; intros x; cbn; [lra|].
  destruct (Qlt_le_dec x y); [eapply Qle_trans; [|apply IH]; lra|apply IH].
Qed.

Lemma py_max_ge : forall l x y, In y l -> y <= py_max x l.
Proof.
  induction l as [|z l IH]; intros x y H; cbn; [destruct H|].
  destruct H as [<-|H].
  - destruct (Qlt_le_dec x z).
    + apply py_max_ge_inicial.
    + eapply Qle_trans; [|apply py_max_ge_inicial]. lra.
  - apply IH; assumption.
Qed.

Section Corridas.

Context {az : Azar}.
Variable cfg : Config.

Lemma espera_maxima_ge : forall s p,
  In p (cola_peatones s) ->
  ahora s - tiempo_llegada p <= SemaforoAdaptativo.obtener_espera_maxima_peatonal s.
Proof.
  intros s p H. unfold SemaforoAdaptativo.obtener_espera_maxima_peatonal.
  destruct (cola_peatones s) as [|q l]; [destruct H|].
  destruct H as [<-|H].
  - apply py_max_ge_inicial.
  - apply py_max_ge. apply in_map_iff. eauto.
Qed.

Lemma pasos_invariante : forall R : Sim -> Prop,
  (forall s s', inv_hilo cfg s -> inv_hilo cfg s' -> R s -> entorno s s' -> R s') ->
  (forall s s', inv_hilo cfg s -> inv_hilo cfg s' -> R s -> paso_hilo cfg s s' -> R s') ->
  forall k s s', alcanzable cfg s -> R s -> pasos cfg k s = Some s' ->
  alcanzable cfg s' /\ R s'.
Proof.
  intros R He Hh. induction k as [|k IH]; intros s s' Ha HR Hk; cbn in Hk.
  - injection Hk as <-. auto.
  - destruct (step cfg s) as [s2| |] eqn:Es; try discriminate.
    assert (Ha2 : alcanzable cfg s2) by (eapply alc_paso; eauto).
    apply (IH s2); auto.
    pose proof (alcanzable_inv_hilo cfg _ Ha) as Hi.
    pose proof (alcanzable_inv_hilo cfg _ Ha2) as Hi2.
    destruct Hi as (Hf & Hm & x & Hx & Hfo).
    assert (Hi : inv_hilo cfg s) by (repeat split; eauto).
    destruct (paso_casos cfg s s2 x Hf Hx Es) as [[E Hf']|Hp]; eauto.
Qed.

Lemma sin_mas_extension_entorno : forall c mf ext s s',
  inv_hilo cfg s -> inv_hilo cfg s' ->
  sin_mas_extension cfg c mf ext s -> entorno s s' ->
  sin_mas_extension cfg c mf ext s'.
Proof.
  intros c mf ext s s' _ _ (H1 & H2 & H3) E. unfold sin_mas_extension.
  rewrite (ent_decisiones _ _ E), (ent_ciclo _ _ E), (ent_fase _ _ E).
  split; [assumption|]. split; [assumption|].
  intros Hc. destruct (H3 Hc) as [[Hm (p & Hp & Hw)]|Hm]; [left|now right].
  split; [assumption|]. exists p.
  destruct (ent_cola_p _ _ E) as (n & -> & _).
  pose proof (ent_ahora _ _ E). split; [apply in_app_iff; now left|lra].
Qed.

Lemma sin_mas_extension_paso : forall c tv mf ext s s',
  mf = Some (Fv_inicial tv) \/ (exists n, mf = Some (Fv_extension tv n)) ->
  inv_hilo cfg s -> inv_hilo cfg s' ->
  sin_mas_extension cfg c mf ext s -> paso_hilo cfg s s' ->
  sin_mas_extension cfg c mf ext s'.
Proof.
  intros c tv mf ext s s' Hmf (Hf & Hmo & x & Hxx & Hfo) _ (H1 & H2 & H3) Hh.
  unfold sin_mas_extension, espera_excedida, inv_hilo, forma_hilo, lugar_atender,
    agenda_futura, forma_atender, forma_fase, forma_controlador, modo_ok in *.
  hilo_casos s Hh.
  all: rewrite Hx in Hxx; injection Hxx as <-.
  all: abrir_marcos Hfo.
  all: cbn in *; descomponer; subst; try congruence.
  all: try match goal with
           | q : SemaforoAdaptativo.obtener_espera_maxima_peatonal ?st <= _ |- _ =>
               assert (Hmax : forall p, In p (cola_peatones st) ->
                         ahora st - tiempo_llegada p <= w_max cfg)
                 by (intros p0 Hp0; pose proof (espera_maxima_ge st p0 Hp0); lra);
               cbn in Hmax
           end.
  all: (split; [|split; [lia|try (intros Hc; exfalso; lia)]]).
  all: try (repeat match goal with
             | |- context [if Qgeb ?a ?b then _ else _] => destruct (Qgeb a b)
             end; cbn; unfold extensiones_de; rewrite ?filter_app; cbn;
             rewrite ?app_nil_r; try reflexivity).
  all: try match goal with
           | |- context [(?a =? ?b)%nat] =>
               destruct (Nat.eqb_spec a b) as [Hc|Hc]; [exfalso|now rewrite app_nil_r]
           end.
  all: try (intros Hc).
  all: try (destruct (H3 Hc) as [[Hm' (p0 & Hp0 & Hw0)]|Hm']; try discriminate;
            try (destruct Hmf as [->|[n0 ->]]; discriminate);
            try (now right);
            try (left; split; [assumption|exists p0; split; [assumption|lra]]);
            try (specialize (Hmax p0 Hp0); lra)).
Qed.

Lemma bitacora_fases_inicio : forall s,
  env_run_inicio (tiempo_sim cfg) (estado_inicial cfg) = Bien s -> bitacora_fases s.
Proof.
  intros s H. unfold env_run_inicio, estado_inicial in H.
  destruct (verbose cfg); cbn in H;
    (destruct (Qlt_le_dec 0 (tiempo_sim cfg)); [|discriminate]);
    injection H as <-; intros r [].
Qed.

Lemma bitacora_fases_entorno : forall s s',
  inv_hilo cfg s -> inv_hilo cfg s' -> bitacora_fases s -> entorno s s' ->
  bitacora_fases s'.
Proof.
  intros s s' _ _ H E. unfold bitacora_fases.
  rewrite (ent_eventos _ _ E), (ent_ciclo _ _ E), (ent_controlador _ _ E). exact H.
Qed.

Lemma bitacora_fases_paso : forall s s',
  inv_hilo cfg s -> inv_hilo cfg s' -> bitacora_fases s -> paso_hilo cfg s s' ->
  bitacora_fases s'.
Proof.
  intros s s' (Hf & Hmo & x & Hxx & Hfo) _ H Hh.
  unfold bitacora_fases, es_fase_peatonal, en_fase_peatonal, inv_hilo, forma_hilo,
    lugar_atender, agenda_futura, forma_atender, forma_fase, forma_controlador,
    modo_ok in *.
  hilo_casos s Hh.
  all: rewrite Hx in Hxx; injection Hxx as <-.
  all: abrir_marcos Hfo.
  all: cbn in *; descomponer; subst; try congruence.
  all: intros r0 Hin; en_registros Hin.
  all: try (destruct (H _ Hin) as [Hle Hpe]; split; [lia|intros Hc Hp'; try lia; auto]).
  all: try (destruct Hin as [Hin|[<-|[]]];
            [destruct (H _ Hin) as [Hle Hpe]; split; [lia|intros Hc Hp'; try lia; auto]
            |cbn; split; [lia|intros Hc Hp'; try lia; auto;
                          try (destruct Hp'; discriminate)]]).
Qed.

Lemma alcanzable_bitacora_fases : forall s, alcanzable cfg s -> bitacora_fases s.
Proof.
  apply (alcanzable_invariante cfg bitacora_fases).
  - exact bitacora_fases_inicio.
  - exact bitacora_fases_entorno.
  - exact bitacora_fases_paso.
Qed.

(** A step of the thread never lowers the cycle counter, and stamps what it
    adds to the phase log with the counter it leaves. *)
Lemma paso_hilo_eventos : forall s s',
  paso_hilo cfg s s' ->
  (ciclo_numero s <= ciclo_numero s')%nat /\
  forall r, In r (eventos_semaforo (registros s')) ->
    In r (eventos_semaforo (registros s)) \/ ev_ciclo r = ciclo_numero s'.
Proof.
  intros s s' Hh.
  hilo_casos s Hh.
  all: (split; [lia|]).
  all: intros r0 Hin; en_registros Hin; tauto || (intuition (subst; cbn; auto)).
Qed.

End Corridas.

(** ** Order of service within one call of the service generator *)

Lemma creciente_app : forall l1 l2,
  creciente (l1 ++ l2) <->
  creciente l1 /\ creciente l2 /\ forall x y, In x l1 -> In y l2 -> x <= y.
Proof.
  induction l1 as [|a l1 IH]; intros l2; cbn.
  - intuition.
  - rewrite IH. split.
    + intros (H1 & H2 & H3 & H4). repeat split; auto.
      * intros y Hy. apply H1. apply in_app_iff. auto.
      * intros x y [<-|Hx] Hy; [apply H1; apply in_app_iff; auto|auto].
    + intros ((H1 & H2) & H3 & H4). repeat split; auto.
      intros y Hy. apply in_app_iff in Hy. destruct Hy; auto.
Qed.

Lemma creciente_cota : forall l t t',
  (forall x, In x l -> x <= t) -> t <= t' -> forall x, In x l -> x <= t'.
Proof. intros l t t' H Ht x Hx. apply H in Hx. lra. Qed.

(** Agents stamped with the current time keep an ordered line ordered. *)
Lemma creciente_llegan : forall l (n : list Agente) t,
  creciente l -> (forall x, In x l -> x <= t) ->
  Forall (fun a => tiempo_llegada a = t) n ->
  creciente (l ++ map tiempo_llegada n) /\
  forall x, In x (l ++ map tiempo_llegada n) -> x <= t.
Proof.
  intros l n t Hc Hl Hn.
  assert (Hn' : forall y, In y (map tiempo_llegada n) -> y = t).
  { intros y Hy. apply in_map_iff in Hy. destruct Hy as (a & <- & Ha).
    rewrite Forall_forall in Hn. auto. }
  split.
  - apply creciente_app. repeat split; auto.
    + clear Hn. induction n as [|a n IH]; cbn; [exact I|]. split.
      * intros y Hy. rewrite (Hn' (tiempo_llegada a)) by now left.
        rewrite (Hn' y) by now right. lra.
      * apply IH. intros y Hy. apply Hn'. now right.
    + intros x y Hx Hy. rewrite (Hn' y Hy). auto.
  - intros x Hx. apply in_app_iff in Hx. destruct Hx as [Hx|Hx]; auto.
    rewrite (Hn' x Hx). lra.
Qed.

Section OrdenDeServicio.

Context {az : Azar}.
Variable cfg : Config.

Lemma fcfs_en_curso_entorno : forall c base s s',
  inv_hilo cfg s -> inv_hilo cfg s' -> m_atender s <> None ->
  fcfs_en_curso c base s -> entorno s s' -> fcfs_en_curso c base s'.
Proof.
  intros c base s s' Hi Hi' Hn (nuevos & H1 & H2 & H3 & H4) E.
  exists nuevos.
  assert (Hs : servicios_de c (registros s') = servicios_de c (registros s)).
  { destruct c; cbn; [apply (ent_serv_v _ _ E)|apply (ent_serv_p _ _ E)]. }
  rewrite Hs. split; [assumption|]. split; [assumption|].
  rewrite (ent_atender _ _ E). split; [assumption|].
  intros x Hx. rewrite (ent_hilo _ _ E) in Hx. specialize (H4 x Hx).
  pose proof (ent_ahora _ _ E) as Hah.
  assert (Hq : exists n, cola_de c s' = cola_de c s ++ n /\
                         Forall (fun a => tiempo_llegada a = ahora s') n).
  { destruct c; cbn; [apply (ent_cola_v _ _ E)|apply (ent_cola_p _ _ E)]. }
  destruct Hq as (n & Hq & Hn').
  unfold en_curso in *. rewrite (ent_atender _ _ E).
  destruct (m_atender s) as [m|]; [|congruence].
  destruct H4 as [H4 H5].
  assert (G : forall l, creciente (l ++ map tiempo_llegada (cola_de c s)) /\
              (forall t, In t (l ++ map tiempo_llegada (cola_de c s)) -> t <= ahora s) ->
              creciente (l ++ map tiempo_llegada (cola_de c s')) /\
              (forall t, In t (l ++ map tiempo_llegada (cola_de c s')) -> t <= ahora s')).
  { intros l [G1 G2]. rewrite Hq, map_app, app_assoc.
    apply creciente_llegan; auto. intros y Hy. apply G2 in Hy. lra. }
  destruct m; cbn in *;
    (split; [try (intros r Hr; specialize (H4 r Hr); lra); try assumption|]);
    try assumption.
  - apply (G (map sv_tiempo_llegada nuevos)). exact H5.
  - apply (G (map sv_tiempo_llegada nuevos)). exact H5.
  - pose proof (G (map sv_tiempo_llegada nuevos ++ llegada_en x)) as G'.
    rewrite <- !app_assoc in G'. apply G'. exact H5.
  - pose proof (G (map sv_tiempo_llegada nuevos ++ [tiempo_llegada agente])) as G'.
    rewrite <- !app_assoc in G'. apply G'. exact H5.
Qed.

Lemma creciente_quita : forall l1 x l2,
  creciente (l1 ++ x :: l2) -> creciente (l1 ++ l2).
Proof.
  intros l1 x l2 H. apply creciente_app in H. destruct H as (H1 & [H2 H3] & H4).
  apply creciente_app. repeat split; auto. intros a b Ha Hb. apply H4; auto. now right.
Qed.

Lemma creciente_izq : forall l1 l2, creciente (l1 ++ l2) -> creciente l1.
Proof. intros l1 l2 H. apply creciente_app in H. tauto. Qed.

Lemma creciente_snoc : forall l x,
  creciente l -> (forall y, In y l -> y <= x) -> creciente (l ++ [x]).
Proof.
  intros l x H1 H2. apply creciente_app. repeat split; auto.
  - intros y [].
  - intros a b Ha [<-|[]]. auto.
Qed.

Lemma creciente_prefijo : forall l1 x l2,
  creciente (l1 ++ x :: l2) -> creciente (l1 ++ [x]).
Proof.
  intros l1 x l2 H. apply creciente_app in H. destruct H as (H1 & [H2 H3] & H4).
  apply creciente_snoc; auto. intros y Hy. apply H4; auto. now left.
Qed.

Lemma fcfs_en_curso_paso : forall c base s s',
  inv_hilo cfg s -> inv_hilo cfg s' -> m_atender s <> None ->
  fcfs_en_curso c base s -> paso_hilo cfg s s' -> fcfs_en_curso c base s'.
Proof.
  intros c base s s' (Hf & Hmo & x & Hxx & Hfo) _ Hn (nuevos & H1 & H2 & H3 & H4) Hh.
  specialize (H4 x Hxx).
  unfold fcfs_en_curso, en_curso, llegada_en, inv_hilo, forma_hilo, lugar_atender,
    agenda_futura, forma_atender, forma_fase, forma_controlador, modo_ok in *.
  hilo_casos s Hh.
  all: rewrite Hx in Hxx; injection Hxx as <-.
  all: abrir_marcos Hfo.
  all: cbn in *; descomponer; subst; try congruence.
  all: try match goal with
           | H : forall m, Some ?m0 = Some m -> _ = _ |- _ =>
               pose proof (H _ eq_refl) as Hcl; cbn in Hcl; try discriminate Hcl;
               clear H Hcl
           end.
  all: rewrite ?app_nil_r in *.
  all: try (rewrite Ea in *; cbn in * ).
  all: try match goal with
           | |- context [if Qgeb ?a ?b then _ else _] => destruct (Qgeb a b); cbn
           end.
  all: first [ exists nuevos; split; [assumption|]
             | eexists (nuevos ++ [_]); split; [rewrite H1, <- app_assoc; reflexivity|] ].
  all: rewrite ?map_app; cbn [map app].
  all: (split; [try assumption|split; [intros m' Hm'; first [discriminate Hm' | injection Hm' as <-; reflexivity]|]]).
  all: try (intros m' Hm'; discriminate).
  all: try (intros x' Hx'; rewrite ?Hr in Hx'; injection Hx' as <-; cbn).
  all: rewrite ?app_nil_r in *.
  all: rewrite <- ?app_assoc in *; cbn [app] in *.
  all: repeat match goal with |- _ /\ _ => split end.
  all: try lra.
  all: try match goal with
           | |- forall r, In r _ -> sv_tiempo_inicio_servicio r <= _ =>
               let r0 := fresh "r" in let Hr0 := fresh "Hr" in
               intros r0 Hr0; try (apply in_app_iff in Hr0; destruct Hr0 as [Hr0|[<-|[]]]; cbn; [|lra]);
               match goal with Hb : forall r, In r _ -> sv_tiempo_inicio_servicio r <= _ |- _ => specialize (Hb _ Hr0); lra end
           | |- forall t, In t _ -> t <= _ =>
               let t0 := fresh "t" in let Ht0 := fresh "Ht" in
               intros t0 Ht0;
               match goal with Hb : forall t, In t ?L -> t <= _ |- _ =>
                 assert (Hin0 : In t0 L) by (rewrite ?in_app_iff in *; cbn in *; tauto);
                 specialize (Hb _ Hin0); lra end
           | |- creciente (map sv_tiempo_inicio_servicio _ ++ _) =>
               apply creciente_snoc; [assumption|];
               let y := fresh "y" in let Hy := fresh "Hy" in
               intros y Hy; apply in_map_iff in Hy; destruct Hy as (r1 & <- & Hr1); cbn;
               match goal with Hb : forall r, In r _ -> sv_tiempo_inicio_servicio r <= _ |- _ => exact (Hb _ Hr1) end
           | |- creciente _ =>
               first [ assumption
                     | match goal with Hc : creciente _ |- _ =>
                         apply creciente_izq in Hc; exact Hc end
                     | match goal with Hc : creciente _ |- _ =>
                         apply creciente_quita in Hc; exact Hc end
                     | match goal with Hc : creciente _ |- _ =>
                         apply creciente_quita in Hc; apply creciente_izq in Hc; exact Hc end
                     | match goal with Hc : creciente _ |- _ =>
                         apply creciente_prefijo in Hc; exact Hc end ]
           end.
Qed.

Lemma llegadas_pasadas_inicio : forall s,
  env_run_inicio (tiempo_sim cfg) (estado_inicial cfg) = Bien s -> llegadas_pasadas s.
Proof.
  intros s H. unfold env_run_inicio, estado_inicial in H.
  destruct (verbose cfg); cbn in H.
  all: destruct (Qlt_le_dec _ _); [|discriminate].
  all: injection H as <-; cbn.
  all: split; [intros a []|split; [intros a []|intros x Hx; exact I]].
Qed.

Lemma llegadas_pasadas_entorno : forall s s',
  inv_hilo cfg s -> inv_hilo cfg s' -> llegadas_pasadas s -> entorno s s' ->
  llegadas_pasadas s'.
Proof.
  intros s s' _ _ (H1 & H2 & H3) E.
  pose proof (ent_ahora _ _ E) as Hah.
  destruct (ent_cola_v _ _ E) as (nv & Hv & Fv).
  destruct (ent_cola_p _ _ E) as (np & Hp & Fp).
  rewrite Forall_forall in Fv, Fp.
  split; [|split].
  - intros a Ha. rewrite Hv in Ha. apply in_app_iff in Ha. destruct Ha as [Ha|Ha].
    + apply H1 in Ha. lra.
    + rewrite (Fv a Ha). lra.
  - intros a Ha. rewrite Hp in Ha. apply in_app_iff in Ha. destruct Ha as [Ha|Ha].
    + apply H2 in Ha. lra.
    + rewrite (Fp a Ha). lra.
  - intros x Hx. rewrite (ent_hilo _ _ E) in Hx. specialize (H3 x Hx).
    rewrite (ent_atender _ _ E).
    destruct (m_atender s) as [[]|]; auto.
    + intros p a Hpa. specialize (H3 p a Hpa). lra.
    + lra.
Qed.

Lemma llegadas_pasadas_paso : forall s s',
  inv_hilo cfg s -> inv_hilo cfg s' -> llegadas_pasadas s -> paso_hilo cfg s s' ->
  llegadas_pasadas s'.
Proof.
  intros s s' (Hf & Hmo & x & Hxx & Hfo) _ (H1 & H2 & H3) Hh.
  specialize (H3 x Hxx).
  unfold llegadas_pasadas, inv_hilo, forma_hilo, lugar_atender,
    agenda_futura, forma_atender, forma_fase, forma_controlador, modo_ok in *.
  hilo_casos s Hh.
  all: rewrite Hx in Hxx; injection Hxx as <-.
  all: abrir_marcos Hfo.
  all: cbn in *; descomponer; subst; try congruence.
  all: split; [|split].
  all: try (intros; exact I).
  all: intros.
  all: repeat match goal with
              | H : In _ (_ ++ _) |- _ => apply in_app_iff in H; destruct H as [H|[<-|[]]]
              end.
  all: try contradiction.
  all: try match goal with
           | Hx : _ :: _ = [_] |- _ => rewrite ?Hr in Hx; injection Hx as <-; cbn in *
           end.
  all: try match goal with
           | Hpa : Reanudar _ _ = Reanudar _ _ |- _ => injection Hpa as <- <-
           end.
  all: try match goal with
       | |- tiempo_llegada ?a <= _ =>
           first [ lra
                 | let T := fresh in assert (T := H1 a ltac:(auto)); lra
                 | let T := fresh in assert (T := H2 a ltac:(auto)); lra
                 | match goal with
                   | H : forall p a, _ = _ -> _ |- _ => pose proof (H _ _ Ea); lra
                   end ]
       end.
Qed.

Lemma alcanzable_llegadas_pasadas : forall s, alcanzable cfg s -> llegadas_pasadas s.
Proof.
  apply (alcanzable_invariante cfg llegadas_pasadas).
  - exact llegadas_pasadas_inicio.
  - exact llegadas_pasadas_entorno.
  - exact llegadas_pasadas_paso.
Qed.

Lemma fcfs_en_curso_inicio : forall s c d,
  llegadas_pasadas s -> m_atender s = Some (At_creado c d) ->
  creciente (map tiempo_llegada (cola_de c s)) ->
  fcfs_en_curso c (servicios_de c (registros s)) s.
Proof.
  intros s c d (H1 & H2 & _) Hm Hc. exists []. rewrite app_nil_r.
  split; [reflexivity|]. split; [exact I|]. split.
  - intros m Em. rewrite Hm in Em. injection Em as <-. reflexivity.
  - intros x Hx. unfold en_curso. rewrite Hm. cbn. split; [intros r []|].
    split; [assumption|]. intros t Ht. apply in_map_iff in Ht.
    destruct Ht as (a & <- & Ha). destruct c; cbn in Ha; auto.
Qed.

Lemma fcfs_en_curso_curso : forall c base k s1 s,
  alcanzable cfg s1 -> fcfs_en_curso c base s1 ->
  servicio_en_curso cfg k s1 = Some s ->
  alcanzable cfg s /\ fcfs_en_curso c base s.
Proof.
  intros c base. induction k as [|k IH]; intros s1 s Ha R Hk; cbn in Hk.
  - injection Hk as <-. auto.
  - destruct (m_atender s1) as [m|] eqn:Em; [|discriminate].
    destruct (step cfg s1) as [s2| |] eqn:Es; try discriminate.
    assert (Ha2 : alcanzable cfg s2) by (eapply alc_paso; eauto).
    apply (IH s2); auto.
    pose proof (alcanzable_inv_hilo cfg _ Ha) as Hi.
    pose proof (alcanzable_inv_hilo cfg _ Ha2) as Hi2.
    destruct Hi as (Hf & Hm & x & Hx & Hfo).
    assert (Hi : inv_hilo cfg s1) by (repeat split; eauto).
    destruct (paso_casos cfg s1 s2 x Hf Hx Es) as [[E Hf']|Hp].
    + eapply fcfs_en_curso_entorno; eauto. congruence.
    + eapply fcfs_en_curso_paso; eauto. congruence.
Qed.

End OrdenDeServicio.

(** ** Runs of a given length *)

Section Concretas.

Context {az : Azar}.
Variable cfg : Config.

Lemma pasos_alcanzable : forall k s s',
  alcanzable cfg s -> pasos cfg k s = Some s' -> alcanzable cfg s'.
Proof.
  induction k as [|k IH]; intros s s' Ha Hk; cbn in Hk.
  - injection Hk as <-. exact Ha.
  - destruct (step cfg s) as [s2| |] eqn:Es; try discriminate.
    apply (IH s2); [|exact Hk]. eapply alc_paso; eauto.
Qed.

Lemma estado_tras_alcanzable : forall k,
  0 < tiempo_sim cfg -> alcanzable cfg (estado_tras cfg k).
Proof.
  intros k Ht. unfold estado_tras.
  destruct (env_run_inicio (tiempo_sim cfg) (estado_inicial cfg)) as [s|e] eqn:E.
  - assert (Ha : alcanzable cfg s) by (apply alc_inicio; exact E).
    destruct (pasos cfg k s) as [s'|] eqn:Ek; [|exact Ha].
    exact (pasos_alcanzable k s s' Ha Ek).
  - exfalso. unfold env_run_inicio, estado_inicial in E.
    destruct (verbose cfg); cbn in E.
    all: destruct (Qlt_le_dec 0 (tiempo_sim cfg)); [discriminate|lra].
Qed.

(** A run that has ended ends the same way under any larger bound. *)
Lemma env_run_bucle_estable : forall n m s,
  (forall s', env_run_bucle cfg n s <> Pendiente s') ->
  env_run_bucle cfg (n + m) s = env_run_bucle cfg n s.
Proof.
  induction n as [|n IH]; intros m s H; cbn in *.
  - exfalso. exact (H s eq_refl).
  - destruct (step cfg s); auto.
Qed.

Lemma simular_estable : forall n1 n2 s1 s2,
  simular cfg n1 = Completa s1 -> simular cfg n2 = Completa s2 -> s1 = s2.
Proof.
  intros n1 n2 s1 s2 H1 H2. unfold simular in *.
  destruct (env_run_inicio (tiempo_sim cfg) (estado_inicial cfg)) as [s|e]; [|discriminate].
  assert (E1 : env_run_bucle cfg (n1 + n2) s = Completa s1).
  { rewrite env_run_bucle_estable; [exact H1|]. intros s' E. congruence. }
  assert (E2 : env_run_bucle cfg (n2 + n1) s = Completa s2).
  { rewrite env_run_bucle_estable; [exact H2|]. intros s' E. congruence. }
  rewrite Nat.add_comm in E2. congruence.
Qed.

End Concretas.

(** ** The service generator returns *)

Lemma suma_perm : forall l l', Permutation l l' -> suma l == suma l'.
Proof.
  induction 1; cbn; try lra.
Qed.

Lemma carga_app : forall l a, carga (l ++ [a]) == carga l + 2.
Proof. induction l as [|x l IH]; intros a; cbn; [lra|]. rewrite IH. lra. Qed.

Lemma carga_pos : forall l, 0 <= carga l.
Proof. induction l; cbn; lra. Qed.

Lemma tramo_pos : forall tf t, 1 <= tramo tf t.
Proof. intros. unfold tramo. destruct (Qlt_le_dec t tf); lra. Qed.

Lemma tramo_mono : forall tf t t', t <= t' -> tramo tf t' <= tramo tf t.
Proof.
  intros tf t t' H. unfold tramo.
  destruct (Qlt_le_dec t tf), (Qlt_le_dec t' tf); lra.
Qed.

Lemma tramo_sondeo : forall tf tf' t,
  tf' == tf -> t < tf' -> tramo tf (t + py_min 1 (tf' - t)) + 1 <= tramo tf t.
Proof.
  intros tf tf' t E H. unfold tramo, py_min.
  destruct (Qlt_le_dec (tf' - t) 1);
    destruct (Qlt_le_dec _ tf); destruct (Qlt_le_dec t tf); lra.
Qed.

Lemma peso_llegada_pos : forall tf gap t, 0 < gap -> 0 <= peso_llegada tf gap t.
Proof.
  intros tf gap t Hg. unfold peso_llegada.
  destruct (Qlt_le_dec tf t); [lra|].
  assert (0 <= (tf - t) / gap).
  { apply Qle_shift_div_l; [assumption|]. lra. }
  lra.
Qed.

Lemma peso_llegada_baja : forall tf gap t delay,
  0 < gap -> t <= tf -> gap <= delay ->
  peso_llegada tf gap (t + delay) + 4 <= peso_llegada tf gap t.
Proof.
  intros tf gap t delay Hg Ht Hd. unfold peso_llegada.
  destruct (Qlt_le_dec tf t); [lra|].
  assert (H0 : 0 <= (tf - t) / gap).
  { apply Qle_shift_div_l; [assumption|]. lra. }
  destruct (Qlt_le_dec tf (t + delay)); [lra|].
  assert (H1 : (tf - (t + delay)) / gap <= (tf - t) / gap - 1).
  { apply Qle_shift_div_r; [assumption|].
    assert (E : ((tf - t) / gap - 1) * gap == (tf - t) - gap) by (field; lra).
    rewrite E. lra. }
  lra.
Qed.

Lemma peso_monitor_pos : forall tf t, 0 <= peso_monitor tf t.
Proof.
  intros tf t. unfold peso_monitor. destruct (Qlt_le_dec tf t); lra.
Qed.

Lemma peso_monitor_baja : forall tf t,
  t <= tf -> peso_monitor tf (t + 300) + 1 <= peso_monitor tf t.
Proof.
  intros tf t Ht. unfold peso_monitor.
  destruct (Qlt_le_dec tf t); [lra|]. destruct (Qlt_le_dec tf (t + 300)); lra.
Qed.

Section Sorteos.

Context {az : Azar}.
Variable cfg : Config.

(** A step makes at most one draw. *)
Lemma paso_sorteos : forall s s',
  step cfg s = Sigue s' -> (sorteos s <= sorteos s' <= S (sorteos s))%nat.
Proof.
  intros s s' H. unfold step in H.
  destruct (heappop (agenda s)) as [[e r]|]; [|discriminate].
  destruct s; cbn in H.
  destruct (e_acc e) as [p|p v| |]; try discriminate;
    [destruct p; cbn in H; resultado H G
    |destruct p; cbn in H; resultado H G
    |injection H as <-; cbn; lia].
  all: unfold generar_vehiculos, generar_peatones, generar_vehiculos_espera,
         generar_peatones_espera, monitor, expovariate, env_timeout,
         SemaforoFijo.controlador, SemaforoFijo.controlador_ciclo,
         SemaforoAdaptativo.controlador, SemaforoAdaptativo.controlador_ciclo,
         SemaforoAdaptativo.fase_verde_vehicular_adaptativa,
         SemaforoAdaptativo.fase_bucle, SemaforoAdaptativo.fase_retorna,
         SemaforoAdaptativo.debe_activar_fase_peatonal,
         atender, atender_bucle, expovariate, env_timeout in G; cbn in G.
  all: partir G.
  all: injection G as <-; cbn.
  all: unfold tras_warmup, padre_atender; cbn.
  all: repeat match goal with |- context [if ?b then _ else _] => destruct b end; cbn.
  all: repeat match goal with |- context [match ?b with _ => _ end] => destruct b end; cbn.
  all: try lia.
  all: destruct c; cbn; lia.
Qed.

End Sorteos.

Section Baja.

Context {az : Azar}.
Variable cfg : Config.
Variables t0 d gap : Q.
Variables desde hasta : nat.
Hypothesis Hd : 0 <= d.
Hypothesis Hgap : 0 < gap.
Hypothesis Hlv : forall k, (desde <= k < hasta)%nat ->
  gap <= menos_log1m (mt_random (semilla cfg) k) / lambda_v cfg.
Hypothesis Hlp : forall k, (desde <= k < hasta)%nat ->
  gap <= menos_log1m (mt_random (semilla cfg) k) / lambda_p cfg.

Lemma peso_no_hilo : forall tf s s' x,
  es_hilo x = false -> peso tf gap s' x = peso tf gap s x.
Proof.
  intros tf s s' x H. unfold peso, peso_accion, es_hilo in *.
  destruct (e_acc x) as [[]|[]| |]; try discriminate; reflexivity.
Qed.

Lemma peso_resto_hilo : forall tf s s' r,
  filter es_hilo r = [] ->
  suma (map (peso tf gap s') r) == suma (map (peso tf gap s) r).
Proof.
  intros tf s s'. induction r as [|y r IH]; intros H; cbn in *; [reflexivity|].
  destruct (es_hilo y) eqn:E; [discriminate|].
  rewrite (peso_no_hilo tf s s' y E), (IH H). reflexivity.
Qed.

Lemma peso_resto_entorno : forall tf s s' r x,
  filter es_hilo r = [x] ->
  suma (map (peso tf gap s') r) ==
  suma (map (peso tf gap s) r) + (peso tf gap s' x - peso tf gap s x).
Proof.
  intros tf s s'. induction r as [|y r IH]; intros x H; cbn in *; [discriminate|].
  destruct (es_hilo y) eqn:E.
  - injection H as -> H. rewrite (peso_resto_hilo tf s s' r H). lra.
  - rewrite (peso_no_hilo tf s s' y E), (IH x H). lra.
Qed.

Lemma potencial_pop : forall tf s e r,
  heappop (agenda s) = Some (e, r) ->
  potencial tf gap s == peso tf gap s e + suma (map (peso tf gap s) r).
Proof.
  intros tf s e r H. unfold potencial.
  apply heappop_perm in H. apply (Permutation_map (peso tf gap s)) in H.
  apply suma_perm in H. exact H.
Qed.

Lemma potencial_pos : forall tf s, 0 <= potencial tf gap s.
Proof.
  intros tf s. unfold potencial. induction (agenda s) as [|x l IH]; cbn; [lra|].
  assert (0 <= peso tf gap s x); [|lra].
  unfold peso, peso_accion, peso_hilo.
  pose proof (peso_llegada_pos tf gap (e_t x) Hgap).
  pose proof (peso_monitor_pos tf (e_t x)).
  pose proof (tramo_pos tf (e_t x)).
  pose proof (carga_pos (cola_vehiculos s)). pose proof (carga_pos (cola_peatones s)).
  destruct (e_acc x) as [[]|[]| |]; try lra.
  all: destruct (m_atender s) as [[]|]; lra.
Qed.

Lemma peso_de_hilo : forall tf s x,
  es_hilo x = true ->
  peso tf gap s x =
  peso_hilo tf (m_atender s) (cola_vehiculos s) (cola_peatones s) (e_t x).
Proof.
  intros tf s x H. unfold peso, peso_accion, es_hilo in *.
  destruct (e_acc x) as [[]|[]| |]; try discriminate; reflexivity.
Qed.

Lemma potencial_pop_hilo : forall tf s e r,
  heappop (agenda s) = Some (e, r) -> es_hilo e = true ->
  potencial tf gap s ==
  peso_hilo tf (m_atender s) (cola_vehiculos s) (cola_peatones s) (e_t e) +
  suma (map (peso tf gap s) r).
Proof.
  intros tf s e r H He. rewrite (potencial_pop tf s e r H).
  rewrite (peso_de_hilo tf s e He). reflexivity.
Qed.

Ltac resto_hilo Hr :=
  match goal with
  | E : _ == _ + suma (map (peso ?tf ?g ?st) ?r) |- context [suma (map (peso ?tf ?g ?st') ?r)] =>
      pose proof (peso_resto_hilo tf st st' r Hr)
  end.

Ltac abrir_tramos :=
  unfold tramo, py_min in *;
  repeat match goal with
         | |- context [Qlt_le_dec ?a ?b] => destruct (Qlt_le_dec a b)
         | H : context [Qlt_le_dec ?a ?b] |- _ => destruct (Qlt_le_dec a b)
         end.

Lemma potencial_baja_hilo : forall s s',
  inv_hilo cfg s -> reloj_servicio t0 d s -> m_atender s <> None ->
  paso_hilo cfg s s' -> m_atender s' <> None ->
  potencial (t0 + d) gap s' + 1 <= potencial (t0 + d) gap s.
Proof.
  intros s s' (Hf & Hmo & x & Hxx & Hfo) R Hn Hh Hn'.
  pose proof (potencial_pop_hilo (t0 + d) s) as E0.
  unfold reloj_servicio, inv_hilo, forma_hilo, lugar_atender, agenda_futura,
    forma_atender, forma_fase, forma_controlador, modo_ok in *.
  hilo_casos s Hh.
  all: rewrite Hx in Hxx; injection Hxx as <-.
  all: abrir_marcos Hfo.
  all: cbn in *; descomponer; subst; try congruence.
  all: specialize (E0 _ _ Hp); unfold es_hilo in E0; rewrite Ea in E0;
       specialize (E0 eq_refl); unfold potencial in *; cbn in *.
  all: rewrite E0; clear Hf Hm Hp Hx.
  all: resto_hilo Hr.
  all: repeat match goal with
              | |- context [carga (?l ++ [?a])] =>
                  lazymatch goal with
                  | _ : carga (l ++ [a]) == _ |- _ => fail
                  | _ => pose proof (carga_app l a)
                  end
              end.
  all: repeat match goal with
              | |- context [carga ?l] =>
                  lazymatch goal with
                  | _ : 0 <= carga l |- _ => fail
                  | _ => pose proof (carga_pos l)
                  end
              end.
  all: abrir_tramos; try lra.
Qed.

Lemma potencial_baja_entorno : forall s s' x e r,
  heappop (agenda s) = Some (e, r) ->
  es_hilo e = false -> filter es_hilo r = [x] ->
  e_t e <= t0 + d ->
  m_atender s <> None ->
  (desde <= sorteos s < hasta)%nat ->
  step cfg s = Sigue s' ->
  potencial (t0 + d) gap s' + 1 <= potencial (t0 + d) gap s.
Proof.
  intros s s' x e r Hp Fe Fr Hle Hn Hw H.
  pose proof (potencial_pop (t0 + d) s e r Hp) as E0.
  assert (Fx : es_hilo x = true).
  { assert (I : In x (filter es_hilo r)) by (rewrite Fr; now left).
    apply filter_In in I. tauto. }
  unfold step in H. rewrite Hp in H. unfold peso at 1 in E0.
  unfold es_hilo in Fe.
  destruct s; cbn in *.
  destruct (e_acc e) as [p|p v| |] eqn:Ea; try discriminate;
    [destruct p; try discriminate; cbn in H; resultado H G
    |destruct p; try discriminate; cbn in H; resultado H G
    |injection H as <-];
    try (unfold generar_vehiculos, generar_peatones, generar_vehiculos_espera,
           generar_peatones_espera, monitor, expovariate, env_timeout in G;
         cbn in G; partir G; injection G as <-).
  all: unfold potencial in *; cbn in *.
  all: rewrite E0; clear E0 Hp.
  all: match goal with
       | |- ?lhs <= ?rhs =>
           match lhs with
           | context [suma (map (peso ?tf ?g ?st') ?r0)] =>
               match rhs with
               | context [suma (map (peso tf g ?st) r0)] =>
                   pose proof (peso_resto_entorno tf st st' r0 _ Fr) as Er;
                   rewrite (peso_de_hilo tf st' _ Fx), (peso_de_hilo tf st _ Fx) in Er
               end
           end
       end.
  all: cbn in Er.
  all: match goal with
       | m : option MarcoAtender |- _ => destruct m as [[]|]; [..|congruence]
       end.
  all: cbn in Er.
  all: repeat match goal with
              | H : context [carga (?l ++ [?a])] |- _ =>
                  lazymatch goal with
                  | _ : carga (l ++ [a]) == _ |- _ => fail
                  | _ => pose proof (carga_app l a)
                  end
              end.
  all: try match goal with
           | |- context [peso_llegada ?tf ?g (?t + ?dl)] =>
               first [ pose proof (peso_llegada_baja tf g t dl Hgap Hle (Hlv _ Hw))
                     | pose proof (peso_llegada_baja tf g t dl Hgap Hle (Hlp _ Hw)) ]
           | |- context [peso_monitor ?tf (?t + 300)] =>
               pose proof (peso_monitor_baja tf t Hle)
           end.
  all: try lra.
Qed.

Lemma hilo_antes_del_fin : forall s x,
  inv_hilo cfg s -> reloj_servicio t0 d s -> m_atender s <> None ->
  filter es_hilo (agenda s) = [x] -> e_t x <= t0 + d.
Proof.
  intros s x (Hf & _ & y & Hy & Hfo) R Hn Hx.
  rewrite Hx in Hy. injection Hy as <-.
  unfold reloj_servicio, forma_hilo in *.
  destruct (m_atender s) as [m|]; [|congruence].
  destruct Hfo as [Hfo _]. destruct m; cbn in *; intuition lra.
Qed.

Lemma potencial_baja : forall s s',
  inv_hilo cfg s -> reloj_servicio t0 d s -> m_atender s <> None ->
  (desde <= sorteos s < hasta)%nat ->
  step cfg s = Sigue s' -> m_atender s' <> None ->
  potencial (t0 + d) gap s' + 1 <= potencial (t0 + d) gap s.
Proof.
  intros s s' Hi R Hn Hw H Hn'.
  pose proof Hi as (Hf & _ & x & Hx & _).
  pose proof (hilo_antes_del_fin s x Hi R Hn Hx) as Hfin.
  pose proof H as H'. unfold step in H'.
  destruct (heappop (agenda s)) as [[e r]|] eqn:Hp; [|discriminate].
  assert (Ht : ahora s <= e_t e) by (apply Hf; now apply heappop_in in Hp).
  assert (Hm := heappop_min _ _ _ Hp).
  destruct (heappop_unico es_hilo _ _ _ _ Hp Hx) as [(Fe & -> & Fr)|(Fe & Fr)].
  - apply potencial_baja_hilo; auto.
    exists x, r. repeat split; auto.
    unfold reanuda_hilo. unfold es_hilo in Fe.
    destruct (e_acc x); try discriminate.
    + destruct (iniciar_proceso cfg p _); [congruence|discriminate].
    + destruct (reanudar_proceso cfg p v _); [congruence|discriminate].
  - apply (potencial_baja_entorno s s' x e r); auto.
    assert (e_t e <= e_t x); [|lra].
    apply Hm. eapply filtro_unico_in; eauto.
Qed.

Lemma servicio_en_curso_vivo : forall k s1 s,
  servicio_en_curso cfg k s1 = Some s -> m_atender s <> None -> m_atender s1 <> None.
Proof.
  intros [|k] s1 s H Hn; cbn in H.
  - now injection H as <-.
  - destruct (m_atender s1); [discriminate|discriminate H].
Qed.

Lemma vivo_acotado : forall k s1 s,
  alcanzable cfg s1 -> reloj_servicio t0 d s1 ->
  (desde <= sorteos s1)%nat -> (sorteos s1 + k <= hasta)%nat ->
  servicio_en_curso cfg k s1 = Some s -> m_atender s <> None ->
  potencial (t0 + d) gap s + inject_Z (Z.of_nat k) <= potencial (t0 + d) gap s1.
Proof.
  induction k as [|k IH]; intros s1 s Ha R Hw1 Hw2 Hk Hn.
  - cbn in Hk. injection Hk as <-. change (inject_Z (Z.of_nat 0)) with 0. lra.
  - pose proof Hk as Hk'. cbn in Hk'.
    destruct (m_atender s1) as [m|] eqn:Em; [|discriminate].
    destruct (step cfg s1) as [s2| |] eqn:Es; try discriminate.
    assert (H1 : servicio_en_curso cfg 1 s1 = Some s2) by (cbn; now rewrite Em, Es).
    destruct (reloj_servicio_curso cfg t0 d Hd 1 s1 s2 Ha R H1) as [Ha2 R2].
    pose proof (servicio_en_curso_vivo k s2 s Hk' Hn) as Hn2.
    pose proof (paso_sorteos cfg s1 s2 Es) as Hs.
    assert (IH' : potencial (t0 + d) gap s + inject_Z (Z.of_nat k) <=
                  potencial (t0 + d) gap s2) by (apply IH; auto; lia).
    assert (Hb : potencial (t0 + d) gap s2 + 1 <= potencial (t0 + d) gap s1).
    { apply potencial_baja; auto.
      - now apply alcanzable_inv_hilo.
      - congruence.
      - lia. }
    rewrite Nat2Z.inj_succ. unfold Z.succ. rewrite inject_Z_plus.
    change (inject_Z 1) with 1. lra.
Qed.

(** A bound on the number of events the run processes while the service
    generator is alive. *)
Lemma vivo_cota : forall k s1 s,
  alcanzable cfg s1 -> reloj_servicio t0 d s1 ->
  (desde <= sorteos s1)%nat -> (sorteos s1 + k <= hasta)%nat ->
  servicio_en_curso cfg k s1 = Some s -> m_atender s <> None ->
  (k <= Z.to_nat (Qfloor (potencial (t0 + d) gap s1)))%nat.
Proof.
  intros k s1 s Ha R Hw1 Hw2 Hk Hn.
  pose proof (vivo_acotado k s1 s Ha R Hw1 Hw2 Hk Hn) as H.
  pose proof (potencial_pos (t0 + d) s) as H0.
  assert (H1 : inject_Z (Z.of_nat k) <= potencial (t0 + d) gap s1) by lra.
  apply Qfloor_resp_le in H1. rewrite Qfloor_Z in H1. lia.
Qed.

End Baja.

Section Retorno.

Context {az : Azar}.
Variable cfg : Config.

(** A run of [k] events either sees the service generator return or has it
    alive all along. *)
Lemma pasos_hasta_retorno : forall k s0 s',
  pasos cfg k s0 = Some s' ->
  (exists j s, (j <= k)%nat /\ servicio_en_curso cfg j s0 = Some s /\ m_atender s = None) \/
  (servicio_en_curso cfg k s0 = Some s' /\ m_atender s' <> None).
Proof.
  induction k as [|k IH]; intros s0 s' H; cbn in H.
  - injection H as <-. destruct (m_atender s0) eqn:E.
    + right. split; [reflexivity|congruence].
    + left. exists 0%nat, s0. auto.
  - destruct (m_atender s0) as [m|] eqn:E.
    + destruct (step cfg s0) as [s1| |] eqn:Es; try discriminate.
      destruct (IH s1 s' H) as [(j & s & Hj & Hs & Hn)|[Hs Hn]].
      * left. exists (S j), s. split; [lia|]. split; [|exact Hn].
        cbn. now rewrite E, Es.
      * right. split; [|exact Hn]. cbn. now rewrite E, Es.
    + left. exists 0%nat, s0. split; [lia|]. auto.
Qed.

End Retorno.

(** ** The order of the heap *)

Lemma clave_lt_trans : forall a b c,
  clave_lt a b = true -> clave_lt b c = true -> clave_lt a c = true.
Proof.
  intros a b c. unfold clave_lt.
  repeat match goal with
         | |- context [Qlt_le_dec ?x ?y] => destruct (Qlt_le_dec x y)
         | |- context [(?x <? ?y)%nat] => destruct (Nat.ltb_spec x y)
         end; intros; try discriminate; try reflexivity; try lra; try lia.
Qed.

Lemma clave_lt_total : forall a b c,
  clave_lt a c = true -> clave_lt b c = false -> clave_lt a b = true.
Proof.
  intros a b c. unfold clave_lt.
  repeat match goal with
         | |- context [Qlt_le_dec ?x ?y] => destruct (Qlt_le_dec x y)
         | |- context [(?x <? ?y)%nat] => destruct (Nat.ltb_spec x y)
         end; intros; try discriminate; try reflexivity; try lra; try lia.
Qed.

(** The entry taken out is the least of the heap in the order of the keys. *)
Lemma extraer_min_clave : forall l m m' r,
  extraer m l = (m', r) ->
  clave_lt m m' = false /\ forall x, In x r -> clave_lt x m' = false.
Proof.
  induction l as [|x l IH]; intros m m' r H; simpl in H.
  - inversion H; subst. split; [|intros x []].
    unfold clave_lt.
    repeat match goal with
           | |- context [Qlt_le_dec ?x ?y] => destruct (Qlt_le_dec x y)
           | |- context [(?x <? ?y)%nat] => destruct (Nat.ltb_spec x y)
           end; try reflexivity; exfalso; try lra; try lia.
  - destruct (clave_lt x m) eqn:K.
    + destruct (extraer x l) as [m1 r1] eqn:E. inversion H; subst.
      apply IH in E. destruct E as [E1 E2].
      assert (Hm : clave_lt m m' = false).
      { destruct (clave_lt m m') eqn:K'; [|reflexivity].
        rewrite (clave_lt_trans _ _ _ K K') in E1. discriminate. }
      split; [assumption|]. intros y [<-|Hy]; auto.
    + destruct (extraer m l) as [m1 r1] eqn:E. inversion H; subst.
      apply IH in E. destruct E as [E1 E2].
      assert (Hx : clave_lt x m' = false).
      { destruct (clave_lt x m') eqn:K'; [|reflexivity].
        rewrite (clave_lt_total _ _ _ K' E1) in K. discriminate. }
      split; [assumption|]. intros y [<-|Hy]; auto.
Qed.

Lemma heappop_min_clave : forall l e r,
  heappop l = Some (e, r) -> forall x, In x r -> clave_lt x e = false.
Proof.
  intros [|m l] e r H; simpl in H; [discriminate|].
  inversion H as [E]. now apply extraer_min_clave in E.
Qed.

(** ** Two executions of one run *)

Lemma clave_lt_distintos : forall a b,
  e_eid a <> e_eid b -> clave_lt a b = false -> clave_lt b a = true.
Proof.
  intros a b. unfold clave_lt.
  repeat match goal with
         | |- context [Qlt_le_dec ?x ?y] => destruct (Qlt_le_dec x y)
         | |- context [(?x <? ?y)%nat] => destruct (Nat.ltb_spec x y)
         end; intros; try reflexivity; try discriminate; try (exfalso; lra); exfalso; lia.
Qed.

Lemma es_heappop_heappop : es_heappop heappop.
Proof.
  split; [reflexivity|]. intros [|m l] Hl; [congruence|].
  destruct (heappop (m :: l)) as [[e r]|] eqn:E; [|discriminate].
  exists e, r. split; [reflexivity|]. split.
  - now apply heappop_perm.
  - now apply heappop_min_clave with (l := m :: l).
Qed.

Lemma es_heappop_rev : es_heappop heappop_rev.
Proof.
  destruct es_heappop_heappop as [_ H].
  split; [reflexivity|]. intros l Hl. unfold heappop_rev.
  destruct (H (rev l)) as (e & r & E & P & M).
  - intros E. apply (f_equal (@length _)) in E. rewrite length_rev in E.
    destruct l; [congruence|discriminate].
  - exists e, r. split; [exact E|]. split; [|exact M].
    eapply Permutation_trans; [apply Permutation_rev|exact P].
Qed.

Lemma eids_unicos_push : forall l n t p a,
  eids_unicos l n -> eids_unicos (mkEv t p n a :: l) (S n).
Proof.
  intros l n t p a [H1 H2]. split.
  - cbn. constructor; [|exact H1]. intros Hin. apply in_map_iff in Hin.
    destruct Hin as (x & Ex & Hx). apply H2 in Hx. lia.
  - intros x [<-|Hx]; [cbn; lia|]. apply H2 in Hx. lia.
Qed.

Lemma eids_unicos_perm : forall l l' n,
  Permutation l l' -> eids_unicos l n -> eids_unicos l' n.
Proof.
  intros l l' n P [H1 H2]. split.
  - eapply Permutation_NoDup; [|exact H1]. now apply Permutation_map.
  - intros x Hx. apply H2. eapply Permutation_in; [apply Permutation_sym, P|exact Hx].
Qed.

Lemma eids_unicos_resto : forall e r n,
  eids_unicos (e :: r) n -> eids_unicos r n.
Proof.
  intros e r n [H1 H2]. split.
  - now inversion H1.
  - intros x Hx. apply H2. now right.
Qed.

(** With different [eid]s the least entry is the same whatever the layout. *)
Lemma pop_unico : forall l l' n e r e' r',
  eids_unicos l n -> Permutation l l' ->
  Permutation l (e :: r) -> (forall x, In x r -> clave_lt x e = false) ->
  Permutation l' (e' :: r') -> (forall x, In x r' -> clave_lt x e' = false) ->
  e = e' /\ Permutation r r'.
Proof.
  intros l l' n e r e' r' U P P1 M1 P2 M2.
  assert (Pe : Permutation (e :: r) (e' :: r')).
  { eapply Permutation_trans; [apply Permutation_sym, P1|].
    eapply Permutation_trans; [exact P|exact P2]. }
  assert (Ee : e = e').
  { assert (I1 : In e' (e :: r))
      by (eapply Permutation_in; [apply Permutation_sym, Pe|now left]).
    assert (I2 : In e (e' :: r')) by (eapply Permutation_in; [exact Pe|now left]).
    destruct I1 as [E|I1]; [exact E|]. destruct I2 as [E|I2]; [now symmetry|].
    exfalso.
    assert (U1 : eids_unicos (e :: r) n) by (eapply eids_unicos_perm; eauto).
    destruct U1 as [U1 _]. cbn in U1. inversion U1 as [|? ? N _]; subst.
    assert (D : e_eid e' <> e_eid e).
    { intros E. apply N. rewrite <- E. now apply in_map. }
    pose proof (M1 e' I1) as C1. pose proof (M2 e I2) as C2.
    apply clave_lt_distintos in C1; [|exact D]. congruence. }
  subst e'. split; [reflexivity|]. now apply Permutation_cons_inv in Pe.
Qed.

Lemma misma_registros : forall s s', misma s s' -> registros s = registros s'.
Proof.
  intros s s' [_ H]. apply (f_equal registros) in H. now destruct s, s'.
Qed.

Section EjecucionesIguales.

Context {az : Azar}.
Variable cfg : Config.

(** The callbacks of an event read nothing of the heap and push onto it:
    with the same entry taken out, two layouts of the rest give the same
    state up to the layout, and fresh [eid]s. *)
Lemma procesar_libre : forall e r r' s,
  Permutation r r' -> eids_unicos r (sig_eid s) ->
  match procesar cfg e r s, procesar cfg e r' s with
  | Sigue t, Sigue t' => misma t t' /\ eids_unicos (agenda t) (sig_eid t)
  | Parada t, Parada t' => misma t t'
  | Lanza x, Lanza x' => x = x'
  | _, _ => False
  end.
Proof.
  intros e r r' s P U. unfold procesar, misma.
  destruct s; cbn in U |- *.
  destruct (e_acc e) as [p|p v| |]; cbn.
  4: { split; [exact P|reflexivity]. }
  3: { split; [split; [exact P|reflexivity]|exact U]. }
  all: destruct p; cbn.
  all: unfold generar_vehiculos, generar_peatones, generar_vehiculos_espera,
         generar_peatones_espera, monitor, expovariate, env_timeout,
         SemaforoFijo.controlador, SemaforoFijo.controlador_ciclo,
         SemaforoAdaptativo.controlador, SemaforoAdaptativo.controlador_ciclo,
         SemaforoAdaptativo.fase_verde_vehicular_adaptativa,
         SemaforoAdaptativo.fase_bucle, SemaforoAdaptativo.fase_retorna,
         SemaforoAdaptativo.debe_activar_fase_peatonal,
         SemaforoAdaptativo.obtener_espera_maxima_peatonal,
         atender, atender_bucle, expovariate, env_timeout,
         tras_warmup, padre_atender; cbn.
  all: repeat match goal with
              | c : Clase |- _ => destruct c; cbn
              | |- context [match ?x with _ => _ end] =>
                  lazymatch type of x with
                  | Res => fail
                  | Paso => fail
                  | _ => destruct x; cbn
                  end
              end.
  all: try reflexivity.
  all: try (split; [split; [repeat apply perm_skip; exact P|reflexivity]|]).
  all: try (repeat apply eids_unicos_push; exact U).
Qed.

Variables pop1 pop2 : list Evento -> option (Evento * list Evento).
Hypothesis Hpop1 : es_heappop pop1.
Hypothesis Hpop2 : es_heappop pop2.

Lemma procesar_agenda : forall e r s s',
  con_agenda [] s = con_agenda [] s' -> procesar cfg e r s = procesar cfg e r s'.
Proof.
  intros e r s s' H. unfold procesar.
  assert (E : con_agenda r (con_ahora (e_t e) s) = con_agenda r (con_ahora (e_t e) s')).
  { destruct s, s'; cbn in *. injection H as -> -> -> -> -> -> -> -> -> -> -> -> ->.
    reflexivity. }
  now rewrite E.
Qed.

Lemma step_con_libre : forall a b,
  misma a b -> eids_unicos (agenda a) (sig_eid a) ->
  match step_con cfg pop1 a, step_con cfg pop2 b with
  | Sigue t, Sigue t' => misma t t' /\ eids_unicos (agenda t) (sig_eid t)
  | Parada t, Parada t' => misma t t'
  | Lanza x, Lanza x' => x = x'
  | _, _ => False
  end.
Proof.
  intros a b [P E] U. unfold step_con.
  destruct (agenda a) as [|x l] eqn:Ea.
  - apply Permutation_nil in P. rewrite P.
    destruct Hpop1 as [-> _]. destruct Hpop2 as [-> _]. reflexivity.
  - assert (Nb : agenda b <> []).
    { intros Eb. rewrite Eb in P. apply Permutation_sym, Permutation_nil in P. discriminate. }
    destruct Hpop1 as [_ H1]. destruct Hpop2 as [_ H2].
    destruct (H1 (x :: l)) as (e1 & r1 & E1 & P1 & M1); [discriminate|].
    destruct (H2 (agenda b) Nb) as (e2 & r2 & E2 & P2 & M2).
    rewrite E1, E2.
    destruct (pop_unico _ _ _ _ _ _ _ U P P1 M1 P2 M2) as [<- Pr].
    rewrite <- (procesar_agenda e1 r2 a b E).
    apply procesar_libre; [exact Pr|].
    eapply eids_unicos_resto, eids_unicos_perm; [exact P1|exact U].
Qed.

Lemma env_run_bucle_con_libre : forall n1 n2 a b s1 s2,
  misma a b -> eids_unicos (agenda a) (sig_eid a) ->
  env_run_bucle_con cfg pop1 n1 a = Completa s1 ->
  env_run_bucle_con cfg pop2 n2 b = Completa s2 ->
  misma s1 s2.
Proof.
  induction n1 as [|n1 IH]; intros n2 a b s1 s2 M U H1 H2; [discriminate|].
  destruct n2 as [|n2]; [discriminate|]. cbn in H1, H2.
  pose proof (step_con_libre a b M U) as R.
  destruct (step_con cfg pop1 a) as [t|t|x]; destruct (step_con cfg pop2 b) as [t'|t'|x'];
    try contradiction; try discriminate.
  - destruct R as [M' U']. exact (IH n2 t t' s1 s2 M' U' H1 H2).
  - injection H1 as <-. injection H2 as <-. exact R.
Qed.

End EjecucionesIguales.

Section EjecucionModelo.

Context {az : Azar}.
Variable cfg : Config.

Lemma env_run_bucle_con_heappop : forall n s,
  env_run_bucle_con cfg heappop n s = env_run_bucle cfg n s.
Proof.
  induction n as [|n IH]; intros s; [reflexivity|]. cbn.
  change (step_con cfg heappop s) with (step cfg s).
  destruct (step cfg s); auto.
Qed.

Lemma eids_unicos_inicio : forall s,
  env_run_inicio (tiempo_sim cfg) (estado_inicial cfg) = Bien s ->
  eids_unicos (agenda s) (sig_eid s).
Proof.
  intros s H. unfold env_run_inicio, estado_inicial in H.
  destruct (Qlt_le_dec _ _); [|discriminate]. injection H as <-.
  destruct (verbose cfg); cbn.
  all: repeat apply eids_unicos_push.
  all: split; [constructor|intros x []].
Qed.

End EjecucionModelo.

(** ** The run in double precision *)

(** With exact arithmetic the run of [Doble] is the run above. *)
Lemma step_exacto : forall {az : Azar} cfg s,
  Doble.step (fl := exacto) cfg s = step cfg s.
Proof. reflexivity. Qed.

(** ** The claims *)

Section VerdeAcotado.

Context {az : Azar}.
Variable cfg : Config.

(** C1. Under a configuration with [g_min <= g_max] and [b > 0], the
    cumulative vehicle green of every cycle of the adaptive controller lies
    in [[g_min, g_max]]: the value returned by
    [fase_verde_vehicular_adaptativa] (carried by the event that resumes the
    controller, then held by the controller as [tiempo_verde_vehicular]) and
    [tiempo_verde_total] while the generator is alive. *)
Theorem verde_adaptativo_acotado : forall s,
  g_min cfg <= g_max cfg -> 0 < b_extension cfg ->
  alcanzable cfg s ->
  (forall x tv, In x (agenda s) -> e_acc x = Reanudar PControlador (VQ tv) ->
     g_min cfg <= tv <= g_max cfg) /\
  (forall tv, m_controlador s = C_adaptativo (Ca_amarillo_v tv) ->
     g_min cfg <= tv <= g_max cfg) /\
  (forall tv m, m_controlador s = C_adaptativo (Ca_verde_p tv m) \/
                m_controlador s = C_adaptativo (Ca_amarillo_p tv m) ->
     g_min cfg <= tv <= g_max cfg) /\
  (forall tv, m_fase s = Some (Fv_inicial tv) -> g_min cfg <= tv <= g_max cfg) /\
  (forall tv n, m_fase s = Some (Fv_extension tv n) -> g_min cfg <= tv <= g_max cfg).
Proof.
  intros s Hg Hb Ha.
  assert (Hb' : 0 <= b_extension cfg) by lra.
  pose proof (alcanzable_verde_acotado cfg s Hg Hb' Ha) as (H1 & H2 & H3).
  pose proof (alcanzable_inv_hilo cfg s Ha) as (_ & _ & x0 & Hx0 & _).
  unfold en_rango in *. split; [|split; [|split; [|split]]].
  - intros x tv Hin Hx.
    assert (I : In x (filter es_hilo (agenda s))).
    { apply filter_In. split; [assumption|]. unfold es_hilo. now rewrite Hx. }
    rewrite Hx0 in I. destruct I as [<-|[]]. exact (H2 x0 tv Hx0 Hx).
  - intros tv Hc. rewrite Hc in H3. exact H3.
  - intros tv m [Hc|Hc]; rewrite Hc in H3; exact H3.
  - intros tv Hf. rewrite Hf in H1. lra.
  - intros tv n Hf. rewrite Hf in H1. destruct H1 as [E L].
    pose proof (verde_tras_mono cfg n Hb'). lra.
Qed.

End VerdeAcotado.

(** C1 on the run of [cfg_escenario_b], when the first green has ended. *)
Lemma verde_adaptativo_acotado_ejemplo :
  (forall x tv, In x (agenda (estado_tras (az := azar_ejemplo) cfg_escenario_b 128)) ->
     e_acc x = Reanudar PControlador (VQ tv) ->
     g_min cfg_escenario_b <= tv <= g_max cfg_escenario_b) /\
  (forall tv, m_controlador (estado_tras (az := azar_ejemplo) cfg_escenario_b 128) =
              C_adaptativo (Ca_amarillo_v tv) ->
     g_min cfg_escenario_b <= tv <= g_max cfg_escenario_b) /\
  (forall tv m,
     m_controlador (estado_tras (az := azar_ejemplo) cfg_escenario_b 128) =
       C_adaptativo (Ca_verde_p tv m) \/
     m_controlador (estado_tras (az := azar_ejemplo) cfg_escenario_b 128) =
       C_adaptativo (Ca_amarillo_p tv m) ->
     g_min cfg_escenario_b <= tv <= g_max cfg_escenario_b) /\
  (forall tv, m_fase (estado_tras (az := azar_ejemplo) cfg_escenario_b 128) =
              Some (Fv_inicial tv) ->
     g_min cfg_escenario_b <= tv <= g_max cfg_escenario_b) /\
  (forall tv n, m_fase (estado_tras (az := azar_ejemplo) cfg_escenario_b 128) =
                Some (Fv_extension tv n) ->
     g_min cfg_escenario_b <= tv <= g_max cfg_escenario_b).
Proof.
  apply (verde_adaptativo_acotado (az := azar_ejemplo) cfg_escenario_b).
  - vm_compute. discriminate.
  - reflexivity.
  - apply estado_tras_alcanzable. reflexivity.
Defined.

Section CicloFijo.

Context {az : Azar}.
Variable cfg : Config.


End CicloFijo.



Section CorridasIdenticas.

Context {az : Azar}.
Variable cfg : Config.


End CorridasIdenticas.


Section PrimeroEnLlegar.

Context {az : Azar}.
Variable cfg : Config.




End PrimeroEnLlegar.




Section EscenarioB.

Context {az : Azar}.
Variable cfg : Config.

(** C5 (what the code does). With [g_min = 20], [g_max = 60] and [b = 5] the
    green can only take the values [20 + 5 n] with [n <= 8], and no decision
    with motive MAXIMO_ALCANZADO is ever logged, in any run: after the eighth
    extension the test [tiempo_verde_total < g_max] of the [while] fails and
    the loop ends without a decision record. *)
Theorem escenario_b_sin_maximo : forall s,
  g_min cfg == 20 -> g_max cfg == 60 -> b_extension cfg == 5 ->
  alcanzable cfg s ->
  (forall tv n, m_fase s = Some (Fv_extension tv n) ->
     tv == 20 + 5 * inject_Z (Z.of_nat n) /\ (n <= 8)%nat) /\
  (forall r, In r (decisiones_adaptativas (registros s)) ->
     de_motivo r <> MAXIMO_ALCANZADO).
Proof.
  intros s Hmin Hmax Hb Ha.
  assert (Hk : g_max cfg == verde_tras cfg 8).
  { unfold verde_tras. rewrite Hmin, Hmax, Hb.
    change (inject_Z (Z.of_nat 8)) with 8. ring. }
  assert (Hb0 : 0 < b_extension cfg) by lra.
  split.
  - intros tv n Hf.
    assert (Hg : g_min cfg <= g_max cfg) by lra.
    assert (Hb' : 0 <= b_extension cfg) by lra.
    pose proof (alcanzable_verde_acotado cfg s Hg Hb' Ha) as (H1 & _ & _).
    rewrite Hf in H1. destruct H1 as [E L]. split.
    + rewrite E. unfold verde_tras. rewrite Hmin, Hb. ring.
    + destruct (le_lt_dec n 8) as [|Hn]; [assumption|exfalso].
      assert (H9 : verde_tras cfg 9 <= verde_tras cfg n).
      { apply verde_tras_le; [lra|lia]. }
      rewrite verde_tras_S in H9. lra.
  - exact (alcanzable_sin_maximo cfg 8 s Hk Hb0 Ha).
Qed.

End EscenarioB.

(** C5 on the run of [cfg_escenario_b], when the first green has ended. *)
Lemma escenario_b_ejemplo :
  (forall tv n, m_fase (estado_tras (az := azar_ejemplo) cfg_escenario_b 129) =
                Some (Fv_extension tv n) ->
     tv == 20 + 5 * inject_Z (Z.of_nat n) /\ (n <= 8)%nat) /\
  (forall r, In r (decisiones_adaptativas
                     (registros (estado_tras (az := azar_ejemplo) cfg_escenario_b 129))) ->
     de_motivo r <> MAXIMO_ALCANZADO).
Proof.
  apply (escenario_b_sin_maximo (az := azar_ejemplo) cfg_escenario_b).
  - reflexivity.
  - reflexivity.
  - reflexivity.
  - apply estado_tras_alcanzable. reflexivity.
Defined.


(** Scenario B run: at the end of the first green the controller holds a
    green of 60 s, eight EXTENSION decisions are logged, each taken with at
    least five vehicles queued, and nothing else. *)
Lemma escenario_b_ocho_extensiones :
  m_controlador (estado_tras (az := azar_ejemplo) cfg_escenario_b 129) =
    C_adaptativo (Ca_amarillo_v (20 + 5 + 5 + 5 + 5 + 5 + 5 + 5 + 5)) /\
  map (fun r => (de_tipo r, de_motivo r, 5 <=? de_cola_v r)%nat)
      (decisiones_adaptativas (registros (estado_tras (az := azar_ejemplo) cfg_escenario_b 129))) =
    repeat (EXTENSION, ALTA_DEMANDA_VEHICULAR, true) 8.
Proof. split; vm_compute; reflexivity. Qed.

Section PrioridadPeatonal.

Context {az : Azar}.
Variable cfg : Config.

(** C6. One pass of the extension loop, entered with
    [tiempo_verde_total < g_max]: the three stop tests are tried in the order
    (a) maximum pedestrian wait above [w_max], (b) vehicle queue shorter than
    [t_v], (c) [tiempo_verde_total + b] above [g_max]; the first that holds
    ends the loop with its decision record, and otherwise the green grows by
    [b]. And once a queued pedestrian has waited for more than [w_max] while
    the green phase of a cycle runs, that cycle gets no further extension:
    the frame of the phase keeps its [tiempo_verde_total] until the generator
    returns, and no EXTENSION decision is logged for the cycle any more. *)
Theorem prioridad_peatonal :
  (forall s tv n, tv < g_max cfg ->
     let cola := length (cola_vehiculos s) in
     let espera := SemaforoAdaptativo.obtener_espera_maxima_peatonal s in
     (w_max cfg < espera ->
        SemaforoAdaptativo.fase_bucle cfg tv n s =
        SemaforoAdaptativo.fase_retorna tv
          (registrar_decision cfg FIN_EXTENSION PRIORIDAD_PEATONAL
             (ValEspera espera (w_max cfg)) s)) /\
     (espera <= w_max cfg -> (Z.of_nat cola < t_v cfg)%Z ->
        SemaforoAdaptativo.fase_bucle cfg tv n s =
        SemaforoAdaptativo.fase_retorna tv
          (registrar_decision cfg FIN_EXTENSION COLA_VEHICULAR_BAJA
             (ValCola cola (t_v cfg)) s)) /\
     (espera <= w_max cfg -> (t_v cfg <= Z.of_nat cola)%Z ->
      g_max cfg < tv + b_extension cfg ->
        SemaforoAdaptativo.fase_bucle cfg tv n s =
        SemaforoAdaptativo.fase_retorna tv
          (registrar_decision cfg FIN_EXTENSION MAXIMO_ALCANZADO
             (ValMaximo tv (g_max cfg)) s)) /\
     (espera <= w_max cfg -> (t_v cfg <= Z.of_nat cola)%Z ->
      tv + b_extension cfg <= g_max cfg ->
        exists s', SemaforoAdaptativo.fase_bucle cfg tv n s = Bien s' /\
                   m_fase s' = Some (Fv_extension (tv + b_extension cfg) (S n)))) /\
  (forall s tv,
     alcanzable cfg s ->
     m_fase s = Some (Fv_inicial tv) \/ (exists n, m_fase s = Some (Fv_extension tv n)) ->
     espera_excedida cfg s ->
     forall k s', pasos cfg k s = Some s' ->
       extensiones_de (ciclo_numero s) (decisiones_adaptativas (registros s')) =
       extensiones_de (ciclo_numero s) (decisiones_adaptativas (registros s)) /\
       (ciclo_numero s' = ciclo_numero s ->
        m_fase s' = m_fase s \/ m_fase s' = None)).
Proof.
  split.
  - intros s tv n Htv cola espera. unfold SemaforoAdaptativo.fase_bucle.
    destruct (Qlt_le_dec tv (g_max cfg)) as [_|H]; [|lra].
    fold espera. fold cola.
    split; [|split; [|split]].
    + intros H. destruct (Qlt_le_dec (w_max cfg) espera); [reflexivity|lra].
    + intros H1 H2. destruct (Qlt_le_dec (w_max cfg) espera); [lra|].
      destruct (Z.ltb_spec (Z.of_nat cola) (t_v cfg)); [reflexivity|lia].
    + intros H1 H2 H3. destruct (Qlt_le_dec (w_max cfg) espera); [lra|].
      destruct (Z.ltb_spec (Z.of_nat cola) (t_v cfg)); [lia|].
      destruct (Qlt_le_dec (g_max cfg) (tv + b_extension cfg)); [reflexivity|lra].
    + intros H1 H2 H3. destruct (Qlt_le_dec (w_max cfg) espera); [lra|].
      destruct (Z.ltb_spec (Z.of_nat cola) (t_v cfg)); [lia|].
      destruct (Qlt_le_dec (g_max cfg) (tv + b_extension cfg)); [lra|].
      eexists. split; [reflexivity|]. destruct s; reflexivity.
  - intros s tv Ha Hmf He k s' Hk.
    destruct (pasos_invariante cfg
                (sin_mas_extension cfg (ciclo_numero s) (m_fase s)
                   (extensiones_de (ciclo_numero s) (decisiones_adaptativas (registros s)))))
      with (k := k) (s := s) (s' := s') as [_ (R1 & R2 & R3)]; auto.
    + intros s1 s2 Hi1 Hi2 R E.
      exact (sin_mas_extension_entorno cfg _ _ _ s1 s2 Hi1 Hi2 R E).
    + intros s1 s2 Hi1 Hi2 R E.
      exact (sin_mas_extension_paso cfg _ tv _ _ s1 s2 Hmf Hi1 Hi2 R E).
    + split; [reflexivity|]. split; [lia|]. intros _. left. auto.
    + split; [assumption|]. intros Hc. destruct (R3 Hc) as [[Hm _]|Hm]; auto.
Qed.

End PrioridadPeatonal.

Section SaltoPeatonal.

Context {az : Azar}.
Variable cfg : Config.

(** C7, as the code has it. Under the adaptive controller with [t_p >= 1]
    and [w_max >= 0]: when the controller takes its pedestrian-phase decision
    with the pedestrian queue empty, the step skips the phase. It starts the
    next cycle, adds nothing to the phase log, logs (when the clock is at or
    past the warm-up) a SALTAR_FASE_PEATONAL decision with motive
    SIN_PEATONES for the cycle, and no VERDE_PEATONAL or AMARILLO_PEATONAL
    entry of that cycle ever appears in the phase log. *)
Theorem salto_de_fase_peatonal : forall s,
  (0 < t_p cfg)%Z -> 0 <= w_max cfg ->
  alcanzable cfg s ->
  en_decision_peatonal s ->
  cola_peatones s = [] ->
  exists s',
    step cfg s = Sigue s' /\
    ciclo_numero s' = S (ciclo_numero s) /\
    eventos_semaforo (registros s') = eventos_semaforo (registros s) /\
    (warmup_time cfg <= ahora s' ->
     decisiones_adaptativas (registros s') =
       decisiones_adaptativas (registros s) ++
       [mkDecision (ahora s') (ciclo_numero s) SALTAR_FASE_PEATONAL SIN_PEATONES
          (ValColaP 0) (length (cola_vehiculos s)) 0]) /\
    forall k s'', pasos cfg k s' = Some s'' ->
      forall r, In r (eventos_semaforo (registros s'')) ->
        ev_ciclo r = ciclo_numero s -> ~ es_fase_peatonal (ev_fase r).
Proof.
  intros s Htp Hw Ha ((tv & Hc) & e & r & Hp & He) Hq.
  pose proof (alcanzable_inv_hilo cfg s Ha) as (Hf & Hmo & x & Hx & Hfo).
  pose proof (alcanzable_bitacora_fases cfg s Ha) as Hb.
  rewrite Hc in Hmo. cbn in Hmo.
  assert (Hs : exists s', step cfg s = Sigue s' /\
            ciclo_numero s' = S (ciclo_numero s) /\
            eventos_semaforo (registros s') = eventos_semaforo (registros s) /\
            (warmup_time cfg <= ahora s' ->
             decisiones_adaptativas (registros s') =
             decisiones_adaptativas (registros s) ++
             [mkDecision (ahora s') (ciclo_numero s) SALTAR_FASE_PEATONAL SIN_PEATONES
               (ValColaP 0) (length (cola_vehiculos s)) 0])).
  { unfold step. rewrite Hp, He. unfold reanudar_proceso. rewrite Hmo.
    destruct s; cbn in *. subst.
    unfold SemaforoAdaptativo.controlador. cbn.
    unfold SemaforoAdaptativo.debe_activar_fase_peatonal. cbn.
    destruct (Z.leb_spec (t_p cfg) (Z.of_nat 0)) as [Hz|Hz]; [cbn in Hz; lia|].
    unfold SemaforoAdaptativo.obtener_espera_maxima_peatonal. cbn.
    destruct (Qlt_le_dec (w_max cfg) 0); [lra|].
    cbn. eexists. split; [reflexivity|]. cbn.
    split; [reflexivity|]. split.
    - destruct (Qgeb (e_t e) (warmup_time cfg)); reflexivity.
    - intros Hwu. unfold Qgeb. destruct (Qlt_le_dec (e_t e) (warmup_time cfg)); [lra|].
      reflexivity. }
  destruct Hs as (s' & Hs & Hci & Hev & Hde).
  exists s'. repeat (split; [assumption|]).
  assert (Ha' : alcanzable cfg s') by (eapply alc_paso; eauto).
  assert (R0 : sin_fase_peatonal (ciclo_numero s) s').
  { split; [lia|]. rewrite Hev. intros r0 Hin Hcr Hpe.
    destruct (Hb r0 Hin) as [_ Hb2]. specialize (Hb2 Hcr Hpe).
    rewrite Hc in Hb2. exact Hb2. }
  intros k s'' Hk.
  destruct (pasos_invariante cfg (sin_fase_peatonal (ciclo_numero s))) with (k := k) (s := s') (s' := s'')
    as [_ [_ R]]; auto.
  - intros s1 s2 _ _ [R1 R2] E. split.
    + rewrite (ent_ciclo _ _ E). exact R1.
    + rewrite (ent_eventos _ _ E). exact R2.
  - intros s1 s2 _ _ [R1 R2] Hh. destruct (paso_hilo_eventos cfg s1 s2 Hh) as [Hle Hn].
    split; [lia|]. intros r0 Hin Hcr. destruct (Hn r0 Hin) as [Hold|Hnew].
    + exact (R2 r0 Hold Hcr).
    + lia.
Qed.

End SaltoPeatonal.

(** C7 on the run of [cfg_sin_peatones]: the first decision of the
    controller, taken at 23 with nobody waiting. *)
Lemma salto_de_fase_peatonal_ejemplo :
  exists s',
    step (az := azar_ejemplo) cfg_sin_peatones
      (estado_tras (az := azar_ejemplo) cfg_sin_peatones 37) = Sigue s' /\
    ciclo_numero s' = S (ciclo_numero (estado_tras (az := azar_ejemplo) cfg_sin_peatones 37)) /\
    eventos_semaforo (registros s') =
      eventos_semaforo (registros (estado_tras (az := azar_ejemplo) cfg_sin_peatones 37)) /\
    (warmup_time cfg_sin_peatones <= ahora s' ->
     decisiones_adaptativas (registros s') =
       decisiones_adaptativas (registros (estado_tras (az := azar_ejemplo) cfg_sin_peatones 37)) ++
       [mkDecision (ahora s')
          (ciclo_numero (estado_tras (az := azar_ejemplo) cfg_sin_peatones 37))
          SALTAR_FASE_PEATONAL SIN_PEATONES (ValColaP 0)
          (length (cola_vehiculos (estado_tras (az := azar_ejemplo) cfg_sin_peatones 37))) 0]) /\
    forall k s'', pasos (az := azar_ejemplo) cfg_sin_peatones k s' = Some s'' ->
      forall r, In r (eventos_semaforo (registros s'')) ->
        ev_ciclo r = ciclo_numero (estado_tras (az := azar_ejemplo) cfg_sin_peatones 37) ->
        ~ es_fase_peatonal (ev_fase r).
Proof.
  apply (salto_de_fase_peatonal (az := azar_ejemplo) cfg_sin_peatones).
  - reflexivity.
  - vm_compute. discriminate.
  - apply estado_tras_alcanzable. reflexivity.
  - split.
    + exists 20. vm_compute. reflexivity.
    + vm_compute. eexists. eexists. split; reflexivity.
  - vm_compute. reflexivity.
Defined.

(** C7 as stated fails when [t_p = 0]: the test [cola_p >= t_p] holds for
    the empty queue, so the first decision of the run of [cfg_umbral_cero]
    starts the pedestrian green and logs VERDE_PEATONAL. *)
Lemma umbral_cero_activa_fase : ~ salta_sin_peatones (az := azar_ejemplo) cfg_umbral_cero.
Proof.
  intros H.
  destruct (H (estado_tras (az := azar_ejemplo) cfg_umbral_cero 37)) as (s' & Hs & He).
  - apply estado_tras_alcanzable. reflexivity.
  - split.
    + exists 20. vm_compute. reflexivity.
    + vm_compute. eexists. eexists. split; reflexivity.
  - vm_compute. reflexivity.
  - vm_compute in Hs. injection Hs as <-. vm_compute in He. discriminate He.
Qed.

Section Construccion.

Context {az : Azar}.

(** C8, as the code has it. The constructors validate nothing: for every
    configuration they succeed and store the given values unchanged. An
    invalid value shows only when the run uses it: with a vehicle arrival
    rate of 0 (and a positive horizon) the first event of [env.run], the
    start of [generar_vehiculos], raises [ZeroDivisionError] in
    [random.expovariate]. *)
Theorem construccion_sin_validacion : forall cfg,
  (exists g sem, construir cfg = inr (g, sem) /\ guarda_config cfg g sem) /\
  (lambda_v cfg == 0 -> 0 < tiempo_sim cfg ->
   forall n, simular cfg (S n) = Falla ZeroDivisionError).
Proof.
  intros cfg. split.
  - unfold construir, guarda_config. cbn. destruct (control cfg); eauto.
  - intros Hl Ht n. unfold simular, env_run_inicio, estado_inicial.
    destruct (verbose cfg); cbn.
    all: destruct (Qlt_le_dec 0 (tiempo_sim cfg)) as [_|H]; [|lra].
    all: unfold step, heappop, extraer, clave_lt; cbn.
    all: repeat match goal with
                | |- context [Qlt_le_dec ?a ?b] => destruct (Qlt_le_dec a b); try lra
                end.
    all: cbn; unfold generar_vehiculos_espera, expovariate.
    all: destruct (Qeq_dec (lambda_v cfg) 0) as [_|H]; [reflexivity|contradiction].
Qed.

End Construccion.

(** C8 as stated fails: [cfg_invalida] has a zero arrival rate,
    [g_min > g_max], a negative amber and a horizon below the warm-up, and
    it is constructed without an error. *)
Lemma construccion_acepta_config_invalida : ~ valida_al_construir.
Proof.
  intros H. destruct (H cfg_invalida) as [e He].
  - left. vm_compute. discriminate.
  - discriminate He.
Qed.

Section RegistrosPorFase.

Context {az : Azar}.
Variable cfg : Config.

(** C9, as the code has it. Whenever [controlador] of [SemaforoFijo] is
    resumed at or after the warm-up (and the amber time is not negative) it
    starts a phase at the current clock time and appends the phase record of
    that phase. It appends a queue snapshot of the new phase only when that
    phase is a green one; an amber phase gets none at its start, and the end
    of the pedestrian amber (the end of the cycle) gets one, taken before the
    next cycle starts. *)
Theorem registros_al_iniciar_fase : forall m v s,
  entrada_fijo m v -> 0 <= amarillo cfg -> warmup_time cfg <= ahora s ->
  exists s',
    SemaforoFijo.controlador cfg m v s = Bien s' /\
    ahora s' = ahora s /\
    eventos_semaforo (registros s') =
      eventos_semaforo (registros s) ++
      [mkEvento (ahora s) (fase_actual s') (duracion_fase cfg (fase_actual s'))
         (ciclo_numero s') (length (cola_vehiculos s)) (length (cola_peatones s)) SinInfo] /\
    estado_colas (registros s') =
      estado_colas (registros s) ++
      match m with
      | C_fijo Cf_amarillo_p => [instantanea s (fase_actual s)]
      | _ => []
      end ++
      match fase_actual s' with
      | VERDE_VEHICULAR | VERDE_PEATONAL => [instantanea s (fase_actual s')]
      | _ => []
      end.
Proof.
  intros m v s He Ha Hw.
  assert (Hg : Qgeb (ahora s) (warmup_time cfg) = true).
  { unfold Qgeb. destruct (Qlt_le_dec (ahora s) (warmup_time cfg)); [lra|reflexivity]. }
  destruct s; cbn in *.
  destruct m as [|[]|]; destruct v; cbn in He; try contradiction.
  all: unfold SemaforoFijo.controlador, SemaforoFijo.controlador_ciclo, env_timeout,
         registrar_evento, registrar_estado_cola, tras_warmup; cbn.
  all: rewrite ?Hg; cbn.
  all: try (destruct (Qlt_le_dec (amarillo cfg) 0); [lra|]).
  all: eexists; split; [reflexivity|]; cbn.
  all: rewrite ?Hg; cbn.
  all: unfold instantanea; cbn; rewrite ?app_nil_r, <- ?app_assoc; auto.
Qed.

End RegistrosPorFase.

(** C9 on the run of [cfg_reencola]: the vehicle amber of cycle 1 starts at
    clock time 10. *)
Lemma registros_al_iniciar_fase_ejemplo :
  exists s',
    SemaforoFijo.controlador cfg_reencola (C_fijo Cf_verde_v) (VNat 1)
      (estado_tras (az := azar_ejemplo) cfg_reencola 18) = Bien s' /\
    ahora s' = ahora (estado_tras (az := azar_ejemplo) cfg_reencola 18) /\
    fase_actual s' = AMARILLO_VEHICULAR /\
    length (eventos_semaforo (registros s')) =
      S (length (eventos_semaforo (registros (estado_tras (az := azar_ejemplo) cfg_reencola 18)))) /\
    estado_colas (registros s') =
      estado_colas (registros (estado_tras (az := azar_ejemplo) cfg_reencola 18)).
Proof.
  destruct (registros_al_iniciar_fase cfg_reencola (C_fijo Cf_verde_v) (VNat 1)
              (estado_tras (az := azar_ejemplo) cfg_reencola 18))
    as (s' & H1 & H2 & H3 & H4).
  - exact I.
  - vm_compute. discriminate.
  - vm_compute. discriminate.
  - exists s'. split; [exact H1|]. split; [exact H2|].
    assert (Hf : fase_actual s' = AMARILLO_VEHICULAR).
    { vm_compute in H1. injection H1 as <-. reflexivity. }
    split; [exact Hf|]. split.
    + rewrite H3, length_app. cbn. lia.
    + rewrite H4, Hf. cbn. now rewrite app_nil_r.
Defined.

(** C9 as stated fails on the run of [cfg_reencola]: the phase log holds the
    vehicle amber that starts at 10, and no snapshot is taken at 10. *)
Lemma fase_sin_instantanea : ~ fases_con_instantanea (az := azar_ejemplo).
Proof.
  intros H.
  remember (simular (az := azar_ejemplo) cfg_reencola 105) as f eqn:E.
  vm_compute in E.
  match type of E with
  | _ = Completa ?s => pose proof (H cfg_reencola 105%nat s eq_refl) as Hs
  end.
  clear E H.
  match type of Hs with
  | ?P -> _ => assert (Hp : P) by (vm_compute; reflexivity); specialize (Hs Hp); clear Hp
  end.
  unfold instantanea_por_fase in Hs. cbn [registros eventos_semaforo estado_colas] in Hs.
  match type of Hs with
  | forall r, In r ?l -> _ =>
      destruct (Hs (nth 1 l (mkEvento 0 VERDE_VEHICULAR 0 0 0 0 SinInfo))) as (e & Hin & Ht)
  end.
  - cbn. auto.
  - cbn in Hin, Ht.
    repeat (destruct Hin as [<-|Hin]; [vm_compute in Ht; discriminate Ht|]).
    exact Hin.
Qed.

Section RelojDeServicio.

Context {az : Azar}.
Variable cfg : Config.


End RelojDeServicio.

(** The arrivals of the run of [cfg_reencola] are at least 3 seconds apart. *)
Lemma llegadas_espaciadas_ejemplo : forall desde cuantos,
  llegadas_espaciadas (az := azar_ejemplo) cfg_reencola 3 desde cuantos.
Proof.
  intros desde cuantos. split; [reflexivity|]. intros k _.
  unfold azar_ejemplo, azar_de, mt_random, menos_log1m.
  change (length [1; 2]) with 2%nat.
  pose proof (Nat.mod_upper_bound k 2) as Hk.
  destruct (k mod 2)%nat as [|[|n]]; [split; vm_compute; discriminate ..|lia].
Defined.



(** ** Further invariants of a run *)

(** All the ways another process can move: the state is opened, the event is
    analysed, and the new state replaces [s']. *)
Ltac entorno_casos s He :=
  let e := fresh "e" in let r := fresh "r" in
  let Hp := fresh "Hp" in let Fe := fresh "Fe" in let Fr := fresh "Fr" in
  let Ht := fresh "Ht" in let Hm := fresh "Hm" in let H := fresh "H" in
  let p := fresh "p" in let v := fresh "v" in let Ea := fresh "Ea" in
  let G := fresh "G" in
  destruct He as (e & r & Hp & Fe & Fr & Ht & Hm & H);
  unfold step in H; rewrite Hp in H; unfold es_hilo in Fe;
  destruct s; cbn in *;
  destruct (e_acc e) as [p|p v| |] eqn:Ea; try discriminate;
    [destruct p; try discriminate; cbn in H; resultado H G
    |destruct p; try discriminate; cbn in H; resultado H G
    |injection H as <-];
    try (unfold generar_vehiculos, generar_peatones, generar_vehiculos_espera,
           generar_peatones_espera, monitor, expovariate, env_timeout in G;
         cbn in G; partir G; injection G as <-);
    cbn in *.

Section EntornoFino.

Context {az : Azar}.
Variable cfg : Config.

Lemma paso_casos_fino : forall s s' x,
  agenda_futura s ->
  filter es_hilo (agenda s) = [x] ->
  step cfg s = Sigue s' ->
  paso_entorno cfg s s' \/ paso_hilo cfg s s'.
Proof.
  intros s s' x Hf Hx H. pose proof H as H'. unfold step in H'.
  destruct (heappop (agenda s)) as [[e r]|] eqn:Hp; [|discriminate].
  assert (Ht : ahora s <= e_t e) by (apply Hf; now apply heappop_in in Hp).
  assert (Hm := heappop_min _ _ _ Hp).
  destruct (heappop_unico es_hilo _ _ _ _ Hp Hx) as [(Fe & -> & Fr)|(Fe & Fr)].
  - right. exists x, r. repeat split; auto.
    unfold reanuda_hilo. unfold es_hilo in Fe.
    destruct (e_acc x); try discriminate.
    + destruct (iniciar_proceso cfg p _); [congruence|discriminate].
    + destruct (reanudar_proceso cfg p v _); [congruence|discriminate].
  - left. exists e, r. repeat split; auto. congruence.
Qed.

(** Proving an invariant of the reachable states, with the steps of the
    environment in full. *)
Lemma alcanzable_invariante_fino : forall P : Sim -> Prop,
  (forall s, env_run_inicio (tiempo_sim cfg) (estado_inicial cfg) = Bien s -> P s) ->
  (forall s s', alcanzable cfg s -> alcanzable cfg s' -> P s ->
                paso_entorno cfg s s' -> P s') ->
  (forall s s', alcanzable cfg s -> alcanzable cfg s' -> P s ->
                paso_hilo cfg s s' -> P s') ->
  forall s, alcanzable cfg s -> P s.
Proof.
  intros P H0 He Hh s H. induction H as [s H|s s' H IH Hs]; [auto|].
  assert (Ha' : alcanzable cfg s') by (eapply alc_paso; eauto).
  destruct (alcanzable_inv_hilo cfg s H) as (Hf & Hm & x & Hx & Hfo).
  destruct (paso_casos_fino s s' x Hf Hx Hs) as [E|Hp]; eauto.
Qed.

(** The initial states, opened. *)
Lemma estado_de_inicio : forall (P : Sim -> Prop),
  (forall s, ahora s = 0 -> cola_vehiculos s = [] -> cola_peatones s = [] ->
             vehiculo_id s = 0%nat -> peaton_id s = 0%nat ->
             ciclo_numero s = 0%nat -> registros s = registros_vacios ->
             m_controlador s = C_creado -> m_fase s = None -> m_atender s = None ->
             P s) ->
  forall s, env_run_inicio (tiempo_sim cfg) (estado_inicial cfg) = Bien s -> P s.
Proof.
  intros P H s E. unfold env_run_inicio, estado_inicial in E.
  destruct (verbose cfg); cbn in E.
  all: destruct (Qlt_le_dec 0 (tiempo_sim cfg)); [|discriminate].
  all: injection E as <-; apply H; reflexivity.
Qed.

End EntornoFino.

Lemma Qgeb_verdad : forall a b, Qgeb a b = true -> b <= a.
Proof. intros a b. unfold Qgeb. destruct (Qlt_le_dec a b); [discriminate|auto]. Qed.

(** A record of a log after a step: an old one, or the one just appended. *)
Ltac en_bitacora Hin :=
  repeat match type of Hin with
         | context [if ?c then _ else _] =>
             let Eg := fresh "Eg" in
             destruct c eqn:Eg; [try apply Qgeb_verdad in Eg|]
         end;
  cbn in Hin; rewrite ?in_app_iff in Hin; cbn in Hin.

(** Proving an invariant of the reachable states from the invariants
    already known of them. *)
Section InvarianteAlcanzable.

Context {az : Azar}.
Variable cfg : Config.

Lemma alcanzable_invariante_alc : forall P : Sim -> Prop,
  (forall s, env_run_inicio (tiempo_sim cfg) (estado_inicial cfg) = Bien s -> P s) ->
  (forall s s', alcanzable cfg s -> alcanzable cfg s' -> P s -> entorno s s' -> P s') ->
  (forall s s', alcanzable cfg s -> alcanzable cfg s' -> P s -> paso_hilo cfg s s' -> P s') ->
  forall s, alcanzable cfg s -> P s.
Proof.
  intros P H0 He Hh s H. induction H as [s H|s s' H IH Hs]; [auto|].
  assert (Ha' : alcanzable cfg s') by (eapply alc_paso; eauto).
  destruct (alcanzable_inv_hilo cfg s H) as (Hf & Hm & x & Hx & Hfo).
  destruct (paso_casos cfg s s' x Hf Hx Hs) as [[E Hf']|Hp]; eauto.
Qed.

End InvarianteAlcanzable.

Section ServiciosCoherentes.

Context {az : Azar}.
Variable cfg : Config.

Lemma servicios_coherentes_inicio : forall s,
  env_run_inicio (tiempo_sim cfg) (estado_inicial cfg) = Bien s ->
  servicios_coherentes cfg s.
Proof.
  apply estado_de_inicio. intros s _ _ _ _ _ _ Hr Hc _ Ha. revert Hc. unfold servicios_coherentes.
  intros Hc. rewrite Hr, Ha, Hc. cbn. split; [intros r [[]|[]]|]. split; [congruence|]. auto.
Qed.

Lemma servicios_coherentes_entorno : forall s s',
  inv_hilo cfg s -> inv_hilo cfg s' -> servicios_coherentes cfg s -> entorno s s' ->
  servicios_coherentes cfg s'.
Proof.
  intros s s' _ _ (H1 & H2 & H3) E. unfold servicios_coherentes, servicio_coherente in *.
  rewrite (ent_serv_v _ _ E), (ent_serv_p _ _ E), (ent_ciclo _ _ E),
    (ent_atender _ _ E), (ent_hilo _ _ E), (ent_controlador _ _ E).
  pose proof (ent_ahora _ _ E). split; [|split; auto].
  intros r Hr. specialize (H1 r Hr). intuition lra.
Qed.

Lemma servicios_coherentes_paso : forall s s',
  inv_hilo cfg s -> llegadas_pasadas s -> servicios_coherentes cfg s ->
  paso_hilo cfg s s' -> servicios_coherentes cfg s'.
Proof.
  intros s s' (Hf & Hmo & x & Hxx & Hfo) (L1 & L2 & L3) (H1 & H2 & H3) Hh.
  specialize (H3 x Hxx). specialize (L3 x Hxx).
  unfold servicios_coherentes, servicio_coherente, inv_hilo, forma_hilo, lugar_atender,
    agenda_futura, forma_atender, forma_fase, forma_controlador, modo_ok in *.
  hilo_casos s Hh.
  all: rewrite Hx in Hxx; injection Hxx as <-.
  all: abrir_marcos Hfo.
  all: cbn in *; descomponer; subst; try congruence.
  all: split; [|split].
  all: try (intros _; lia).
  all: try (intros Hc; first [congruence | lia | (assert (Hc' := H2 ltac:(discriminate)); lia)]).
  all: try (intros x' Hx'; rewrite ?Hr in Hx'; injection Hx' as <-; cbn; try exact I;
            repeat split; try lra; try (apply (L3 _ _ eq_refl)); auto).
  all: try (intros r0 Hin; en_bitacora Hin;
            repeat match goal with
                   | H : _ \/ _ |- _ => destruct H
                   | H : False |- _ => destruct H
                   end; subst; cbn;
            try (match goal with
                 | Hp : In ?r _, H : forall r, In r _ \/ In r _ -> _ |- _ =>
                     first [ specialize (H r (or_introl Hp)) | specialize (H r (or_intror Hp)) ]
                 end);
            intuition (try lra; try lia)).
  all: try (pose proof (L3 _ _ Ea); lra).
  all: try (assert (Hc' := H2 ltac:(discriminate)); lia).
Qed.

Lemma alcanzable_servicios_coherentes : forall s,
  alcanzable cfg s -> servicios_coherentes cfg s.
Proof.
  apply (alcanzable_invariante_alc cfg (servicios_coherentes cfg)).
  - exact servicios_coherentes_inicio.
  - intros s s' Ha Ha' H E.
    apply (servicios_coherentes_entorno s s'); auto; now apply (alcanzable_inv_hilo cfg).
  - intros s s' Ha Ha' H E.
    apply (servicios_coherentes_paso s s'); auto.
    + now apply (alcanzable_inv_hilo cfg).
    + now apply (alcanzable_llegadas_pasadas cfg).
Qed.

End ServiciosCoherentes.

Section LuzDelMarco.

Context {az : Azar}.
Variable cfg : Config.

Lemma luz_del_marco_inicio : forall s,
  env_run_inicio (tiempo_sim cfg) (estado_inicial cfg) = Bien s -> luz_del_marco s.
Proof.
  intros s H. unfold env_run_inicio, estado_inicial in H.
  destruct (verbose cfg); cbn in H;
    (destruct (Qlt_le_dec 0 (tiempo_sim cfg)); [|discriminate]);
    injection H as <-; reflexivity.
Qed.

Lemma luz_del_marco_entorno : forall s s',
  inv_hilo cfg s -> inv_hilo cfg s' -> luz_del_marco s -> entorno s s' ->
  luz_del_marco s'.
Proof.
  intros s s' _ _ H E. unfold luz_del_marco.
  rewrite (ent_fase_actual _ _ E), (ent_controlador _ _ E). exact H.
Qed.

Lemma luz_del_marco_paso : forall s s',
  inv_hilo cfg s -> inv_hilo cfg s' -> luz_del_marco s -> paso_hilo cfg s s' ->
  luz_del_marco s'.
Proof.
  intros s s' (Hf & Hmo & x & Hxx & Hfo) _ H Hh.
  unfold luz_del_marco, inv_hilo, forma_hilo,
    lugar_atender, agenda_futura, forma_atender, forma_fase, forma_controlador,
    modo_ok in *.
  hilo_casos s Hh.
  all: rewrite Hx in Hxx; injection Hxx as <-.
  all: abrir_marcos Hfo.
  all: cbn in *; descomponer; subst; try congruence.
  all: try reflexivity.
Qed.

Lemma alcanzable_luz_del_marco : forall s, alcanzable cfg s -> luz_del_marco s.
Proof.
  apply (alcanzable_invariante cfg luz_del_marco).
  - exact luz_del_marco_inicio.
  - exact luz_del_marco_entorno.
  - exact luz_del_marco_paso.
Qed.

End LuzDelMarco.

(** An event processed while the stop event waits lies before the horizon,
    and the stop event stays on the heap. *)
Lemma pop_antes_del_fin : forall cfg s e r,
  antes_del_fin cfg s -> heappop (agenda s) = Some (e, r) -> e_acc e <> Detener ->
  e_t e < tiempo_sim cfg /\
  (forall x, In x r -> e_acc x = Detener -> e_t x == tiempo_sim cfg) /\
  exists d, In d r /\ e_acc d = Detener /\ e_prio d = URGENT /\
            (e_eid d < sig_eid s)%nat /\
            forall x, In x r -> e_acc x <> Detener ->
              e_t x < tiempo_sim cfg \/ (e_eid d < e_eid x)%nat.
Proof.
  intros cfg s e r (_ & H1 & H2 & d & Hd & Ad & Pd & Ed & H3) Hp Hn.
  pose proof (heappop_perm _ _ _ Hp) as Pm.
  destruct (heappop_in _ _ _ Hp) as [Ie Ir].
  assert (Dr : In d r).
  { apply (Permutation_in _ Pm) in Hd. destruct Hd as [<-|]; [congruence|assumption]. }
  split; [|split].
  - pose proof (heappop_min_clave _ _ _ Hp d Dr) as K.
    pose proof (H2 d Hd Ad) as Td.
    destruct (H3 e Ie Hn) as [|He]; [assumption|].
    revert K. unfold clave_lt. rewrite Pd. unfold URGENT.
    repeat match goal with
           | |- context [Qlt_le_dec ?x ?y] => destruct (Qlt_le_dec x y)
           | |- context [(?x <? ?y)%nat] => destruct (Nat.ltb_spec x y)
           end; intros; try discriminate; try lra; try lia.
  - intros x Hx. apply H2. auto.
  - exists d. repeat split; auto.
Qed.

Section Horizonte.

Context {az : Azar}.
Variable cfg : Config.

Lemma antes_del_fin_inicio : forall s,
  env_run_inicio (tiempo_sim cfg) (estado_inicial cfg) = Bien s -> antes_del_fin cfg s.
Proof.
  intros s E. unfold env_run_inicio, estado_inicial in E.
  destruct (verbose cfg); cbn in E.
  all: destruct (Qlt_le_dec 0 (tiempo_sim cfg)); [|discriminate].
  all: injection E as <-; unfold antes_del_fin; cbn.
  all: split; [lra|split; [assumption|split]].
  all: try (intros x Hx Ax;
            repeat (destruct Hx as [<-|Hx]; [cbn in *; try discriminate; try lra|]);
            contradiction).
  all: eexists; split; [left; reflexivity|]; cbn; repeat split; try lia.
  all: intros x Hx Ax;
       repeat (destruct Hx as [<-|Hx]; [cbn in *; try congruence; left; lra|]);
       contradiction.
Qed.

Ltac en_agenda :=
  let x := fresh "x" in let Hx := fresh "Hx" in let Ax := fresh "Ax" in
  intros x Hx Ax;
  repeat (destruct Hx as [<-|Hx]; [cbn in *; first [discriminate | right; lia]|]); auto.

Ltac cierra_fin :=
  unfold antes_del_fin; cbn in *;
  split; [lra|split; [assumption|split]];
  [ en_agenda
  | match goal with
    | Dr : In ?d _ |- _ =>
        exists d; split; [cbn; auto 6|]; repeat split; auto; try lia; en_agenda
    end ].

Lemma antes_del_fin_entorno : forall s s',
  antes_del_fin cfg s -> paso_entorno cfg s s' -> antes_del_fin cfg s'.
Proof.
  intros s s' Hi He.
  assert (He' := He). destruct He' as (e0 & r0 & Hp0 & Fe0 & _).
  assert (exists a, e_acc e0 = a /\ a <> Detener) as (a0 & Ea0 & Na0).
  { eexists; split; [reflexivity|]. unfold es_hilo in Fe0. intros E.
    pose proof He as (e1 & r1 & Hp1 & _ & _ & _ & _ & Hs). rewrite Hp0 in Hp1.
    injection Hp1 as <- <-. unfold step in Hs. rewrite Hp0, E in Hs. discriminate. }
  rewrite <- Ea0 in Na0. clear Ea0 a0.
  destruct (pop_antes_del_fin _ _ _ _ Hi Hp0 Na0) as (P1 & P2 & d & Dr & Ad & Pd & Ed & P3).
  destruct Hi as [P0 _]. revert P0 P1 P2 Dr Ed P3.
  entorno_casos s He.
  all: rewrite Hp in Hp0; injection Hp0 as <- <-.
  all: intros; cierra_fin.
Qed.

Lemma antes_del_fin_paso : forall s s',
  antes_del_fin cfg s -> paso_hilo cfg s s' -> antes_del_fin cfg s'.
Proof.
  intros s s' Hi Hh.
  assert (He' := Hh). destruct He' as (e0 & r0 & Hp0 & _ & Fe0 & _).
  assert (Na0 : e_acc e0 <> Detener).
  { unfold es_hilo in Fe0. intros E. rewrite E in Fe0. discriminate. }
  destruct (pop_antes_del_fin _ _ _ _ Hi Hp0 Na0) as (P1 & P2 & d & Dr & Ad & Pd & Ed & P3).
  destruct Hi as [P0 _]. revert P0 P1 P2 Dr Ed P3.
  hilo_casos s Hh.
  all: rewrite Hp in Hp0; injection Hp0 as <- <-.
  all: intros; cierra_fin.
Qed.

Lemma alcanzable_antes_del_fin : forall s, alcanzable cfg s -> antes_del_fin cfg s.
Proof.
  apply (alcanzable_invariante_fino cfg (antes_del_fin cfg)).
  - exact antes_del_fin_inicio.
  - intros s s' _ _ H E. now apply (antes_del_fin_entorno s s').
  - intros s s' _ _ H E. now apply (antes_del_fin_paso s s').
Qed.

(** A completed run was stopped by the stop event, in a state of the run. *)
Lemma env_run_bucle_completa : forall n s1 s,
  alcanzable cfg s1 -> env_run_bucle cfg n s1 = Completa s ->
  exists s0, alcanzable cfg s0 /\ step cfg s0 = Parada s.
Proof.
  induction n as [|n IH]; intros s1 s Ha H; cbn in H; [discriminate|].
  destruct (step cfg s1) as [s2|s2|x] eqn:Es; try discriminate.
  - apply (IH s2); [|exact H]. eapply alc_paso; eauto.
  - injection H as <-. exists s1. auto.
Qed.

Lemma simular_completa : forall n s,
  simular cfg n = Completa s ->
  exists s0, alcanzable cfg s0 /\ step cfg s0 = Parada s.
Proof.
  intros n s H. unfold simular in H.
  destruct (env_run_inicio (tiempo_sim cfg) (estado_inicial cfg)) as [s1|] eqn:E;
    [|discriminate].
  apply (env_run_bucle_completa n s1); [|exact H]. now apply alc_inicio.
Qed.

(** What the stop event does: the clock moves to the horizon and nothing
    else changes but the heap. *)
Lemma parada_en_el_fin : forall s0 s,
  alcanzable cfg s0 -> step cfg s0 = Parada s ->
  exists e r, heappop (agenda s0) = Some (e, r) /\ e_acc e = Detener /\
              e_t e == tiempo_sim cfg /\
              s = con_agenda r (con_ahora (e_t e) s0).
Proof.
  intros s0 s Ha H. unfold step in H.
  destruct (heappop (agenda s0)) as [[e r]|] eqn:Hp; [|discriminate].
  exists e, r. split; [reflexivity|].
  assert (Ae : e_acc e = Detener).
  { destruct (e_acc e); try reflexivity; try discriminate.
    - destruct (iniciar_proceso cfg p _); discriminate.
    - destruct (reanudar_proceso cfg p v _); discriminate. }
  rewrite Ae in H. injection H as <-. repeat split; auto.
  destruct (alcanzable_antes_del_fin s0 Ha) as (_ & _ & H2 & _).
  apply H2; [|exact Ae]. now apply heappop_in in Hp.
Qed.

End Horizonte.

Lemma Qgeb_falso : forall a b, Qgeb a b = false -> a < b.
Proof. intros a b. unfold Qgeb. destruct (Qlt_le_dec a b); [auto|discriminate]. Qed.

Ltac abrir_censo :=
  unfold veces, censo, en_mano, contador in *; cbn in *;
  repeat match goal with
         | H : filter es_hilo _ = _ |- _ => rewrite H in *; cbn in *
         end;
  unfold agente_de in *;
  repeat match goal with
         | H : e_acc _ = _ |- _ => rewrite H in *; cbn in *
         end.

Ltac contar :=
  repeat (progress (
    repeat rewrite map_app; repeat rewrite count_occ_app;
    repeat match goal with
           | H : context [count_occ _ (_ ++ _) _] |- _ => rewrite count_occ_app in H
           | H : context [map _ (_ ++ _)] |- _ => rewrite map_app in H
           end;
    cbn [map count_occ ag_id sv_id] in *;
    repeat match goal with
           | |- context [Nat.eq_dec ?a ?b] => destruct (Nat.eq_dec a b); try subst
           | H : context [Nat.eq_dec ?a ?b] |- _ => destruct (Nat.eq_dec a b); try subst
           end)).

Ltac usar_censo :=
  repeat match goal with
         | H : _ /\ _ |- _ => destruct H
         end;
  repeat split; intros;
  repeat match goal with
         | H : warmup_time _ <= 0 -> _, W : warmup_time _ <= 0 |- _ => specialize (H W)
         end;
  try lia.

Section Censo.

Context {az : Azar}.
Variable cfg : Config.

Lemma censo_ok_inicio : forall s,
  env_run_inicio (tiempo_sim cfg) (estado_inicial cfg) = Bien s -> censo_ok cfg s.
Proof.
  apply estado_de_inicio. intros s _ Hv Hp Nv Np _ Hr _ _ Ha c i.
  unfold veces, censo, en_mano, contador. rewrite Hr, Ha.
  destruct c; cbn; rewrite ?Hv, ?Hp, ?Nv, ?Np; cbn; lia.
Qed.

Lemma censo_ok_entorno : forall s s',
  0 <= ahora s -> censo_ok cfg s -> paso_entorno cfg s s' -> censo_ok cfg s'.
Proof.
  intros s s' H0 H He. unfold censo_ok in *.
  entorno_casos s He.
  all: intros c i.
  all: pose proof (H Vehicular i) as Hv; pose proof (H Peatonal i) as Hq.
  all: pose proof (H Vehicular (S vehiculo_id0)) as Hv'.
  all: pose proof (H Peatonal (S peaton_id0)) as Hq'.
  all: clear H.
  all: destruct c.
  all: repeat match goal with
              | |- context [if Qgeb ?a ?b then _ else _] => destruct (Qgeb a b) eqn:?
              end.
  all: abrir_censo.
  all: match goal with m : option MarcoAtender |- _ => destruct m as [[[] | | [] | | []]|] end.
  all: cbn in *; rewrite ?Fr in *.
  all: contar.
  all: usar_censo.
Qed.

Lemma censo_ok_paso : forall s s',
  inv_hilo cfg s -> 0 <= ahora s -> censo_ok cfg s -> paso_hilo cfg s s' -> censo_ok cfg s'.
Proof.
  intros s s' (Hf & Hmo & x & Hxx & Hfo) H0 H Hh.
  unfold censo_ok, inv_hilo, forma_hilo, lugar_atender, agenda_futura, forma_atender,
    forma_fase, forma_controlador, modo_ok in *.
  hilo_casos s Hh.
  all: rewrite Hx in Hxx; injection Hxx as <-.
  all: abrir_marcos Hfo.
  all: cbn in *; descomponer; subst; try congruence.
  all: intros c i.
  all: pose proof (H Vehicular i) as Hv; pose proof (H Peatonal i) as Hq.
  all: clear H.
  all: destruct c.
  all: repeat match goal with
              | |- context [if Qgeb ?a ?b then _ else _] =>
                  let Eg := fresh "Eg" in
                  destruct (Qgeb a b) eqn:Eg; [|apply Qgeb_falso in Eg]
              end.
  all: abrir_censo.
  all: rewrite ?Hr in *; cbn in *.
  all: contar.
  all: usar_censo.
  all: try (exfalso; lra).
Qed.

Lemma alcanzable_censo_ok : forall s, alcanzable cfg s -> censo_ok cfg s.
Proof.
  apply (alcanzable_invariante_fino cfg (censo_ok cfg)).
  - exact censo_ok_inicio.
  - intros s s' Ha _ H E. apply (censo_ok_entorno s s'); auto.
    now destruct (alcanzable_antes_del_fin cfg s Ha).
  - intros s s' Ha _ H E. apply (censo_ok_paso s s'); auto.
    + now apply (alcanzable_inv_hilo cfg).
    + now destruct (alcanzable_antes_del_fin cfg s Ha).
Qed.

End Censo.

Lemma en_orden_nil : forall cfg now, en_orden cfg now [].
Proof. intros cfg now. split; [exact I|intros ? []]. Qed.

Lemma en_orden_mono : forall cfg now now' l,
  en_orden cfg now l -> now <= now' -> en_orden cfg now' l.
Proof.
  intros cfg now now' l [H1 H2] Hn. split; [assumption|].
  intros t Ht. specialize (H2 t Ht). lra.
Qed.

Lemma en_orden_snoc : forall cfg now t l,
  en_orden cfg now l -> now <= t -> warmup_time cfg <= t -> en_orden cfg t (l ++ [t]).
Proof.
  intros cfg now t l [H1 H2] Hn Hw. split.
  - apply creciente_snoc; [assumption|]. intros y Hy. specialize (H2 y Hy). lra.
  - intros y Hy. apply in_app_iff in Hy. destruct Hy as [Hy|[<-|[]]].
    + specialize (H2 y Hy). lra.
    + lra.
Qed.

(** The logs of a state after a step: the guarded appends are opened and
    each log is an old one, later, or an old one with new entries. *)
Ltac orden :=
  first
    [ eassumption
    | eapply en_orden_snoc; [orden|lra|lra]
    | match goal with
      | H : en_orden _ ?now ?l |- en_orden _ _ ?l =>
          apply (en_orden_mono _ now); [exact H|lra]
      end ].

Ltac bitacora_crece :=
  repeat match goal with
         | |- context [if Qgeb ?a ?b then _ else _] =>
             let Eg := fresh "Eg" in
             destruct (Qgeb a b) eqn:Eg; [apply Qgeb_verdad in Eg|apply Qgeb_falso in Eg]
         end;
  cbn; repeat rewrite map_app; cbn; orden.

Section Orden.

Context {az : Azar}.
Variable cfg : Config.

Lemma bitacoras_en_orden_inicio : forall s,
  env_run_inicio (tiempo_sim cfg) (estado_inicial cfg) = Bien s -> bitacoras_en_orden cfg s.
Proof.
  apply estado_de_inicio. intros s _ _ _ _ _ _ Hr _ _ _. unfold bitacoras_en_orden.
  rewrite Hr. cbn. repeat split; try exact I; intros; contradiction.
Qed.

Lemma bitacoras_en_orden_entorno : forall s s',
  bitacoras_en_orden cfg s -> entorno s s' -> bitacoras_en_orden cfg s'.
Proof.
  intros s s' (H1 & H2 & H3 & H4 & H5) E. unfold bitacoras_en_orden.
  rewrite (ent_eventos _ _ E), (ent_serv_v _ _ E), (ent_serv_p _ _ E),
    (ent_estado _ _ E), (ent_decisiones _ _ E).
  pose proof (ent_ahora _ _ E).
  split; [|split; [|split; [|split]]]; eapply en_orden_mono; eauto.
Qed.

Lemma bitacoras_en_orden_paso : forall s s',
  bitacoras_en_orden cfg s -> paso_hilo cfg s s' -> bitacoras_en_orden cfg s'.
Proof.
  intros s s' (H1 & H2 & H3 & H4 & H5) Hh. unfold bitacoras_en_orden in *.
  hilo_casos s Hh.
  all: split; [|split; [|split; [|split]]]; bitacora_crece.
Qed.

Lemma alcanzable_bitacoras_en_orden : forall s,
  alcanzable cfg s -> bitacoras_en_orden cfg s.
Proof.
  apply (alcanzable_invariante_alc cfg (bitacoras_en_orden cfg)).
  - exact bitacoras_en_orden_inicio.
  - intros s s' _ _ H E. now apply (bitacoras_en_orden_entorno s s').
  - intros s s' _ _ H E. now apply (bitacoras_en_orden_paso s s').
Qed.

Lemma llegadas_ok_inicio : forall s,
  env_run_inicio (tiempo_sim cfg) (estado_inicial cfg) = Bien s -> llegadas_ok cfg s.
Proof.
  apply estado_de_inicio. intros s _ _ _ Nv Np _ Hr _ _ _ c. unfold contador.
  rewrite Hr. destruct c; cbn; rewrite ?Nv, ?Np; cbn.
  all: repeat split; try exact I; try lia; intros; contradiction.
Qed.

Lemma llegadas_ok_paso : forall s s',
  llegadas_ok cfg s -> paso_hilo cfg s s' -> llegadas_ok cfg s'.
Proof.
  intros s s' H Hh. unfold llegadas_ok in *.
  hilo_casos s Hh.
  all: intros c; specialize (H c); destruct c.
  all: repeat match goal with
              | |- context [if Qgeb ?a ?b then _ else _] => destruct (Qgeb a b)
              end.
  all: unfold contador in *; cbn in *.
  all: destruct H as (Ho & Hl & Hi & Hc).
  all: split; [|split; [|split]]; auto.
  all: apply (en_orden_mono _ ahora0); [exact Ho|lra].
Qed.

Lemma seq_ultimos : forall n m,
  (m <= n)%nat -> seq (S (n - m)) m ++ [S n] = seq (S (S n - S m)) (S m).
Proof.
  intros n m H. rewrite seq_S. cbn [Nat.sub]. f_equal. f_equal. lia.
Qed.

#[local] Arguments Nat.sub : simpl never.

Lemma llegadas_ok_entorno : forall s s',
  llegadas_ok cfg s -> paso_entorno cfg s s' -> llegadas_ok cfg s'.
Proof.
  intros s s' H He. unfold llegadas_ok in *.
  entorno_casos s He.
  all: repeat match goal with
              | H : Qgeb _ _ = true |- _ => apply Qgeb_verdad in H
              | H : Qgeb _ _ = false |- _ => apply Qgeb_falso in H
              end.
  all: intros c; specialize (H c); destruct c.
  all: repeat match goal with
              | |- context [if Qgeb ?a ?b then _ else _] =>
                  let Eg := fresh "Eg" in
                  destruct (Qgeb a b) eqn:Eg; [apply Qgeb_verdad in Eg|apply Qgeb_falso in Eg]
              end.
  all: unfold contador in *; cbn in *.
  all: destruct H as (Ho & Hl & Hi & Hc).
  all: repeat rewrite map_app; repeat rewrite length_app; cbn.
  all: split; [|split; [|split]].
  all: try orden.
  all: try lia.
  all: try assumption.
  all: try (intros r0 Hin; apply in_app_iff in Hin; destruct Hin as [Hin|[<-|[]]];
            [now apply Hc|cbn; lia]).
  all: try (rewrite Hi, Nat.add_1_r; now apply seq_ultimos).
  all: try match goal with
           | Ho : en_orden _ _ (map ll_tiempo ?l) |- map ll_id ?l = _ =>
               destruct l as [|r0 l0]; [reflexivity|exfalso];
               destruct Ho as [_ Ho]; specialize (Ho (ll_tiempo r0) (or_introl eq_refl)); lra
           end.
Qed.

Lemma alcanzable_llegadas_ok : forall s, alcanzable cfg s -> llegadas_ok cfg s.
Proof.
  apply (alcanzable_invariante_fino cfg (llegadas_ok cfg)).
  - exact llegadas_ok_inicio.
  - intros s s' _ _ H E. now apply (llegadas_ok_entorno s s').
  - intros s s' _ _ H E. now apply (llegadas_ok_paso s s').
Qed.

End Orden.

Section Justificada.

Context {az : Azar}.
Variable cfg : Config.

Lemma bitacora_justificada_inicio : forall s,
  env_run_inicio (tiempo_sim cfg) (estado_inicial cfg) = Bien s -> bitacora_justificada cfg s.
Proof.
  apply estado_de_inicio. intros s _ _ _ _ _ _ Hr Hc Hf _. unfold bitacora_justificada.
  rewrite Hr, Hc, Hf. cbn. repeat split; try contradiction; intros; contradiction.
Qed.

Lemma bitacora_justificada_entorno : forall s s',
  bitacora_justificada cfg s -> entorno s s' -> bitacora_justificada cfg s'.
Proof.
  intros s s' (H1 & H2 & H3 & H4) E. unfold bitacora_justificada.
  rewrite (ent_eventos _ _ E), (ent_decisiones _ _ E), (ent_fase _ _ E),
    (ent_controlador _ _ E), (ent_ciclo _ _ E). auto.
Qed.

Lemma bitacora_justificada_paso : forall s s',
  inv_hilo cfg s -> bitacora_justificada cfg s -> paso_hilo cfg s s' ->
  bitacora_justificada cfg s'.
Proof.
  intros s s' (Hf & Hmo & x & Hxx & Hfo) (H1 & H2 & H3 & H4) Hh.
  unfold bitacora_justificada, inv_hilo, forma_hilo, lugar_atender, agenda_futura,
    forma_atender, forma_fase, forma_controlador, modo_ok in *.
  hilo_casos s Hh.
  all: rewrite Hx in Hxx; injection Hxx as <-.
  all: abrir_marcos Hfo.
  all: cbn in *; descomponer; subst; try congruence.
  all: try match goal with
           | |- context [verde_tras cfg (S ?c)] => pose proof (verde_tras_S cfg c)
           end.
  all: pose proof (verde_tras_0 cfg).
  all: try match goal with
           | Hd : SemaforoAdaptativo.debe_activar_fase_peatonal _ _ = (false, _) |- _ =>
               apply debe_activar_falso in Hd; cbn in Hd; destruct Hd as [-> ->]
           end.
  all: try match goal with
           | Hd : SemaforoAdaptativo.debe_activar_fase_peatonal _ _ = (true, _) |- _ =>
               unfold SemaforoAdaptativo.debe_activar_fase_peatonal in Hd; cbn in Hd;
               partir Hd; injection Hd as <-
           end.
  all: repeat match goal with
              | H : (_ <? _)%Z = false |- _ => apply Z.ltb_ge in H
              | H : (_ <? _)%Z = true |- _ => apply Z.ltb_lt in H
              | H : (_ <=? _)%Z = false |- _ => apply Z.leb_gt in H
              | H : (_ <=? _)%Z = true |- _ => apply Z.leb_le in H
              | H : (_ <? _)%nat = true |- _ => apply Nat.ltb_lt in H
              | H : (_ <? _)%nat = false |- _ => apply Nat.ltb_ge in H
              end.
  all: split; [|split; [|split]].
  all: try (intros _; lia).
  all: try (intros Hc; first [congruence | lia | (assert (Hc' := H3 ltac:(discriminate)); lia)]).
  all: try exact I.
  all: try (repeat split; auto; lra).
  all: try (intros r0 Hin; en_bitacora Hin;
            repeat match goal with
                   | H : _ \/ _ |- _ => destruct H
                   | H : False |- _ => destruct H
                   end;
            subst; auto;
            unfold fase_justificada, decision_justificada; cbn;
            repeat match goal with H : control cfg = _ |- _ => rewrite H end;
            try (assert (Hc' := H3 ltac:(discriminate)));
            repeat split; auto; try lra; try lia).
  match goal with
  | Hb : match length ?l with _ => _ end = true |- _ =>
      destruct l; [discriminate|cbn [length]; lia]
  end.
Qed.

Lemma alcanzable_bitacora_justificada : forall s,
  alcanzable cfg s -> bitacora_justificada cfg s.
Proof.
  apply (alcanzable_invariante_alc cfg (bitacora_justificada cfg)).
  - exact bitacora_justificada_inicio.
  - intros s s' _ _ H E. now apply (bitacora_justificada_entorno s s').
  - intros s s' Ha _ H E. apply (bitacora_justificada_paso s s'); auto.
    now apply (alcanzable_inv_hilo cfg).
Qed.

End Justificada.

Lemma py_max_in : forall l x, In (py_max x l) (x :: l).
Proof.
  induction l as [|y l IH]; intros x; cbn; [auto|].
  destruct (Qlt_le_dec x y).
  - right. apply (IH y).
  - destruct (IH x) as [H|H]; [left; exact H|right; right; exact H].
Qed.

Lemma en_orden_no_vacia : forall (A : Type) (f : A -> Q) cfg now l,
  en_orden cfg now (map f l) -> l <> [] -> warmup_time cfg <= now.
Proof.
  intros A f cfg now [|a l] [_ H] Hn; [congruence|].
  specialize (H (f a) (or_introl eq_refl)). lra.
Qed.

Lemma app_no_vacia : forall (A : Type) (l : list A) a, l ++ [a] <> [].
Proof. intros A l a E. apply app_eq_nil in E. destruct E. discriminate. Qed.

Section AlDia.

Context {az : Azar}.
Variable cfg : Config.

Lemma bitacora_al_dia_inicio : forall s,
  env_run_inicio (tiempo_sim cfg) (estado_inicial cfg) = Bien s -> bitacora_al_dia s.
Proof.
  apply estado_de_inicio. intros s _ _ _ _ _ _ Hr _ _ _. unfold bitacora_al_dia.
  rewrite Hr. cbn. split; congruence.
Qed.

Lemma bitacora_al_dia_entorno : forall s s',
  bitacora_al_dia s -> entorno s s' -> bitacora_al_dia s'.
Proof.
  intros s s' (H1 & H2) E. unfold bitacora_al_dia, registro_inminente in *.
  rewrite (ent_eventos _ _ E), (ent_decisiones _ _ E), (ent_fase _ _ E),
    (ent_controlador _ _ E), (ent_ciclo _ _ E), (ent_atender _ _ E), (ent_hilo _ _ E).
  pose proof (ent_ahora _ _ E) as Hn. split.
  - intros Hne. destruct (H1 Hne) as [H|[Hf H]]; [left; exact H|right].
    split; [exact Hf|]. intros x Hx. specialize (H x Hx). lra.
  - intros Hne. destruct (H2 Hne) as [H|[Hf H]]; [left; exact H|right].
    split; [exact Hf|]. intros x Hx. specialize (H x Hx). lra.
Qed.

Lemma bitacora_al_dia_paso : forall s s',
  inv_hilo cfg s -> bitacoras_en_orden cfg s -> bitacora_al_dia s ->
  paso_hilo cfg s s' -> bitacora_al_dia s'.
Proof.
  intros s s' (Hf & Hmo & x & Hxx & Hfo) (O1 & _ & _ & _ & O5) (H1 & H2) Hh.
  unfold bitacora_al_dia, registro_inminente, inv_hilo, forma_hilo, lugar_atender,
    agenda_futura, forma_atender, forma_fase, forma_controlador, modo_ok in *.
  hilo_casos s Hh.
  all: rewrite Hx in Hxx; injection Hxx as <-.
  all: abrir_marcos Hfo.
  all: cbn in *; descomponer; subst; try congruence.
  all: pose proof (en_orden_no_vacia _ _ _ _ _ O1) as W1.
  all: pose proof (en_orden_no_vacia _ _ _ _ _ O5) as W5.
  all: repeat match goal with
              | |- context [if Qgeb ?a ?b then _ else _] =>
                  let Eg := fresh "Eg" in
                  destruct (Qgeb a b) eqn:Eg; [apply Qgeb_verdad in Eg|apply Qgeb_falso in Eg]
              end.
  all: cbn.
  all: split; intros Hne.
  all: try solve [left; apply app_no_vacia].
  all: try solve [left; eexists; split; [apply in_app_iff; right; left; reflexivity|reflexivity]].
  all: try solve [exfalso; specialize (W1 Hne); lra].
  all: try solve [exfalso; specialize (W5 Hne); lra].
  all: try solve [right; split; [auto|];
                  intros x' Hx'; rewrite ?Hr in Hx'; cbn in Hx'; injection Hx' as <-; cbn; lra].
  all: try solve [right; split; [auto 6|];
                  intros x' Hx'; rewrite ?Hr in Hx'; cbn in Hx'; injection Hx' as <-; cbn; lra].
  all: try solve [destruct (H1 Hne) as [?|[? ?]]; [left; assumption|discriminate]].
  all: try solve [destruct (H2 Hne) as [?|[[?|(? & ? & ?)] ?]];
                  [left; assumption|discriminate|discriminate]].
Qed.

Lemma alcanzable_bitacora_al_dia : forall s, alcanzable cfg s -> bitacora_al_dia s.
Proof.
  apply (alcanzable_invariante_alc cfg bitacora_al_dia).
  - exact bitacora_al_dia_inicio.
  - intros s s' _ _ H E. now apply (bitacora_al_dia_entorno s s').
  - intros s s' Ha _ H E. apply (bitacora_al_dia_paso s s'); auto.
    + now apply (alcanzable_inv_hilo cfg).
    + now apply (alcanzable_bitacoras_en_orden cfg).
Qed.

(** When the stop event is taken, the pending event of the thread lies
    in the future. *)
Lemma hilo_tras_el_fin : forall s0 s x,
  alcanzable cfg s0 -> step cfg s0 = Parada s ->
  filter es_hilo (agenda s0) = [x] -> ahora s0 < e_t x.
Proof.
  intros s0 s x Ha Hs Hx.
  destruct (parada_en_el_fin cfg s0 s Ha Hs) as (e & r & Hp & Ae & Te & _).
  destruct (alcanzable_antes_del_fin cfg s0 Ha) as (_ & Hlt & _).
  destruct (heappop_unico es_hilo _ _ _ _ Hp Hx) as [(Fe & _)|(_ & Fr)].
  - unfold es_hilo in Fe. rewrite Ae in Fe. discriminate.
  - pose proof (heappop_min _ _ _ Hp x (filtro_unico_in _ _ _ Fr)). lra.
Qed.

(** In the last state of a completed run no entry is still to be written:
    the phase log holds the current cycle, and it is not empty when the
    decision log is not. *)
Lemma al_dia_al_completar : forall s0 s,
  alcanzable cfg s0 -> step cfg s0 = Parada s ->
  (eventos_semaforo (registros s0) <> [] ->
   exists r, In r (eventos_semaforo (registros s0)) /\ ev_ciclo r = ciclo_numero s0) /\
  (decisiones_adaptativas (registros s0) <> [] -> eventos_semaforo (registros s0) <> []).
Proof.
  intros s0 s Ha Hs.
  destruct (alcanzable_bitacora_al_dia s0 Ha) as (H1 & H2).
  destruct (alcanzable_inv_hilo cfg s0 Ha) as (_ & _ & x & Hx & _).
  pose proof (hilo_tras_el_fin s0 s x Ha Hs Hx) as Hlt.
  split.
  - intros Hne. destruct (H1 Hne) as [H|[_ H]]; [exact H|].
    specialize (H x Hx). lra.
  - intros Hne. destruct (H2 Hne) as [H|[_ H]]; [exact H|].
    specialize (H x Hx). lra.
Qed.

End AlDia.

(** ** Lists, sums, sorting and percentiles *)

(** ** Sums, means and extremes *)

Lemma fold_suma : forall l a, fold_left Qplus l a == a + suma l.
Proof.
  induction l as [|x l IH]; intros a; cbn; [lra|]. rewrite IH. lra.
Qed.

Lemma py_sum_suma : forall l, py_sum l == suma l.
Proof. intros l. unfold py_sum. rewrite fold_suma. lra. Qed.

Lemma largo_cons : forall (A : Type) (x : A) l, largo (x :: l) == largo l + 1.
Proof.
  intros A x l. unfold largo. cbn [length]. rewrite Nat2Z.inj_succ. unfold Z.succ.
  rewrite inject_Z_plus. change (inject_Z 1) with 1. lra.
Qed.

Lemma largo_nil : forall (A : Type), largo (@nil A) == 0.
Proof. intros A. vm_compute. reflexivity. Qed.

Lemma largo_pos : forall (A : Type) (l : list A), 0 <= largo l.
Proof.
  intros A l. unfold largo. change 0 with (inject_Z 0). rewrite <- Zle_Qle. lia.
Qed.

Lemma largo_map : forall (A B : Type) (f : A -> B) l, largo (map f l) = largo l.
Proof. intros A B f l. unfold largo. now rewrite length_map. Qed.

Lemma suma_cotas : forall l a b,
  (forall x, In x l -> a <= x /\ x <= b) ->
  a * largo l <= suma l /\ suma l <= b * largo l.
Proof.
  induction l as [|x l IH]; intros a b H.
  - rewrite largo_nil. cbn. lra.
  - rewrite largo_cons. cbn [suma].
    destruct (IH a b) as [H1 H2]; [intros y Hy; apply H; now right|].
    destruct (H x (or_introl eq_refl)). lra.
Qed.

Lemma np_mean_cotas : forall l a b,
  l <> [] -> (forall x, In x l -> a <= x /\ x <= b) ->
  a <= np_mean l /\ np_mean l <= b.
Proof.
  intros l a b Hn H. unfold np_mean.
  assert (Hp : 0 < largo l).
  { destruct l as [|x l]; [congruence|]. rewrite largo_cons.
    pose proof (largo_pos _ l). lra. }
  destruct (suma_cotas l a b H) as [H1 H2]. rewrite <- py_sum_suma in H1, H2. split.
  - apply Qle_shift_div_l; assumption.
  - apply Qle_shift_div_r; assumption.
Qed.

Lemma py_min_lista_le_inicial : forall l x, py_min_lista x l <= x.
Proof.
  induction l as [|y l IH]; intros x; cbn; [lra|].
  destruct (Qlt_le_dec y x); [eapply Qle_trans; [apply IH|]; lra|apply IH].
Qed.

Lemma py_min_lista_le : forall l x y, In y l -> py_min_lista x l <= y.
Proof.
  induction l as [|z l IH]; intros x y H; cbn; [destruct H|].
  destruct H as [<-|H].
  - destruct (Qlt_le_dec z x).
    + apply py_min_lista_le_inicial.
    + eapply Qle_trans; [apply py_min_lista_le_inicial|]. lra.
  - apply IH; assumption.
Qed.

Lemma py_min_lista_in : forall l x, In (py_min_lista x l) (x :: l).
Proof.
  induction l as [|y l IH]; intros x; cbn; [auto|].
  destruct (Qlt_le_dec y x).
  - right. apply (IH y).
  - destruct (IH x) as [H|H]; [left; exact H|right; right; exact H].
Qed.

Lemma py_max_nat_ge_inicial : forall l x, (x <= py_max_nat x l)%nat.
Proof.
  induction l as [|y l IH]; intros x; cbn; [lia|].
  specialize (IH (Nat.max x y)). unfold py_max_nat in IH. lia.
Qed.

Lemma py_max_nat_ge : forall l x y, In y l -> (y <= py_max_nat x l)%nat.
Proof.
  induction l as [|z l IH]; intros x y H; cbn; [destruct H|].
  destruct H as [<-|H].
  - pose proof (py_max_nat_ge_inicial l (Nat.max x z)). unfold py_max_nat in *. lia.
  - apply (IH (Nat.max x z) y H).
Qed.

Lemma py_max_nat_in : forall l x, In (py_max_nat x l) (x :: l).
Proof.
  induction l as [|y l IH]; intros x; cbn; [auto|].
  destruct (IH (Nat.max x y)) as [H|H].
  - unfold py_max_nat in H. rewrite <- H.
    destruct (Nat.max_spec x y) as [[_ ->]|[_ ->]]; auto.
  - right. right. exact H.
Qed.

(** ** Sorting and percentiles *)

Lemma inject_Z_resta : forall x y, inject_Z (x - y) = inject_Z x - inject_Z y.
Proof. intros x y. unfold Z.sub. now rewrite inject_Z_plus, inject_Z_opp. Qed.

Lemma insertar_in : forall x l y, In y (insertar x l) <-> y = x \/ In y l.
Proof.
  intros x l y. induction l as [|z l IH]; cbn; [intuition|].
  destruct (Qlt_le_dec z x); cbn; [rewrite IH|]; intuition.
Qed.

Lemma insertar_creciente : forall x l, creciente l -> creciente (insertar x l).
Proof.
  intros x l. induction l as [|z l IH]; cbn; [intuition|].
  intros [H1 H2]. destruct (Qlt_le_dec z x); cbn.
  - split; [|auto]. intros y Hy. apply insertar_in in Hy. destruct Hy as [->|Hy]; [lra|auto].
  - split; [|split; auto]. intros y [<-|Hy]; [lra|]. specialize (H1 y Hy). lra.
Qed.

Lemma insertar_length : forall x l, length (insertar x l) = S (length l).
Proof.
  intros x l. induction l as [|z l IH]; cbn; [reflexivity|].
  destruct (Qlt_le_dec z x); cbn; [now rewrite IH|reflexivity].
Qed.

Lemma sorted_creciente : forall l, creciente (sorted l).
Proof.
  induction l as [|x l IH]; [exact I|].
  change (sorted (x :: l)) with (insertar x (sorted l)). now apply insertar_creciente.
Qed.

Lemma sorted_in : forall l y, In y (sorted l) <-> In y l.
Proof.
  induction l as [|x l IH]; intros y; [cbn; tauto|].
  change (sorted (x :: l)) with (insertar x (sorted l)).
  rewrite insertar_in, IH. cbn. intuition.
Qed.

Lemma sorted_length : forall l, length (sorted l) = length l.
Proof.
  induction l as [|x l IH]; [reflexivity|].
  change (sorted (x :: l)) with (insertar x (sorted l)). now rewrite insertar_length, IH.
Qed.

(** A list already in order is left as it is. *)
Lemma sorted_ya_ordenada : forall l, creciente l -> sorted l = l.
Proof.
  induction l as [|x l IH]; [reflexivity|]. intros [H1 H2].
  change (sorted (x :: l)) with (insertar x (sorted l)). rewrite (IH H2).
  destruct l as [|y l]; cbn; [reflexivity|].
  destruct (Qlt_le_dec y x) as [Hlt|]; [|reflexivity].
  specialize (H1 y (or_introl eq_refl)). lra.
Qed.

Lemma creciente_nth : forall l i j d,
  creciente l -> (i <= j)%nat -> (j < length l)%nat -> nth i l d <= nth j l d.
Proof.
  induction l as [|x l IH]; intros i j d Hc Hij Hj; cbn in Hj; [lia|].
  destruct Hc as [H1 H2]. destruct i as [|i], j as [|j]; cbn; try lra; try lia.
  - apply H1. apply nth_In. lia.
  - apply IH; auto; lia.
Qed.

Lemma last_nth : forall (l : list Q) d, last l d = nth (length l - 1) l d.
Proof.
  induction l as [|x l IH]; intros d; [reflexivity|].
  destruct l as [|y l]; [reflexivity|].
  change (last (x :: y :: l) d) with (last (y :: l) d). rewrite IH. cbn.
  now rewrite Nat.sub_0_r.
Qed.

(** The indices [np.percentile] reads lie in the data, and the weight of
    the upper neighbour lies in [[0, 1)]. *)
Lemma indice_virtual : forall n v,
  (1 <= n)%nat -> 0 <= v -> v < inject_Z (Z.of_nat n) - 1 ->
  (S (Z.to_nat (Qfloor v)) < n)%nat /\
  0 <= v - inject_Z (Qfloor v) /\ v - inject_Z (Qfloor v) < 1 /\
  inject_Z (Z.of_nat (Z.to_nat (Qfloor v))) = inject_Z (Qfloor v).
Proof.
  intros n v Hn Hv Hlt.
  pose proof (Qfloor_le v) as F1. pose proof (Qlt_floor v) as F2.
  rewrite inject_Z_plus in F2. change (inject_Z 1) with 1 in F2.
  assert (F0 : (0 <= Qfloor v)%Z).
  { change 0%Z with (Qfloor 0). apply Qfloor_resp_le. exact Hv. }
  assert (F3 : (Qfloor v < Z.of_nat n - 1)%Z).
  { rewrite Zlt_Qlt. rewrite inject_Z_resta. change (inject_Z 1) with 1. lra. }
  repeat split; try lra.
  - lia.
  - f_equal. lia.
Qed.

Lemma interpolacion_cotas : forall a b g lo hi,
  lo <= a -> a <= hi -> lo <= b -> b <= hi -> 0 <= g -> g <= 1 ->
  lo <= a + (b - a) * g /\ a + (b - a) * g <= hi.
Proof.
  intros a b g lo hi Ha1 Ha2 Hb1 Hb2 Hg1 Hg2.
  assert (P1 : 0 <= (1 - g) * (a - lo)) by (apply Qmult_le_0_compat; lra).
  assert (P2 : 0 <= g * (b - lo)) by (apply Qmult_le_0_compat; lra).
  assert (P3 : 0 <= (1 - g) * (hi - a)) by (apply Qmult_le_0_compat; lra).
  assert (P4 : 0 <= g * (hi - b)) by (apply Qmult_le_0_compat; lra).
  split; lra.
Qed.

Lemma np_percentile_cotas : forall a q lo hi,
  a <> [] -> 0 <= q -> q <= 100 ->
  (forall x, In x a -> lo <= x /\ x <= hi) ->
  lo <= np_percentile a q /\ np_percentile a q <= hi.
Proof.
  intros a q lo hi Hn Hq0 Hq1 H. unfold np_percentile.
  assert (Hl : (1 <= length (sorted a))%nat).
  { rewrite sorted_length. destruct a; [congruence|cbn; lia]. }
  assert (Hs : forall i, (i < length (sorted a))%nat ->
                 lo <= nth i (sorted a) 0 /\ nth i (sorted a) 0 <= hi).
  { intros i Hi. apply H. apply sorted_in. now apply nth_In. }
  assert (Hu : 0 <= largo (sorted a) - 1).
  { unfold largo. change 1 with (inject_Z 1). rewrite <- inject_Z_resta.
    change 0 with (inject_Z 0). rewrite <- Zle_Qle. lia. }
  destruct (Qlt_le_dec _ _) as [Hlt|Hge].
  - assert (Hv : 0 <= (largo (sorted a) - 1) * (q / 100)).
    { apply Qmult_le_0_compat; [exact Hu|]. apply Qle_shift_div_l; lra. }
    destruct (indice_virtual _ _ Hl Hv Hlt) as (I1 & I2 & I3 & _).
    apply interpolacion_cotas; try lra; apply Hs; lia.
  - rewrite last_nth. apply Hs. lia.
Qed.

Lemma np_percentile_creciente : forall a q1 q2,
  a <> [] -> 0 <= q1 -> q1 <= q2 ->
  np_percentile a q1 <= np_percentile a q2.
Proof.
  intros a q1 q2 Hn Hq0 Hq. unfold np_percentile.
  set (arr := sorted a).
  assert (Hc : creciente arr) by apply sorted_creciente.
  assert (Hl : (1 <= length arr)%nat).
  { unfold arr. rewrite sorted_length. destruct a; [congruence|cbn; lia]. }
  assert (Hu : 0 <= largo arr - 1).
  { unfold largo. change 1 with (inject_Z 1). rewrite <- inject_Z_resta.
    change 0 with (inject_Z 0). rewrite <- Zle_Qle. lia. }
  assert (Hv1 : 0 <= (largo arr - 1) * (q1 / 100)).
  { apply Qmult_le_0_compat; [exact Hu|]. apply Qle_shift_div_l; lra. }
  assert (Hv12 : (largo arr - 1) * (q1 / 100) <= (largo arr - 1) * (q2 / 100)).
  { rewrite !(Qmult_comm (largo arr - 1)). apply Qmult_le_compat_r; [|exact Hu].
    unfold Qdiv. apply Qmult_le_compat_r; [exact Hq|]. apply Qinv_le_0_compat. lra. }
  set (v1 := (largo arr - 1) * (q1 / 100)) in *.
  set (v2 := (largo arr - 1) * (q2 / 100)) in *.
  destruct (Qlt_le_dec v1 _) as [L1|G1]; destruct (Qlt_le_dec v2 _) as [L2|G2].
  - destruct (indice_virtual _ _ Hl Hv1 L1) as (I1 & I2 & I3 & I4).
    assert (Hv2 : 0 <= v2) by lra.
    destruct (indice_virtual _ _ Hl Hv2 L2) as (J1 & J2 & J3 & J4).
    assert (Hf : (Qfloor v1 <= Qfloor v2)%Z) by (apply Qfloor_resp_le; exact Hv12).
    assert (F0 : (0 <= Qfloor v1)%Z).
    { change 0%Z with (Qfloor 0). apply Qfloor_resp_le. exact Hv1. }
    set (i1 := Z.to_nat (Qfloor v1)) in *. set (i2 := Z.to_nat (Qfloor v2)) in *.
    assert (A1 : nth i1 arr 0 <= nth (S i1) arr 0) by (apply creciente_nth; auto; lia).
    assert (A2 : nth i2 arr 0 <= nth (S i2) arr 0) by (apply creciente_nth; auto; lia).
    destruct (Z.eq_dec (Qfloor v1) (Qfloor v2)) as [E|Ne].
    + assert (Ei : i1 = i2) by (unfold i1, i2; now rewrite E).
      rewrite <- Ei, <- E.
      assert (P : 0 <= (nth (S i1) arr 0 - nth i1 arr 0) * (v2 - v1))
        by (apply Qmult_le_0_compat; lra).
      lra.
    + assert (Hi : (S i1 <= i2)%nat) by (unfold i1, i2; lia).
      assert (A3 : nth (S i1) arr 0 <= nth i2 arr 0) by (apply creciente_nth; auto; lia).
      destruct (interpolacion_cotas (nth i1 arr 0) (nth (S i1) arr 0) (v1 - inject_Z (Qfloor v1))
                  (nth i1 arr 0) (nth (S i1) arr 0)) as [_ B1]; try lra.
      destruct (interpolacion_cotas (nth i2 arr 0) (nth (S i2) arr 0) (v2 - inject_Z (Qfloor v2))
                  (nth i2 arr 0) (nth (S i2) arr 0)) as [B2 _]; try lra.
  - destruct (indice_virtual _ _ Hl Hv1 L1) as (I1 & I2 & I3 & I4).
    set (i1 := Z.to_nat (Qfloor v1)) in *.
    rewrite last_nth.
    assert (A1 : nth i1 arr 0 <= nth (length arr - 1) arr 0) by (apply creciente_nth; auto; lia).
    assert (A2 : nth (S i1) arr 0 <= nth (length arr - 1) arr 0)
      by (apply creciente_nth; auto; lia).
    destruct (interpolacion_cotas (nth i1 arr 0) (nth (S i1) arr 0) (v1 - inject_Z (Qfloor v1))
                (nth i1 arr 0) (nth (length arr - 1) arr 0)) as [_ B1]; try lra.
    apply creciente_nth; auto; lia.
  - lra.
  - lra.
Qed.

Lemma filter_nada : forall (A : Type) (f : A -> bool) l,
  (forall x, In x l -> f x = false) -> filter f l = [].
Proof.
  intros A f l. induction l as [|x l IH]; intros H; cbn; [reflexivity|].
  rewrite (H x (or_introl eq_refl)). apply IH. intros y Hy. apply H. now right.
Qed.

Lemma suma_constante : forall (A : Type) (f : A -> Q) (c : Q) l,
  (forall x, In x l -> f x = c) -> suma (map f l) == largo l * c.
Proof.
  intros A f c l. induction l as [|x l IH]; intros H.
  - rewrite largo_nil. cbn. lra.
  - rewrite largo_cons. cbn [map suma]. rewrite (H x (or_introl eq_refl)).
    rewrite IH; [lra|]. intros y Hy. apply H. now right.
Qed.

Lemma Fase_eqb_eq : forall a b, Fase_eqb a b = true -> a = b.
Proof. intros [] []; cbn; congruence. Qed.

Lemma servicio_coherente_en_orden : forall cfg now ciclo r,
  servicio_coherente cfg now ciclo r -> servicio_en_orden cfg now ciclo r.
Proof.
  intros cfg now ciclo r (H1 & H2 & H3 & H4 & H5 & H6 & H7).
  unfold servicio_en_orden. repeat split; try lra; try lia.
Qed.

Lemma fase_justificada_conforme : forall cfg r,
  fase_justificada cfg r -> fase_conforme cfg r.
Proof.
  intros cfg r [H1 H2]. split; [exact H1|].
  destruct (control cfg), (ev_fase r), (ev_info r); try contradiction; try exact H2;
    tauto.
Qed.

Lemma decision_justificada_conforme : forall cfg r,
  decision_justificada cfg r -> decision_conforme cfg r.
Proof.
  intros cfg r (H1 & H2 & H3). split; [exact H1|]. split; [exact H2|].
  destruct (de_tipo r), (de_motivo r), (de_valor r); try contradiction; try exact H3;
    tauto.
Qed.

Lemma map_constante : forall (A : Type) (f : A -> Q) (c : Q) l,
  (forall x, In x l -> f x = c) -> map f l = map (fun _ => c) l.
Proof.
  intros A f c l H. apply map_ext_in. exact H.
Qed.

Section MetricasDeCorrida.

Context {az : Azar} {np : Numpy}.
Variable cfg : Config.

Lemma resumen_de_esperas : forall now ciclo l,
  (forall r, In r l -> servicio_coherente cfg now ciclo r) ->
  resumen_coherente l (metricas_de_espera l).
Proof.
  intros now ciclo l H. destruct l as [|s resto]; [reflexivity|].
  unfold metricas_de_espera, resumen_coherente.
  cbn [me_atendidos me_espera_min me_espera_max me_espera_media me_percentil_50
       me_percentil_95].
  set (esperas := map sv_tiempo_espera (s :: resto)).
  set (mn := py_min_lista (sv_tiempo_espera s) (map sv_tiempo_espera resto)).
  set (mx := py_max (sv_tiempo_espera s) (map sv_tiempo_espera resto)).
  assert (Hc : forall x, In x esperas -> mn <= x /\ x <= mx).
  { intros x [<-|Hx]; split.
    - apply py_min_lista_le_inicial.
    - apply py_max_ge_inicial.
    - now apply py_min_lista_le.
    - now apply py_max_ge. }
  assert (Hne : esperas <> []) by discriminate.
  assert (Hmn : 0 <= mn).
  { pose proof (py_min_lista_in (map sv_tiempo_espera resto) (sv_tiempo_espera s)) as Hi.
    fold mn in Hi. change (In mn esperas) in Hi. unfold esperas in Hi.
    apply in_map_iff in Hi. destruct Hi as (r & <- & Hr). apply (H r Hr). }
  destruct (np_percentile_cotas esperas 50 mn mx Hne) as [P1 _]; try lra; auto.
  destruct (np_percentile_cotas esperas 95 mn mx Hne) as [_ P2]; try lra; auto.
  pose proof (np_percentile_creciente esperas 50 95 Hne) as P3.
  destruct (np_mean_cotas esperas mn mx Hne Hc) as [M1 M2].
  unfold esperas at 1 2. rewrite length_map. cbn [length].
  repeat split; auto; try lia. apply P3; lra.
Qed.

Lemma verde_programado_de_bitacora : forall eventos,
  (forall r, In r eventos -> fase_justificada cfg r) ->
  verde_programado cfg eventos (metricas_de_semaforo eventos).
Proof.
  intros eventos H. destruct eventos as [|e resto]; [reflexivity|].
  unfold metricas_de_semaforo, verde_programado.
  cbn [ms_tiempo_verde_peatonal ms_tiempo_verde_vehicular ms_proporcion_verde_v].
  set (ev := e :: resto) in *.
  fold (fases_de VERDE_VEHICULAR ev). fold (fases_de VERDE_PEATONAL ev).
  assert (Hp : forall x, In x (fases_de VERDE_PEATONAL ev) -> ev_duracion x = g_p_fijo cfg).
  { intros x Hx. apply filter_In in Hx. destruct Hx as [Hx Hf]. apply Fase_eqb_eq in Hf.
    destruct (H x Hx) as [_ Hj]. rewrite Hf in Hj.
    destruct (control cfg), (ev_info x); try contradiction; tauto. }
  split.
  - now rewrite (map_constante _ _ _ _ Hp).
  - destruct (control cfg) eqn:Ec.
    + f_equal. apply map_constante.
      intros x Hx. apply filter_In in Hx. destruct Hx as [Hx Hf]. apply Fase_eqb_eq in Hf.
      destruct (H x Hx) as [_ Hj]. rewrite Hf, Ec in Hj.
      destruct (ev_info x); try contradiction; tauto.
    + assert (Hv : fases_de VERDE_VEHICULAR ev = []).
      { apply filter_nada. intros x Hx. destruct (H x Hx) as [_ Hj]. rewrite Ec in Hj.
        destruct (ev_fase x); cbn; try reflexivity; contradiction. }
      rewrite Hv. cbn [map]. split; [reflexivity|]. split; [reflexivity|].
      destruct (Qlt_le_dec _ _); [|reflexivity].
      unfold py_sum at 1. cbn [fold_left]. unfold Qdiv. ring.
Qed.

End MetricasDeCorrida.

Lemma Motivo_eqb_eq : forall a b, Motivo_eqb a b = true <-> a = b.
Proof. intros [] []; cbn; split; congruence. Qed.

Lemma Motivo_eqb_refl : forall a, Motivo_eqb a a = true.
Proof. intros []; reflexivity. Qed.

Lemma Motivo_eqb_sym : forall a b, Motivo_eqb a b = Motivo_eqb b a.
Proof. intros [] []; reflexivity. Qed.

Lemma contar_motivo_claves : forall m d k,
  In k (map fst (contar_motivo m d)) <-> k = m \/ In k (map fst d).
Proof.
  intros m d k. induction d as [|[k0 v0] d IH]; cbn; [intuition|].
  destruct (Motivo_eqb k0 m) eqn:E; cbn.
  - apply Motivo_eqb_eq in E. subst. intuition.
  - rewrite IH. intuition.
Qed.

Lemma contar_motivo_nodup : forall m d,
  NoDup (map fst d) -> NoDup (map fst (contar_motivo m d)).
Proof.
  intros m d. induction d as [|[k0 v0] d IH]; cbn; intros H.
  - constructor; [intros []|constructor].
  - inversion H as [|? ? Hn Hd]; subst.
    destruct (Motivo_eqb k0 m) eqn:E; cbn; constructor; auto.
    intros Hi. apply contar_motivo_claves in Hi. destruct Hi as [->|Hi]; [|auto].
    rewrite Motivo_eqb_refl in E. discriminate.
Qed.

Lemma contar_motivo_valor : forall m d k,
  valor_de k (contar_motivo m d) =
  (valor_de k d + if Motivo_eqb m k then 1 else 0)%nat.
Proof.
  intros m d k. induction d as [|[k0 v0] d IH]; cbn.
  - destruct (Motivo_eqb m k); reflexivity.
  - destruct (Motivo_eqb k0 m) eqn:E; cbn.
    + apply Motivo_eqb_eq in E. subst. destruct (Motivo_eqb m k); lia.
    + destruct (Motivo_eqb k0 k) eqn:E2; [|exact IH].
      apply Motivo_eqb_eq in E2. subst. rewrite Motivo_eqb_sym, E. lia.
Qed.

Lemma contar_motivo_positivo : forall m d,
  (forall k v, In (k, v) d -> (1 <= v)%nat) ->
  forall k v, In (k, v) (contar_motivo m d) -> (1 <= v)%nat.
Proof.
  intros m d. induction d as [|[k0 v0] d IH]; cbn; intros H k v Hi.
  - destruct Hi as [Hi|[]]. injection Hi as <- <-. lia.
  - destruct (Motivo_eqb k0 m); cbn in Hi; destruct Hi as [Hi|Hi].
    + injection Hi as <- <-. lia.
    + apply (H k v). now right.
    + injection Hi as <- <-. apply (H k0 v0). now left.
    + apply (IH (fun k v Hk => H k v (or_intror Hk)) k v Hi).
Qed.

(** The dictionary of the motives after the loop over the decisions. *)
Lemma motivos_contados : forall l d0,
  NoDup (map fst d0) -> (forall k v, In (k, v) d0 -> (1 <= v)%nat) ->
  let d := fold_left (fun d decision => contar_motivo (de_motivo decision) d) l d0 in
  NoDup (map fst d) /\ (forall k v, In (k, v) d -> (1 <= v)%nat) /\
  forall k, valor_de k d =
            (valor_de k d0 + length (filter (fun x => Motivo_eqb (de_motivo x) k) l))%nat.
Proof.
  induction l as [|x l IH]; intros d0 Hn Hp; cbn.
  - repeat split; auto.
  - destruct (IH (contar_motivo (de_motivo x) d0)) as (H1 & H2 & H3).
    + now apply contar_motivo_nodup.
    + now apply contar_motivo_positivo.
    + repeat split; auto. intros k. rewrite H3, contar_motivo_valor.
      destruct (Motivo_eqb (de_motivo x) k); cbn; lia.
Qed.

Lemma filter_filter : forall (A : Type) (f g : A -> bool) l,
  filter g (filter f l) = filter (fun x => f x && g x) l.
Proof.
  intros A f g l. induction l as [|x l IH]; cbn; [reflexivity|].
  destruct (f x); cbn; [destruct (g x); now rewrite IH|exact IH].
Qed.

Lemma acumular_no_vacio : forall c q d, acumular_duracion c q d <> [].
Proof.
  intros c q [|[k v] d]; cbn; [discriminate|]. destruct (k =? c)%nat; discriminate.
Qed.

Lemma duraciones_no_vacias : forall l d0,
  (l <> [] \/ d0 <> []) ->
  fold_left (fun d evento => acumular_duracion (ev_ciclo evento) (ev_duracion evento) d)
            l d0 <> [].
Proof.
  induction l as [|x l IH]; intros d0 H; cbn.
  - destruct H; congruence.
  - apply IH. right. apply acumular_no_vacio.
Qed.

Section ErroresDeMetricas.

Context {np : Numpy}.

Lemma metricas_adaptativas_error_aux : forall registros,
  (calcular_metricas_adaptativas registros = inl TypeError <->
   decisiones_adaptativas registros <> [] /\ eventos_semaforo registros = []) /\
  calcular_metricas_adaptativas registros <> inl NumpyValueError.
Proof.
  intros g. unfold calcular_metricas_adaptativas, calcular_metricas_basicas.
  cbn [met_semaforo]. unfold metricas_de_semaforo.
  destruct (decisiones_adaptativas g) as [|d ds];
    destruct (eventos_semaforo g) as [|e es] eqn:Ee.
  - split; [split; [discriminate|intros [H _]; congruence]|discriminate].
  - split.
    + split; [|intros [_ H]; discriminate].
      destruct (filter _ (e :: es)) as [|v vs] eqn:Ev; [discriminate|].
      destruct (map snd _); discriminate.
    + destruct (filter _ (e :: es)) as [|v vs] eqn:Ev; [discriminate|].
      destruct (map snd _) eqn:Em; [|discriminate].
      exfalso. apply map_eq_nil in Em. revert Em. apply duraciones_no_vacias.
      left. discriminate.
  - split; [split; [intros _; split; [discriminate|reflexivity]|reflexivity]|discriminate].
  - split.
    + split; [|intros [_ H]; discriminate].
      destruct (filter _ (e :: es)) as [|v vs] eqn:Ev; [discriminate|].
      destruct (map snd _); discriminate.
    + destruct (filter _ (e :: es)) as [|v vs] eqn:Ev; [discriminate|].
      destruct (map snd _) eqn:Em; [|discriminate].
      exfalso. apply map_eq_nil in Em. revert Em. apply duraciones_no_vacias.
      left. discriminate.
Qed.

Lemma metricas_adaptativas_sin_keyerror : forall registros,
  calcular_metricas_adaptativas registros <> inl KeyError.
Proof.
  intros g. unfold calcular_metricas_adaptativas, calcular_metricas_basicas.
  cbn [met_semaforo]. unfold metricas_de_semaforo.
  destruct (decisiones_adaptativas g) as [|d ds];
    destruct (eventos_semaforo g) as [|e es]; try discriminate.
  all: destruct (filter _ (e :: es)) as [|v vs]; try discriminate.
  all: destruct (map snd _); discriminate.
Qed.

End ErroresDeMetricas.

(** ** Differences of neighbours *)

Lemma last_cons_defecto : forall (l : list Q) x d, last (x :: l) d = last l x.
Proof.
  induction l as [|y l IH]; intros x d; [reflexivity|].
  change (last (x :: y :: l) d) with (last (y :: l) d). rewrite !IH. reflexivity.
Qed.

Lemma np_diff_desde_suma : forall l p, suma (np_diff_desde p l) == last l p - p.
Proof.
  induction l as [|y l IH]; intros p; cbn [np_diff_desde suma].
  - cbn. lra.
  - rewrite IH, last_cons_defecto. lra.
Qed.

Lemma np_diff_desde_length : forall l p, length (np_diff_desde p l) = length l.
Proof. induction l as [|y l IH]; intros p; cbn; [reflexivity|]. now rewrite IH. Qed.

(** The ends of the sorted data are the extremes of the data. *)
Lemma sorted_extremos : forall x r,
  nth 0 (sorted (x :: r)) 0 == py_min_lista x r /\
  last (sorted (x :: r)) 0 == py_max x r.
Proof.
  intros x r. set (l := x :: r). set (arr := sorted l).
  assert (Hc : creciente arr) by apply sorted_creciente.
  assert (Hl : length arr = S (length r)) by (unfold arr; now rewrite sorted_length).
  assert (Hin : forall y, In y arr <-> In y l) by (intros y; apply sorted_in).
  clearbody arr.
  assert (H0 : In (nth 0 arr 0) l) by (apply Hin; apply nth_In; lia).
  assert (Hu : In (nth (length arr - 1) arr 0) l) by (apply Hin; apply nth_In; lia).
  assert (Hmin : In (py_min_lista x r) arr) by (apply Hin; apply py_min_lista_in).
  assert (Hmax : In (py_max x r) arr) by (apply Hin; apply py_max_in).
  destruct (In_nth _ _ 0 Hmin) as (i & Hi & Ei).
  destruct (In_nth _ _ 0 Hmax) as (j & Hj & Ej).
  pose proof (creciente_nth arr 0 i 0 Hc ltac:(lia) Hi) as A1.
  pose proof (creciente_nth arr j (length arr - 1) 0 Hc ltac:(lia) ltac:(lia)) as A2.
  rewrite Ei in A1. rewrite Ej in A2. rewrite last_nth. split.
  - assert (py_min_lista x r <= nth 0 arr 0); [|lra].
    destruct H0 as [<-|H0]; [apply py_min_lista_le_inicial|now apply py_min_lista_le].
  - assert (nth (length arr - 1) arr 0 <= py_max x r); [|lra].
    destruct Hu as [<-|Hu]; [apply py_max_ge_inicial|now apply py_max_ge].
Qed.

Lemma sorted_cabeza : forall x r, exists y resto,
  sorted (x :: r) = y :: resto /\ length resto = length r /\
  nth 0 (sorted (x :: r)) 0 = y /\ last (sorted (x :: r)) 0 = last resto y.
Proof.
  intros x r. pose proof (sorted_length (x :: r)) as Hl.
  destruct (sorted (x :: r)) as [|y resto]; [discriminate|].
  exists y, resto. cbn in Hl. repeat split; [lia|]. apply last_cons_defecto.
Qed.

(** ** The median *)

Lemma Qfloor_unico : forall v z,
  inject_Z z <= v -> v < inject_Z (z + 1) -> Qfloor v = z.
Proof.
  intros v z H1 H2. pose proof (Qfloor_le v) as F1. pose proof (Qlt_floor v) as F2.
  assert (A : (z <= Qfloor v)%Z).
  { rewrite <- (Qfloor_Z z). now apply Qfloor_resp_le. }
  assert (B : (Qfloor v < z + 1)%Z).
  { rewrite Zlt_Qlt. lra. }
  lia.
Qed.

Lemma skipn_nth : forall (l : list Q) i d,
  (i < length l)%nat -> skipn i l = nth i l d :: skipn (S i) l.
Proof.
  induction l as [|x l IH]; intros i d H; cbn in H; [lia|].
  destruct i as [|i]; [reflexivity|]. cbn [skipn nth]. apply IH. lia.
Qed.

Lemma np_mean_uno : forall a, np_mean [a] == a.
Proof.
  intros a. unfold np_mean, py_sum, largo. cbn [fold_left length].
  change (inject_Z (Z.of_nat 1)) with 1. field.
Qed.

Lemma np_mean_dos : forall a b, np_mean [a; b] == a + (b - a) * (1 # 2).
Proof.
  intros a b. unfold np_mean, py_sum, largo. cbn [fold_left length].
  change (inject_Z (Z.of_nat 2)) with 2. field.
Qed.

Lemma largo_doble : forall (A : Type) (l : list A) k,
  length l = (2 * k)%nat -> largo l == 2 * inject_Z (Z.of_nat k).
Proof.
  intros A l k H. unfold largo. rewrite H, Nat2Z.inj_mul, inject_Z_mult.
  change (inject_Z (Z.of_nat 2)) with 2. lra.
Qed.

Lemma largo_impar : forall (A : Type) (l : list A) k,
  length l = S (2 * k)%nat -> largo l == 2 * inject_Z (Z.of_nat k) + 1.
Proof.
  intros A l k H. unfold largo. rewrite H, Nat2Z.inj_succ, Nat2Z.inj_mul. unfold Z.succ.
  rewrite inject_Z_plus, inject_Z_mult.
  change (inject_Z (Z.of_nat 2)) with 2. change (inject_Z 1) with 1. lra.
Qed.

Lemma np_median_percentil : forall l, l <> [] -> np_median l == np_percentile l 50.
Proof.
  intros l Hn. unfold np_median, np_percentile.
  set (arr := sorted l).
  assert (Hl : (1 <= length arr)%nat).
  { unfold arr. rewrite sorted_length. destruct l; [congruence|cbn; lia]. }
  clearbody arr.
  assert (Hm : 50 / 100 == 1 # 2) by reflexivity.
  destruct (Nat.odd (length arr)) eqn:Eo.
  - apply Nat.odd_spec in Eo. destruct Eo as [k Ek].
    assert (Ed : (length arr / 2 = k)%nat).
    { rewrite Ek. rewrite Nat.add_comm, Nat.mul_comm. rewrite Nat.div_add; [|lia]. reflexivity. }
    rewrite Ed. rewrite (skipn_nth arr k 0) by lia. cbn [firstn]. rewrite np_mean_uno.
    assert (Ev : (largo arr - 1) * (50 / 100) == inject_Z (Z.of_nat k)).
    { rewrite Hm, (largo_impar _ arr k) by lia. field. }
    destruct (Qlt_le_dec _ _) as [Hlt|Hge].
    + rewrite (Qfloor_comp _ _ Ev), Qfloor_Z, Nat2Z.id. rewrite Ev. ring.
    + rewrite last_nth. replace (length arr - 1)%nat with k; [reflexivity|].
      rewrite Ev, (largo_impar _ arr k) in Hge by lia.
      assert (Hk : inject_Z (Z.of_nat k) <= inject_Z 0) by (change (inject_Z 0) with 0; lra).
      rewrite <- Zle_Qle in Hk. lia.
  - assert (Ee : Nat.even (length arr) = true).
    { rewrite <- Nat.negb_odd, Eo. reflexivity. }
    apply Nat.even_spec in Ee. destruct Ee as [k Ek].
    assert (Hk : (1 <= k)%nat) by lia.
    assert (Ed : (length arr / 2 = k)%nat).
    { rewrite Ek. rewrite Nat.mul_comm. apply Nat.div_mul. lia. }
    rewrite Ed. rewrite (skipn_nth arr (k - 1) 0) by lia.
    replace (S (k - 1)) with k by lia. rewrite (skipn_nth arr k 0) by lia.
    cbn [firstn]. rewrite np_mean_dos.
    assert (Ek1 : inject_Z (Z.of_nat k) == inject_Z (Z.of_nat (k - 1)) + 1).
    { replace k with (S (k - 1)) at 1 by lia. rewrite Nat2Z.inj_succ. unfold Z.succ.
      rewrite inject_Z_plus. change (inject_Z 1) with 1. lra. }
    assert (Ev : (largo arr - 1) * (50 / 100) == inject_Z (Z.of_nat (k - 1)) + (1 # 2)).
    { rewrite Hm, (largo_doble _ arr k) by lia. rewrite Ek1. field. }
    assert (Ef : Qfloor ((largo arr - 1) * (50 / 100)) = Z.of_nat (k - 1)).
    { apply Qfloor_unico; rewrite Ev; [lra|].
      rewrite inject_Z_plus. change (inject_Z 1) with 1. lra. }
    destruct (Qlt_le_dec _ _) as [Hlt|Hge].
    + rewrite Ef, Nat2Z.id. replace (S (k - 1)) with k by lia. rewrite Ev. ring.
    + exfalso. rewrite Ev, (largo_doble _ arr k) in Hge by lia.
      pose proof (largo_pos _ (firstn (k - 1) arr)) as Hp. unfold largo in Hp.
      assert (0 <= inject_Z (Z.of_nat (k - 1))).
      { change 0 with (inject_Z 0). rewrite <- Zle_Qle. lia. }
      lra.
Qed.

Lemma contiene_verde_vehicular_fases : forall f,
  Nombres.contiene_verde_vehicular f = verde_vehicular f.
Proof. intros []; reflexivity. Qed.

Lemma es_verde_vehicular_fases : forall f,
  Nombres.es_verde_vehicular f = verde_vehicular f.
Proof. intros []; reflexivity. Qed.

Lemma largo_positivo : forall (A : Type) (l : list A), l <> [] -> 0 < largo l.
Proof.
  intros A [|x l] H; [congruence|]. rewrite largo_cons. pose proof (largo_pos _ l). lra.
Qed.

Lemma largo_filter : forall (A : Type) (f : A -> bool) l, largo (filter f l) <= largo l.
Proof.
  intros A f l. unfold largo. rewrite <- Zle_Qle. apply inj_le. apply filter_length_le.
Qed.

(** ** Further properties of the runs *)

Section RegistrosDeServicio.

Context {az : Azar}.
Variable cfg : Config.

(** X1. Every service record of a run ([atender_vehiculos],
    [atender_peatones], both controllers) is in order: wait and service time
    are not negative, the agent arrived and the service started no later
    than the service ended, the record was logged at its end, at or after
    the warm-up and not after the clock, and its cycle is between 1 and the
    current cycle. (The start of a logged service may lie before the
    warm-up.) *)
Theorem registros_de_servicio_coherentes : forall s,
  alcanzable cfg s ->
  forall r, In r (servicios_vehiculos (registros s)) \/
            In r (servicios_peatones (registros s)) ->
    servicio_en_orden cfg (ahora s) (ciclo_numero s) r.
Proof.
  intros s Ha r Hr. apply servicio_coherente_en_orden.
  destruct (alcanzable_servicios_coherentes cfg s Ha) as [H _]. exact (H r Hr).
Qed.

(** X2. Vehicles and pedestrians are never served at the same time, under
    either controller: a service routine is alive (from its call to its
    return, so also while an agent is in service) only in the green of its
    own class, [fase_actual] being VERDE_VEHICULAR for [atender_vehiculos]
    and VERDE_PEATONAL for [atender_peatones], and the controller waits for
    it to return before it changes the light. *)
Theorem servicios_nunca_simultaneos : forall s,
  alcanzable cfg s ->
  forall m, m_atender s = Some m ->
    fase_actual s = verde_de (clase_de m) /\
    fase_del_marco (m_controlador s) = verde_de (clase_de m) /\
    exists x, filter es_hilo (agenda s) = [x] /\
      (e_acc x = Iniciar PAtender \/ exists v, e_acc x = Reanudar PAtender v).
Proof.
  intros s Ha m Hm.
  pose proof (alcanzable_luz_del_marco cfg s Ha) as Hl.
  destruct (alcanzable_inv_hilo cfg s Ha) as (_ & _ & x & Hx & Hfo).
  unfold forma_hilo in Hfo. rewrite Hm in Hfo. destruct Hfo as [Hfa Hlu].
  assert (E : fase_del_marco (m_controlador s) = verde_de (clase_de m)).
  { unfold lugar_atender in Hlu.
    destruct (m_fase s) as [[]|], (m_controlador s) as [|[]|[]]; try contradiction;
      rewrite Hlu; reflexivity. }
  split; [unfold luz_del_marco in Hl; congruence|]. split; [exact E|].
  exists x. split; [exact Hx|].
  unfold forma_atender in Hfa.
  destruct m as [c d|c tf n|c tf n|c tf n|c tf n a te ts]; destruct Hfa as [Hfa _].
  - now left.
  - right. now exists VNone.
  - right. destruct Hfa as [a Hfa]. now exists (VAgente a).
  - right. now exists VNone.
  - right. now exists VNone.
Qed.

(** X3. [env.run(until=tiempo_sim)] processes no event at or after the
    horizon: in every state of the run the clock is at least 0 and strictly
    below [tiempo_sim] (the stop event is urgent and was scheduled before
    every event that could share its time). *)
Theorem reloj_bajo_el_horizonte : forall s,
  alcanzable cfg s -> 0 <= ahora s /\ ahora s < tiempo_sim cfg.
Proof.
  intros s Ha. destruct (alcanzable_antes_del_fin cfg s Ha) as (H0 & H1 & _). auto.
Qed.

(** X4. A completed run ends with the clock at the horizon, and what it
    returns ([registros], the queues, the counters) is what the last state
    of the run held: the stop event changes nothing else. *)
Theorem corrida_completa_en_el_horizonte : forall n s,
  simular cfg n = Completa s ->
  ahora s == tiempo_sim cfg /\
  exists s0, alcanzable cfg s0 /\
    registros s = registros s0 /\
    cola_vehiculos s = cola_vehiculos s0 /\ cola_peatones s = cola_peatones s0 /\
    vehiculo_id s = vehiculo_id s0 /\ peaton_id s = peaton_id s0 /\
    ciclo_numero s = ciclo_numero s0 /\ fase_actual s = fase_actual s0.
Proof.
  intros n s H. destruct (simular_completa cfg n s H) as (s0 & Ha & Hs).
  destruct (parada_en_el_fin cfg s0 s Ha Hs) as (e & r & Hp & Ae & Te & ->).
  split; [destruct s0; cbn; exact Te|].
  exists s0. split; [exact Ha|]. destruct s0; cbn. repeat split.
Qed.

(** X5. No agent is in two places, under either controller: among the agents
    of a class that are queued, in the hands of the service routine, or
    logged as served, no identifier occurs twice (so nobody is served twice,
    and a served agent is never back in the queue, also after a re-enqueue),
    and every identifier was handed out by the arrival generator. *)
Theorem cada_agente_una_vez : forall s,
  alcanzable cfg s ->
  forall c, NoDup (censo c s) /\
            forall i, In i (censo c s) -> (1 <= i <= contador c s)%nat.
Proof.
  intros s Ha c. pose proof (alcanzable_censo_ok cfg s Ha) as H. split.
  - apply (NoDup_count_occ Nat.eq_dec). intros i. apply (H c i).
  - intros i Hi. apply (H c i). apply (count_occ_In Nat.eq_dec) in Hi.
    unfold veces. lia.
Qed.

(** X6. Without warm-up nobody is lost: the agents queued, in hand and
    logged as served are exactly those that have arrived, identifiers 1 to
    the counter of the arrival generator. (With a warm-up the services that
    end before it are not logged.) *)
Theorem nadie_se_pierde : forall s,
  warmup_time cfg <= 0 ->
  alcanzable cfg s ->
  forall c, Permutation (censo c s) (seq 1 (contador c s)).
Proof.
  intros s Hw Ha c. pose proof (alcanzable_censo_ok cfg s Ha) as H.
  apply NoDup_Permutation.
  - apply (NoDup_count_occ Nat.eq_dec). intros i. apply (H c i).
  - apply seq_NoDup.
  - intros i. rewrite in_seq. split.
    + intros Hi. apply (count_occ_In Nat.eq_dec) in Hi.
      assert (R : (1 <= i <= contador c s)%nat) by (apply (H c i); unfold veces; lia). lia.
    + intros Hi. apply (count_occ_In Nat.eq_dec).
      assert (R : veces i (censo c s) = 1%nat) by (apply (H c i); [exact Hw|lia]).
      unfold veces in R. lia.
Qed.

(** X7. The logs written by the controller and the service routines (phase
    changes, services by their end, queue snapshots, adaptive decisions) are
    in time order, and every entry is stamped at or after the warm-up and
    not after the clock. *)
Theorem bitacoras_cronologicas : forall s,
  alcanzable cfg s -> bitacoras_en_orden cfg s.
Proof. exact (alcanzable_bitacoras_en_orden cfg). Qed.

(** X8. The arrival log of a class ([generar_vehiculos], [generar_peatones])
    is in time order from the warm-up on, and has no gap: it holds the
    latest arrivals, with consecutive identifiers that end at the counter
    of the generator, and each entry records a queue of at least one (the
    agent itself, put before the length is read). *)
Theorem llegadas_sin_huecos : forall s,
  alcanzable cfg s -> llegadas_ok cfg s.
Proof. exact (alcanzable_llegadas_ok cfg). Qed.

(** X9. Every phase-change entry of a run is one the controller of the
    configuration writes, in a cycle that has begun. Fixed controller: one
    of the four phases, with its configured duration and no additional
    information. Adaptive controller: never the plain VERDE_VEHICULAR;
    VERDE_VEHICULAR_INICIAL lasts [g_min] with extension 0 and total
    [g_min]; VERDE_VEHICULAR_EXTENSION number [n >= 1] lasts [b], carries a
    total of at most [g_max] and a vehicle queue of at least [t_v];
    VERDE_PEATONAL lasts [g_p_fijo] and carries the motive that matches the
    logged pedestrian queue; the ambers last [amarillo]. *)
Theorem fases_registradas_justificadas : forall s,
  alcanzable cfg s ->
  forall r, In r (eventos_semaforo (registros s)) -> fase_conforme cfg r.
Proof.
  intros s Ha r Hr. apply fase_justificada_conforme.
  destruct (alcanzable_bitacora_justificada cfg s Ha) as (H & _). auto.
Qed.

(** X10. Every entry of the decision log is justified by the values it
    carries: an EXTENSION has the motive ALTA_DEMANDA_VEHICULAR, a number
    [n >= 1], a queue of at least [t_v] and a new total of at most [g_max];
    a FIN_EXTENSION has PRIORIDAD_PEATONAL with a wait above [w_max], or
    COLA_VEHICULAR_BAJA with a queue below [t_v], or MAXIMO_ALCANZADO with a
    total below [g_max] that one more block would exceed; a
    SALTAR_FASE_PEATONAL has SIN_PEATONES and an empty pedestrian queue. The
    fixed controller logs no decision. *)
Theorem decisiones_registradas_justificadas : forall s,
  alcanzable cfg s ->
  forall r, In r (decisiones_adaptativas (registros s)) -> decision_conforme cfg r.
Proof.
  intros s Ha r Hr. apply decision_justificada_conforme.
  destruct (alcanzable_bitacora_justificada cfg s Ha) as (_ & H & _). auto.
Qed.

(** X11. [obtener_espera_maxima_peatonal] returns 0 for an empty queue and
    otherwise the longest wait in the queue: no queued pedestrian has waited
    longer, and one of them has waited exactly that long (after a
    re-enqueue it need not be the head of the queue). In a run the value
    is never negative. *)
Theorem espera_maxima_es_el_maximo : forall s,
  alcanzable cfg s ->
  0 <= SemaforoAdaptativo.obtener_espera_maxima_peatonal s /\
  (cola_peatones s = [] -> SemaforoAdaptativo.obtener_espera_maxima_peatonal s = 0) /\
  (forall p, In p (cola_peatones s) ->
     ahora s - tiempo_llegada p <= SemaforoAdaptativo.obtener_espera_maxima_peatonal s) /\
  (cola_peatones s <> [] ->
   exists p, In p (cola_peatones s) /\
     SemaforoAdaptativo.obtener_espera_maxima_peatonal s = ahora s - tiempo_llegada p).
Proof.
  intros s Ha. destruct (alcanzable_llegadas_pasadas cfg s Ha) as (_ & Hp & _).
  assert (At : cola_peatones s <> [] ->
               exists p, In p (cola_peatones s) /\
                 SemaforoAdaptativo.obtener_espera_maxima_peatonal s =
                 ahora s - tiempo_llegada p).
  { unfold SemaforoAdaptativo.obtener_espera_maxima_peatonal.
    destruct (cola_peatones s) as [|q l]; [congruence|]. intros _.
    destruct (py_max_in (map (fun p => ahora s - tiempo_llegada p) l)
                (ahora s - tiempo_llegada q)) as [H|H].
    - exists q. split; [now left|]. symmetry. exact H.
    - apply in_map_iff in H. destruct H as (p & Hp1 & Hp2).
      exists p. split; [now right|]. symmetry. exact Hp1. }
  split; [|split; [|split]].
  - destruct (cola_peatones s) as [|q l] eqn:E.
    + unfold SemaforoAdaptativo.obtener_espera_maxima_peatonal. rewrite E. lra.
    + destruct At as (p & Hp1 & Hp2); [discriminate|]. rewrite Hp2.
      specialize (Hp p Hp1). lra.
  - intros E. unfold SemaforoAdaptativo.obtener_espera_maxima_peatonal. now rewrite E.
  - intros p Hin. now apply espera_maxima_ge.
  - exact At.
Qed.

End RegistrosDeServicio.

(** X1 on the run of [cfg_mixto]. *)
Lemma registros_de_servicio_coherentes_ejemplo :
  length (servicios_vehiculos (registros estado_mixto)) = 9%nat /\
  length (servicios_peatones (registros estado_mixto)) = 7%nat /\
  forall r, In r (servicios_vehiculos (registros estado_mixto)) \/
            In r (servicios_peatones (registros estado_mixto)) ->
    servicio_en_orden cfg_mixto (ahora estado_mixto) (ciclo_numero estado_mixto) r.
Proof.
  split; [reflexivity|]. split; [reflexivity|].
  apply (registros_de_servicio_coherentes (az := azar_ejemplo) cfg_mixto).
  apply estado_tras_alcanzable. reflexivity.
Defined.

(** X2 on the run of [cfg_reencola], in the state where the vehicle service
    of cycle 2 has been called. *)
Lemma servicios_nunca_simultaneos_ejemplo :
  m_atender (estado_tras (az := azar_ejemplo) cfg_reencola 30) =
    Some (At_creado Vehicular 10) /\
  fase_actual (estado_tras (az := azar_ejemplo) cfg_reencola 30) = VERDE_VEHICULAR.
Proof.
  assert (E : m_atender (estado_tras (az := azar_ejemplo) cfg_reencola 30) =
              Some (At_creado Vehicular 10)) by (vm_compute; reflexivity).
  assert (Ha : alcanzable (az := azar_ejemplo) cfg_reencola
                 (estado_tras (az := azar_ejemplo) cfg_reencola 30))
    by (apply estado_tras_alcanzable; reflexivity).
  split; [exact E|].
  exact (proj1 (servicios_nunca_simultaneos (az := azar_ejemplo) cfg_reencola _ Ha _ E)).
Defined.

(** X3 on the run of [cfg_mixto]. *)
Lemma reloj_bajo_el_horizonte_ejemplo :
  0 <= ahora estado_mixto /\ ahora estado_mixto < tiempo_sim cfg_mixto.
Proof.
  apply (reloj_bajo_el_horizonte (az := azar_ejemplo) cfg_mixto).
  apply estado_tras_alcanzable. reflexivity.
Defined.

(** X4 on the run of [cfg_mixto], which stops at 60. *)
Lemma corrida_completa_en_el_horizonte_ejemplo :
  match simular (az := azar_ejemplo) cfg_mixto 150 with
  | Completa s => ahora s == 60
  | _ => False
  end.
Proof.
  pose proof (corrida_completa_en_el_horizonte (az := azar_ejemplo) cfg_mixto 150) as H.
  destruct (simular (az := azar_ejemplo) cfg_mixto 150) as [s1|e1|s1] eqn:E1;
    [|vm_compute in E1; discriminate E1..].
  exact (proj1 (H s1 eq_refl)).
Defined.

(** X5 on the run of [cfg_mixto]. *)
Lemma cada_agente_una_vez_ejemplo :
  NoDup (censo Peatonal estado_mixto) /\
  forall i, In i (censo Peatonal estado_mixto) ->
            (1 <= i <= contador Peatonal estado_mixto)%nat.
Proof.
  apply (cada_agente_una_vez (az := azar_ejemplo) cfg_mixto).
  apply estado_tras_alcanzable. reflexivity.
Defined.

(** X6 on the run of [cfg_mixto], which has no warm-up. *)
Lemma nadie_se_pierde_ejemplo :
  Permutation (censo Vehicular estado_mixto) (seq 1 (contador Vehicular estado_mixto)).
Proof.
  apply (nadie_se_pierde (az := azar_ejemplo) cfg_mixto).
  - vm_compute. discriminate.
  - apply estado_tras_alcanzable. reflexivity.
Defined.

(** X7 on the run of [cfg_adaptativo_corto]. *)
Lemma bitacoras_cronologicas_ejemplo :
  bitacoras_en_orden cfg_adaptativo_corto estado_adaptativo.
Proof.
  apply (bitacoras_cronologicas (az := azar_ejemplo) cfg_adaptativo_corto).
  apply estado_tras_alcanzable. reflexivity.
Defined.

(** X8 on the run of [cfg_adaptativo_corto], whose warm-up is 12. *)
Lemma llegadas_sin_huecos_ejemplo : llegadas_ok cfg_adaptativo_corto estado_adaptativo.
Proof.
  apply (llegadas_sin_huecos (az := azar_ejemplo) cfg_adaptativo_corto).
  apply estado_tras_alcanzable. reflexivity.
Defined.

(** X9 on the run of [cfg_adaptativo_corto]. *)
Lemma fases_registradas_justificadas_ejemplo :
  eventos_semaforo (registros estado_adaptativo) <> [] /\
  forall r, In r (eventos_semaforo (registros estado_adaptativo)) ->
            fase_conforme cfg_adaptativo_corto r.
Proof.
  split; [vm_compute; discriminate|].
  apply (fases_registradas_justificadas (az := azar_ejemplo) cfg_adaptativo_corto).
  apply estado_tras_alcanzable. reflexivity.
Defined.

(** X10 on the run of [cfg_adaptativo_corto], which has logged two
    extensions. *)
Lemma decisiones_registradas_justificadas_ejemplo :
  length (decisiones_adaptativas (registros estado_adaptativo)) = 2%nat /\
  forall r, In r (decisiones_adaptativas (registros estado_adaptativo)) ->
            decision_conforme cfg_adaptativo_corto r.
Proof.
  split; [reflexivity|].
  apply (decisiones_registradas_justificadas (az := azar_ejemplo) cfg_adaptativo_corto).
  apply estado_tras_alcanzable. reflexivity.
Defined.

(** X11 on the run of [cfg_adaptativo_corto], with five pedestrians queued. *)
Lemma espera_maxima_es_el_maximo_ejemplo :
  0 <= SemaforoAdaptativo.obtener_espera_maxima_peatonal estado_adaptativo /\
  (cola_peatones estado_adaptativo = [] ->
   SemaforoAdaptativo.obtener_espera_maxima_peatonal estado_adaptativo = 0) /\
  (forall p, In p (cola_peatones estado_adaptativo) ->
     ahora estado_adaptativo - tiempo_llegada p <=
     SemaforoAdaptativo.obtener_espera_maxima_peatonal estado_adaptativo) /\
  (cola_peatones estado_adaptativo <> [] ->
   exists p, In p (cola_peatones estado_adaptativo) /\
     SemaforoAdaptativo.obtener_espera_maxima_peatonal estado_adaptativo =
     ahora estado_adaptativo - tiempo_llegada p).
Proof.
  apply (espera_maxima_es_el_maximo (az := azar_ejemplo) cfg_adaptativo_corto).
  apply estado_tras_alcanzable. reflexivity.
Defined.

(** ** Properties of the metrics *)

Section MetricasBasicas.

Context {az : Azar} {np : Numpy}.
Variable cfg : Config.

(** X12. [calcular_metricas_basicas] on the logs of a run: the entry of a
    class is [None] exactly when no service of the class is logged;
    otherwise [atendidos] is the number of services logged, no reported wait
    is negative, and the figures are in order: minimum, median, 95th
    percentile, maximum, with the mean between minimum and maximum. *)
Theorem esperas_reportadas_coherentes : forall s,
  alcanzable cfg s ->
  resumen_coherente (servicios_vehiculos (registros s))
    (met_vehiculos (calcular_metricas_basicas (registros s))) /\
  resumen_coherente (servicios_peatones (registros s))
    (met_peatones (calcular_metricas_basicas (registros s))).
Proof.
  intros s Ha. destruct (alcanzable_servicios_coherentes cfg s Ha) as [H _].
  split; apply (resumen_de_esperas cfg (ahora s) (ciclo_numero s)); intros r Hr; apply H; auto.
Qed.

(** X13. The green times [calcular_metricas_basicas] reports are scheduled
    times, not times of use: the pedestrian green is the sum of one
    [g_p_fijo] for each logged VERDE_PEATONAL; under the fixed controller
    the vehicle green is the sum of one [g_v_fijo] for each logged
    VERDE_VEHICULAR; under the adaptive controller, which logs its greens as
    VERDE_VEHICULAR_INICIAL and VERDE_VEHICULAR_EXTENSION, no entry counts
    and the vehicle green and its proportion are 0. *)
Theorem verde_reportado_por_controlador : forall s,
  alcanzable cfg s ->
  verde_programado cfg (eventos_semaforo (registros s))
    (met_semaforo (calcular_metricas_basicas (registros s))).
Proof.
  intros s Ha. apply verde_programado_de_bitacora.
  destruct (alcanzable_bitacora_justificada cfg s Ha) as [H _]. exact H.
Qed.

(** X14. ['ciclos_completos'] of a completed run is the cycle counter of the
    controller: the cycle in progress when the run stops is counted. *)
Theorem ciclos_completos_cuenta_el_actual : forall n s,
  simular cfg n = Completa s ->
  forall m, met_semaforo (calcular_metricas_basicas (registros s)) = Some m ->
            ms_ciclos_completos m = ciclo_numero s.
Proof.
  intros n s H m Hm. destruct (simular_completa cfg n s H) as (s0 & Ha & Hs).
  destruct (al_dia_al_completar cfg s0 s Ha Hs) as [H1 _].
  pose proof (alcanzable_bitacora_fases cfg s0 Ha) as Hb.
  destruct (parada_en_el_fin cfg s0 s Ha Hs) as (e & r & _ & _ & _ & ->).
  assert (Er : registros (con_agenda r (con_ahora (e_t e) s0)) = registros s0)
    by (destruct s0; reflexivity).
  assert (Ec : ciclo_numero (con_agenda r (con_ahora (e_t e) s0)) = ciclo_numero s0)
    by (destruct s0; reflexivity).
  rewrite Er in Hm. rewrite Ec. clear Er Ec.
  unfold calcular_metricas_basicas, metricas_de_semaforo in Hm. cbn [met_semaforo] in Hm.
  unfold bitacora_fases in Hb.
  destruct (eventos_semaforo (registros s0)) as [|e0 resto] eqn:Ee; [discriminate|].
  injection Hm as <-. cbn [ms_ciclos_completos].
  destruct H1 as (r0 & Hr0 & Hc0); [discriminate|].
  apply Nat.le_antisymm.
  - destruct (py_max_nat_in (map ev_ciclo resto) (ev_ciclo e0)) as [Hi|Hi].
    + rewrite <- Hi. apply (Hb e0). now left.
    + apply in_map_iff in Hi. destruct Hi as (r1 & <- & Hr1). apply (Hb r1). now right.
  - rewrite <- Hc0. destruct Hr0 as [<-|Hr0].
    + apply py_max_nat_ge_inicial.
    + apply py_max_nat_ge. now apply in_map.
Qed.

(** X15. On a dictionary with the keys that both controllers create,
    [calcular_metricas_adaptativas] raises in two cases and in no other:
    [KeyError] when the key ['decisiones_adaptativas'] is missing, and
    [TypeError] when decisions are logged and no phase change is, since it
    then reads ['ciclos_completos'] of [None]. Its call of [np.min] always
    has values. *)
Theorem metricas_adaptativas_error : forall registros,
  (calcular_metricas_adaptativas_dic registros = inl KeyError <->
   dic_decisiones registros = false) /\
  (calcular_metricas_adaptativas_dic registros = inl TypeError <->
   dic_decisiones registros = true /\
   decisiones_adaptativas (dic_registros registros) <> [] /\
   eventos_semaforo (dic_registros registros) = []) /\
  calcular_metricas_adaptativas_dic registros <> inl NumpyValueError.
Proof.
  intros [g [|]]; unfold calcular_metricas_adaptativas_dic;
    cbn [dic_decisiones dic_registros].
  - destruct (metricas_adaptativas_error_aux g) as [[E1 E1'] E2].
    pose proof (metricas_adaptativas_sin_keyerror g) as E3.
    split; [split; [intros H; contradiction|discriminate]|].
    split; [|exact E2]. split.
    + intros H. destruct (E1 H) as [Hd He]. auto.
    + intros (_ & Hd & He). apply E1'. auto.
  - split; [split; intros _; reflexivity|].
    split; [split; [discriminate|intros [H _]; discriminate]|discriminate].
Qed.

Lemma metricas_adaptativas_de_corrida : forall n s,
  simular cfg n = Completa s ->
  exists a, calcular_metricas_adaptativas (registros s) =
            inr (calcular_metricas_basicas (registros s), a).
Proof.
  intros n s H. destruct (simular_completa cfg n s H) as (s0 & Ha & Hs).
  destruct (al_dia_al_completar cfg s0 s Ha Hs) as [_ H2].
  destruct (parada_en_el_fin cfg s0 s Ha Hs) as (e & r & _ & _ & _ & ->).
  assert (Er : registros (con_agenda r (con_ahora (e_t e) s0)) = registros s0)
    by (destruct s0; reflexivity).
  rewrite Er. clear Er.
  destruct (metricas_adaptativas_error_aux (registros s0)) as [E1 E2].
  pose proof (metricas_adaptativas_sin_keyerror (registros s0)) as E3.
  destruct (calcular_metricas_adaptativas (registros s0)) as [[]|[m a]] eqn:Ec.
  - congruence.
  - exfalso. destruct (proj1 E1 eq_refl) as [Hd He]. apply (H2 Hd). exact He.
  - congruence.
  - exists a. f_equal. f_equal.
    revert Ec. unfold calcular_metricas_adaptativas.
    repeat match goal with
           | |- context [match ?x with _ => _ end] => destruct x
           end; intros Ec; congruence.
Qed.

(** X16. On the dictionary a completed run returns,
    [calcular_metricas_adaptativas] raises [KeyError] under the fixed
    controller, whose logs have no key ['decisiones_adaptativas']; under the
    adaptive controller it does not raise (the stop event is never taken
    between a decision and the phase change that follows it) and returns
    the basic metrics with the entry ['adaptativo']. *)
Theorem metricas_adaptativas_tras_corrida : forall n s,
  simular cfg n = Completa s ->
  match control cfg with
  | Fijo => calcular_metricas_adaptativas_dic (diccionario_de cfg s) = inl KeyError
  | Adaptativo =>
      exists a, calcular_metricas_adaptativas_dic (diccionario_de cfg s) =
                inr (calcular_metricas_basicas (registros s), a)
  end.
Proof.
  intros n s H. unfold calcular_metricas_adaptativas_dic, diccionario_de.
  cbn [dic_decisiones dic_registros].
  destruct (control cfg); [reflexivity|].
  exact (metricas_adaptativas_de_corrida n s H).
Qed.

(** X17. The entry ['adaptativo'] counts the decision log: its extension
    keys are present exactly when decisions are logged; ['total_extensiones']
    is the number of EXTENSION decisions; ['motivos_fin'] has one key for
    each motive that ends an extension, and under it the number of
    FIN_EXTENSION decisions with that motive ([get(motivo, 0)] is that number
    for every motive). *)
Theorem extensiones_y_motivos_contados : forall registros,
  match calcular_metricas_adaptativas registros with
  | inr (_, a) => extensiones_contadas (decisiones_adaptativas registros) a
  | inl _ => True
  end.
Proof.
  intros g. unfold calcular_metricas_adaptativas.
  destruct (decisiones_adaptativas g) as [|d ds] eqn:Ed.
  - destruct (eventos_semaforo g) as [|e es]; [reflexivity|].
    destruct (filter _ (e :: es)); [reflexivity|].
    destruct (map snd _); [exact I|reflexivity].
  - destruct (met_semaforo (calcular_metricas_basicas g)) as [sem|]; [|exact I].
    assert (Hx : extensiones_contadas (d :: ds)
              (Some (mkMetricasAdaptativo
                 (Some (mkMetricasExtensiones
                    (length (filter (fun d => Tipo_eqb (de_tipo d) EXTENSION) (d :: ds)))
                    (largo (filter (fun d => Tipo_eqb (de_tipo d) EXTENSION) (d :: ds)) /
                     inject_Z (Z.of_nat (Nat.max 1 (ms_ciclos_completos sem))))
                    (fold_left (fun d decision => contar_motivo (de_motivo decision) d)
                       (filter (fun d => Tipo_eqb (de_tipo d) FIN_EXTENSION) (d :: ds)) [])))
                 None))).
    { cbn [extensiones_contadas ma_extensiones mx_total_extensiones mx_motivos_fin].
      destruct (motivos_contados
                  (filter (fun d => Tipo_eqb (de_tipo d) FIN_EXTENSION) (d :: ds)) [])
        as (H1 & H2 & H3); [constructor|intros k v []|].
      split; [discriminate|]. split; [reflexivity|]. split; [exact H1|]. split; [exact H2|].
      intros k. rewrite H3. cbn [valor_de]. unfold fines_con. now rewrite filter_filter. }
    destruct (eventos_semaforo g) as [|e es]; [exact Hx|].
    destruct (filter _ (e :: es)); [exact Hx|].
    destruct (map snd _); [exact I|exact Hx].
Qed.

End MetricasBasicas.

(** X12 on the run of [cfg_mixto]. *)
Lemma esperas_reportadas_coherentes_ejemplo :
  resumen_coherente (servicios_vehiculos (registros estado_mixto))
    (met_vehiculos (calcular_metricas_basicas (np := numpy_ejemplo) (registros estado_mixto))) /\
  resumen_coherente (servicios_peatones (registros estado_mixto))
    (met_peatones (calcular_metricas_basicas (np := numpy_ejemplo) (registros estado_mixto))).
Proof.
  apply (esperas_reportadas_coherentes (az := azar_ejemplo) (np := numpy_ejemplo) cfg_mixto).
  apply estado_tras_alcanzable. reflexivity.
Defined.

(** X13 on the run of [cfg_adaptativo_corto]. *)
Lemma verde_reportado_por_controlador_ejemplo :
  verde_programado cfg_adaptativo_corto (eventos_semaforo (registros estado_adaptativo))
    (met_semaforo (calcular_metricas_basicas (np := numpy_ejemplo)
                     (registros estado_adaptativo))).
Proof.
  apply (verde_reportado_por_controlador (az := azar_ejemplo) (np := numpy_ejemplo)
           cfg_adaptativo_corto).
  apply estado_tras_alcanzable. reflexivity.
Defined.

(** X14 on the run of [cfg_adaptativo_corto], which stops in its third
    cycle. *)
Lemma ciclos_completos_cuenta_el_actual_ejemplo :
  match simular (az := azar_ejemplo) cfg_adaptativo_corto 200 with
  | Completa s =>
      forall m, met_semaforo (calcular_metricas_basicas (np := numpy_ejemplo) (registros s)) =
                Some m ->
                ms_ciclos_completos m = ciclo_numero s
  | _ => False
  end.
Proof.
  pose proof (ciclos_completos_cuenta_el_actual (az := azar_ejemplo) (np := numpy_ejemplo)
                cfg_adaptativo_corto 200) as H.
  destruct (simular (az := azar_ejemplo) cfg_adaptativo_corto 200) as [s1|e1|s1] eqn:E1;
    [|vm_compute in E1; discriminate E1..].
  exact (H s1 eq_refl).
Defined.

(** X16 on the run of [cfg_adaptativo_corto]. *)
Lemma metricas_adaptativas_tras_corrida_ejemplo :
  match simular (az := azar_ejemplo) cfg_adaptativo_corto 200 with
  | Completa s =>
      exists a, calcular_metricas_adaptativas_dic (np := numpy_ejemplo)
                  (diccionario_de cfg_adaptativo_corto s) =
                inr (calcular_metricas_basicas (np := numpy_ejemplo) (registros s), a)
  | _ => False
  end.
Proof.
  pose proof (metricas_adaptativas_tras_corrida (az := azar_ejemplo) (np := numpy_ejemplo)
                cfg_adaptativo_corto 200) as H.
  destruct (simular (az := azar_ejemplo) cfg_adaptativo_corto 200) as [s1|e1|s1] eqn:E1;
    [|vm_compute in E1; discriminate E1..].
  exact (H s1 eq_refl).
Defined.

Section Validacion.

Context {np : Numpy}.

(** X18. [validar_proceso_poisson] returns [None] for fewer than two
    arrivals, whatever the rate; with two or more it raises
    [ZeroDivisionError] when the expected rate is 0; otherwise it reports the
    number of arrivals, a mean gap that is never negative and never more
    than the span of the arrival times (latest minus earliest, in whatever
    order they come), the theoretical mean [1 / lambda], and as observed
    rate the inverse of the mean gap, or 0 with a coefficient of variation
    of 0 when all the arrivals coincide. *)
Theorem validar_proceso_poisson_correcta : forall tiempos lambda_esperada nombre,
  validacion_correcta tiempos lambda_esperada
    (validar_proceso_poisson tiempos lambda_esperada nombre).
Proof.
  intros tiempos lam nombre. unfold validar_proceso_poisson.
  destruct (length tiempos <? 2)%nat eqn:El.
  - apply Nat.ltb_lt in El. exact El.
  - apply Nat.ltb_ge in El. destruct (Qeq_dec lam 0) as [Hz|Hz].
    + repeat split; auto.
    + destruct tiempos as [|x r]; [cbn in El; lia|].
      destruct (sorted_cabeza x r) as (y & resto & Es & Hl & E0 & E1).
      destruct (sorted_extremos x r) as [M0 M1]. rewrite E0 in M0. rewrite E1 in M1.
      rewrite Es. cbn [np_diff].
      set (d := np_diff_desde y resto).
      assert (Hd : length d = length r) by (unfold d; now rewrite np_diff_desde_length).
      assert (Hs : py_sum d == py_max x r - py_min_lista x r).
      { rewrite py_sum_suma. unfold d. rewrite np_diff_desde_suma. lra. }
      assert (Hp : 0 < largo d).
      { apply largo_positivo. intros E. rewrite E in Hd. cbn in El, Hd. lia. }
      assert (Hu : 1 <= largo d).
      { unfold largo. rewrite Hd. change 1 with (inject_Z 1). rewrite <- Zle_Qle.
        cbn [length] in El. lia. }
      assert (Hr : 0 <= py_max x r - py_min_lista x r).
      { pose proof (py_min_lista_le_inicial r x). pose proof (py_max_ge_inicial r x). lra. }
      unfold validacion_correcta.
      cbn [ep_n_llegadas ep_media_inter_arribos ep_media_teorica ep_lambda_observada
           ep_coef_variacion rango].
      split; [exact El|]. split; [exact Hz|]. split; [reflexivity|].
      split.
      { unfold np_mean. apply Qle_shift_div_l; [exact Hp|]. lra. }
      split.
      { unfold np_mean. apply Qle_shift_div_r; [exact Hp|]. rewrite Hs.
        assert (Hx : 0 <= (py_max x r - py_min_lista x r) * (largo d - 1))
          by (apply Qmult_le_0_compat; lra).
        lra. }
      split; [reflexivity|].
      destruct (Qlt_le_dec 0 (np_mean d)) as [Hpos|Hneg].
      * reflexivity.
      * split; reflexivity.
Qed.

(** X20. [calcular_uso_tiempo_verde] returns [None] for an empty phase log;
    otherwise its vehicle green adds the durations of the entries named
    VERDE_VEHICULAR, VERDE_VEHICULAR_INICIAL and VERDE_VEHICULAR_EXTENSION
    (so it counts the greens of the adaptive controller, which
    [calcular_metricas_basicas] does not) and its pedestrian green those of
    the entries named VERDE_PEATONAL, the two proportions are 0 when no
    green time is logged, and ['ciclos_totales'] is at least the cycle of
    every entry. *)
Theorem uso_de_tiempo_verde_correcto : forall self df,
  uso_correcto df (AnalizadorMetricas.calcular_uso_tiempo_verde self df).
Proof.
  intros self df. unfold AnalizadorMetricas.calcular_uso_tiempo_verde.
  destruct df as [|e r]; [reflexivity|].
  unfold uso_correcto.
  cbn [uv_tiempo_verde_vehicular uv_tiempo_verde_peatonal uv_tiempo_total_verde
       uv_proporcion_verde_v uv_proporcion_verde_p uv_ciclos_totales].
  set (df := e :: r).
  assert (Ef : filter (fun e => Nombres.contiene_verde_vehicular (ev_fase e)) df =
               filter (fun e => verde_vehicular (ev_fase e)) df).
  { apply filter_ext. intros a. apply contiene_verde_vehicular_fases. }
  rewrite Ef. fold (fases_de VERDE_PEATONAL df).
  set (v := py_sum (map ev_duracion (filter (fun e => verde_vehicular (ev_fase e)) df))).
  set (p := py_sum (map ev_duracion (fases_de VERDE_PEATONAL df))).
  split; [reflexivity|]. split; [reflexivity|]. split; [reflexivity|].
  split.
  - destruct (Qlt_le_dec 0 (v + p)) as [H|H]; [intros; exfalso; lra|auto].
  - intros a [<-|Ha]; [apply py_max_nat_ge_inicial|apply py_max_nat_ge; now apply in_map].
Qed.

(** X21. [calcular_indice_equidad] returns [None] when a class has no
    summary; otherwise the ratio is infinite when a normalised mean wait is
    not positive, and else at least 1, and 1 exactly when the two
    normalised means are equal; the bias is towards vehicles exactly when
    their normalised mean is the larger one (a tie counts as pedestrians). *)
Theorem indice_de_equidad_correcto : forall self metricas_v metricas_p,
  equidad_correcta metricas_v metricas_p
    (AnalizadorMetricas.calcular_indice_equidad self metricas_v metricas_p).
Proof.
  intros self [mv|] [mp|]; cbn; auto.
  set (a := re_espera_media mv / 60). set (b := re_espera_media mp / 90).
  unfold py_min. split.
  - destruct (Qlt_le_dec b a) as [H1|H1]; destruct (Qlt_le_dec a b) as [H2|H2];
      try (exfalso; lra).
    + destruct (Qlt_le_dec 0 b) as [Hb|Hb]; [|right; exact Hb].
      split; [apply Qle_shift_div_l; lra|]. split; [lra|]. split; [exact Hb|].
      split; intros E.
      * assert (a == b * (a / b)) by (field; lra). rewrite E in H. lra.
      * exfalso. lra.
    + destruct (Qlt_le_dec 0 a) as [Hpa|Hpa]; [|left; exact Hpa].
      split; [apply Qle_shift_div_l; lra|]. split; [exact Hpa|]. split; [lra|].
      split; intros E.
      * assert (b == a * (b / a)) by (field; lra). rewrite E in H. lra.
      * exfalso. lra.
    + destruct (Qlt_le_dec 0 a) as [Hpa|Hpa]; [|left; exact Hpa].
      assert (Eab : a == b) by lra.
      split; [apply Qle_shift_div_l; lra|]. split; [exact Hpa|]. split; [lra|].
      split; intros _; [exact Eab|]. rewrite Eab. field. lra.
  - destruct (Qlt_le_dec b a) as [H1|H1]; split; intros H; try assumption;
      try reflexivity; try discriminate. exfalso. lra.
Qed.


End Validacion.
